(** * n-util: the call-coalescing decorator and the background action queue

    A shallow embedding of [debounce] (both the decorator built on
    [createReplacementMethod] and the older descriptor-based one) and of
    [BackgroundProcessor] with its [Action] records, followed by the
    properties of the two primitives.  The comparison functions of [Version]
    are embedded as well.

    JavaScript runs these on one thread: a piece of code runs up to its next
    [await] (or to its end) without interruption.  Each such piece is one
    transition of a step function; what the host decides (a call arriving, a
    timer firing, a promise settling) is an [Event]. *)

From Stdlib Require Import ZArith List Bool Lia String.
From stdpp Require Import gmap strings list fin_maps.
Import ListNotations.
Open Scope string_scope.
Open Scope list_scope.
Open Scope nat_scope.
#[local] Set Warnings "-clear-no-such-hyp".

(** Errors are identified by their message. *)
Abbreviation Err := string.

Inductive Exception :=
| ArgumentException (argName : string)
| ApplicationException (message : string)
| ObjectDisposedException.

(** [Duration]: a number of milliseconds; [fromMilliSeconds] goes through the
    private constructor, which refuses a negative value. *)
Record Duration := { _ms : Z }.

Definition fromMilliSeconds (milliSeconds : Z) : Exception + Duration :=
  if (0 <=? milliSeconds)%Z then inr {| _ms := milliSeconds |}
  else inl (ArgumentException "ms").

Definition toMilliSeconds (d : Duration) : Z := _ms d.

(* ===================================================================== *)
(** * debounce *)
(* ===================================================================== *)

Module Debounce.

(** The arguments of one call of the guarded method. *)
Definition Args := list Z.

(** What the guard stores on the owner under its two symbol keys.
    [VClosure args] is the arrow function
    [async () => { await target.call(this, ...args); }]. *)
Inductive Value :=
| VUndefined
| VNull
| VBool (b : bool)
| VClosure (args : Args).

Definition truthy (v : Value) : bool :=
  match v with
  | VBool b => b
  | VClosure _ => true
  | VUndefined | VNull => false
  end.

(** [v != null] *)
Definition notNull (v : Value) : bool :=
  match v with
  | VUndefined | VNull => false
  | _ => true
  end.

(** A guard as [createReplacementMethod] closes over it: the text of the
    method's name ([String(name)], which is all the keys take from the
    name), the delay ([None] for [null]), and which of the two decorators
    built it (they differ in the text of the keys only). *)
Record Guard := { name : string; delay : option Z; descriptorBased : bool }.

(** [Symbol.for] returns the same symbol for the same text, so a key is its
    text. *)
Definition activeKey (g : Guard) : string :=
  if descriptorBased g then "__$_" +:+ name g +:+ "_debounceIsActive"
  else "@nivinjoseph/n-util/debounce/" +:+ name g +:+ "/isActive".

Definition scheduledCallKey (g : Guard) : string :=
  if descriptorBased g then "__$_" +:+ name g +:+ "_debounceScheduledCall"
  else "@nivinjoseph/n-util/debounce/" +:+ name g +:+ "/scheduledCall".

(** Reading a property that was never set yields [undefined]. *)
Definition get (o : gmap string Value) (k : string) : Value :=
  default VUndefined (o !! k).

(** A suspended activation of the replacement method: [rid] is the number of
    the call that created it (and of the promise that call returned); [pc] is
    the [await] it is parked at. *)
Inductive Pc :=
| AwaitDelay
| AwaitCall (args : Args).

Record Runner := { rid : nat; pc : Pc }.

Inductive Promise :=
| Pending
| Resolved
| Rejected (e : Err).

(** [this]: the owner object; [runners]: the suspended activations;
    [promises]: the promise returned by each call, by call number;
    [executions]: the arguments of every execution of the wrapped method
    started so far, oldest first. *)
Record State := {
  this : gmap string Value;
  runners : list Runner;
  promises : list Promise;
  executions : list Args
}.

Definition setProp (k : string) (v : Value) (s : State) : State :=
  {| this := <[k := v]> (this s); runners := runners s;
     promises := promises s; executions := executions s |}.

Definition settle (r : nat) (p : Promise) (s : State) : State :=
  {| this := this s; runners := runners s;
     promises := <[r := p]> (promises s); executions := executions s |}.

Definition suspend (r : nat) (at_ : Pc) (s : State) : State :=
  {| this := this s; runners := runners s ++ [{| rid := r; pc := at_ |}];
     promises := promises s; executions := executions s |}.

Definition started (args : Args) (s : State) : State :=
  {| this := this s; runners := runners s;
     promises := promises s; executions := executions s ++ [args] |}.

Definition wake (r : nat) (s : State) : State :=
  {| this := this s;
     runners := filter (fun x => rid x ≠ r) (runners s);
     promises := promises s; executions := executions s |}.

Definition pcOf (r : nat) (s : State) : option Pc :=
  pc <$> head (filter (fun x => rid x = r) (runners s)).

Definition isActive (g : Guard) (s : State) : bool :=
  truthy (get (this s) (activeKey g)).

Definition pendingCall (g : Guard) (s : State) : Value :=
  get (this s) (scheduledCallKey g).

(** The wrapped method is in flight from the moment [currentCall()] is
    invoked until the promise it returned settles. *)
Definition inFlight (s : State) : list Args :=
  omap (fun x => match pc x with AwaitCall a => Some a | AwaitDelay => None end)
       (runners s).

(** The tail of the loop body, from the read of the scheduled call to the
    [await currentCall()]: the slot is read and cleared, the call is started
    and the activation parks on it.  Calling something that is not a function
    throws inside the [try]; the [finally] clears the flag and the activation
    ends rejected. *)
Definition capture (g : Guard) (r : nat) (s : State) : State :=
  let currentCall := get (this s) (scheduledCallKey g) in
  let s1 := setProp (scheduledCallKey g) VNull s in
  match currentCall with
  | VClosure args => suspend r (AwaitCall args) (started args s1)
  | _ => settle r (Rejected "TypeError") (setProp (activeKey g) (VBool false) s1)
  end.

(** The [while] test and the loop body up to its first [await]; when the test
    fails the async function returns and its promise resolves. *)
Definition loop (g : Guard) (r : nat) (s : State) : State :=
  if notNull (get (this s) (scheduledCallKey g))
     && negb (truthy (get (this s) (activeKey g)))
  then
    let s1 := setProp (activeKey g) (VBool true) s in
    match delay g with
    | Some _ => suspend r AwaitDelay s1
    | None => capture g r s1
    end
  else settle r Resolved s.

(** A call of the replacement method, up to its first [await] or its
    return. *)
Definition replacementMethod (g : Guard) (args : Args) (s : State) : State :=
  let r := length (promises s) in
  let s0 :=
    {| this := this s; runners := runners s;
       promises := promises s ++ [Pending]; executions := executions s |} in
  let s1 := setProp (scheduledCallKey g) (VClosure args) s0 in
  if truthy (get (this s1) (activeKey g)) then settle r Resolved s1
  else loop g r s1.

(** What the host can do to a guarded method of one owner.

    Modelled from the spec: [Delay.milliseconds] (delay.js is not among the
    sources) is the settle delay, a promise that the host resolves later;
    [DelayElapsed r] is that moment for activation [r]. *)
Inductive Event :=
| Invoke (args : Args)
| DelayElapsed (r : nat)
| TargetSettles (r : nat) (failure : option Err).

(** One transition; [None] when the event cannot happen in this state (no
    activation [r] is parked at that [await]).  After [await currentCall()]
    the [finally] block clears the flag; a failure then leaves the function,
    a success goes back to the [while] test. *)
Definition step (g : Guard) (s : State) (ev : Event) : option State :=
  match ev with
  | Invoke args => Some (replacementMethod g args s)
  | DelayElapsed r =>
      match pcOf r s with
      | Some AwaitDelay => Some (capture g r (wake r s))
      | _ => None
      end
  | TargetSettles r failure =>
      match pcOf r s with
      | Some (AwaitCall _) =>
          let s1 := setProp (activeKey g) (VBool false) (wake r s) in
          match failure with
          | Some e => Some (settle r (Rejected e) s1)
          | None => Some (loop g r s1)
          end
      | _ => None
      end
  end.

Fixpoint run (g : Guard) (s : State) (evs : list Event) : option State :=
  match evs with
  | [] => Some s
  | ev :: rest =>
      match step g s ev with
      | Some s' => run g s' rest
      | None => None
      end
  end.

(** The owner before the guarded method is first called: whatever else it
    holds, the guard's two properties are not there yet. *)
Definition untouched (g : Guard) (o : gmap string Value) : Prop :=
  o !! activeKey g = None ∧ o !! scheduledCallKey g = None.

Definition init (o : gmap string Value) : State :=
  {| this := o; runners := []; promises := []; executions := [] |}.

Definition reachable (g : Guard) (s : State) : Prop :=
  ∃ o evs, untouched g o ∧ run g (init o) evs = Some s.

(** ** Setting the guard up *)

(** The name a decorator context carries: a string or a symbol.  A symbol
    has an identity of its own and may have a description. *)
Inductive PropertyName :=
| NString (s : string)
| NSymbol (id : nat) (description : option string).

(** [String(name)]: a string is itself, a symbol gives
    ["Symbol(description)"]. *)
Definition toText (n : PropertyName) : string :=
  match n with
  | NString s => s
  | NSymbol _ description => "Symbol(" +:+ default "" description +:+ ")"
  end.

(** The context the decorator receives; [kind] is [None] when it has no
    value. *)
Record MethodDecoratorContext := { ctxName : PropertyName; kind : option string }.

Inductive DelayOrTarget :=
| ADuration (d : Duration)
| ATarget.

Inductive Setup :=
| Decorator (d : Duration)
| Replacement (g : Guard).

(** [given(kind, "kind").ensureHasValue().ensureIsString()
      .ensure(t => t === "method", ...)], then the replacement is built. *)
Definition createReplacementMethod
    (context : MethodDecoratorContext) (d : option Duration) : Exception + Guard :=
  match kind context with
  | Some k =>
      if String.eqb k "method"
      then inr {| name := toText (ctxName context);
                  delay := toMilliSeconds <$> d;
                  descriptorBased := false |}
      else inl (ArgumentException "kind")
  | None => inl (ArgumentException "kind")
  end.

Definition debounce (delayOrTarget : DelayOrTarget)
    (context : option MethodDecoratorContext) : Exception + Setup :=
  match delayOrTarget with
  | ADuration d =>
      if (0 <? toMilliSeconds d)%Z then inr (Decorator d)
      else inl (ArgumentException "delay")
  | ATarget =>
      match context with
      | None => inl (ApplicationException "Context should not be null or undefined")
      | Some c =>
          match createReplacementMethod c None with
          | inl e => inl e
          | inr g => inr (Replacement g)
          end
      end
  end.

(** The decorator [debounce(delay)] returned, applied to a method. *)
Definition decorate (d : Duration) (context : MethodDecoratorContext)
    : Exception + Guard :=
  createReplacementMethod context (Some d).

(** *** The descriptor-based decorator *)

Inductive JsValue :=
| JUndefined
| JNull
| JString (s : string)
| JNumber (n : Z)
| JObject
| JDuration (d : Duration).

Definition hasValue (v : JsValue) : bool :=
  match v with JUndefined | JNull => false | _ => true end.

Definition isObject (v : JsValue) : bool :=
  match v with JObject | JDuration _ => true | _ => false end.

Definition isString (v : JsValue) : bool :=
  match v with JString _ => true | _ => false end.

Definition given (v : JsValue) (argName : string) (ok : JsValue → bool)
    : Exception + unit :=
  if hasValue v && ok v then inr tt else inl (ArgumentException argName).

Definition installOn (propertyKey : JsValue) (delayMs : option Z) : Guard :=
  {| name := match propertyKey with JString s => s | _ => "" end;
     delay := delayMs; descriptorBased := true |}.

(** The function [debounce(delay)] returns: three argument checks, then
    [descriptor.value] is replaced. *)
Definition descriptorDecorator (delayMs : Z)
    (target propertyKey descriptor : JsValue) : Exception + Guard :=
  match given target "target" isObject with
  | inl e => inl e
  | inr _ =>
    match given propertyKey "propertyKey" isString with
    | inl e => inl e
    | inr _ =>
      match given descriptor "descriptor" isObject with
      | inl e => inl e
      | inr _ => inr (installOn propertyKey (Some delayMs))
      end
    end
  end.

Inductive DescriptorSetup :=
| DescriptorDecorator (delayMs : Z)
| Installed (g : Guard).

Definition debounceDescriptor (delayOrTarget propertyKey descriptor : JsValue)
    : Exception + DescriptorSetup :=
  match given delayOrTarget "delayOrTarget" isObject with
  | inl e => inl e
  | inr _ =>
    match delayOrTarget with
    | JDuration d => inr (DescriptorDecorator (toMilliSeconds d))
    | _ =>
      match given propertyKey "propertyKey" isString with
      | inl e => inl e
      | inr _ =>
        match given descriptor "descriptor" isObject with
        | inl e => inl e
        | inr _ => inr (Installed (installOn propertyKey None))
        end
      end
    end
  end.

(** ** Scenarios and invariants used below *)

(** The shape every reachable state has: either nothing is suspended and the
    flag is off, or exactly one activation is suspended, the flag is on and
    that activation's promise is still pending. *)
Definition wf (g : Guard) (s : State) : Prop :=
  (runners s = [] ∧ isActive g s = false)
  ∨ (∃ r, runners s = [r] ∧ isActive g s = true
          ∧ promises s !! rid r = Some Pending).

(** No call of the guarded method among the events. *)
Definition noInvoke (evs : list Event) : Prop :=
  Forall (fun ev => match ev with Invoke _ => False | _ => True end) evs.

(** The events between the end of one execution and the start of the next:
    the settle delay, when one is configured. *)
Definition settleDelay (g : Guard) (r : nat) : list Event :=
  match delay g with
  | Some _ => [DelayElapsed r]
  | None => []
  end.

(** Two concrete guards and the state a fresh owner is in after a list of
    events. *)
Definition immediate : Guard :=
  {| name := "handleInput"; delay := None; descriptorBased := false |}.

Definition delayed : Guard :=
  {| name := "handleInput"; delay := Some 50%Z; descriptorBased := false |}.

Definition after (g : Guard) (evs : list Event) : State :=
  default (init ∅) (run g (init ∅) evs).

(** The property as first stated, at one scenario on a fresh owner: [before]
    leads into a run, [calls] are made while the flag is on, [finish] lets the
    current run complete; then, with no further call, one more execution with
    the arguments of the last of [calls] is started. *)
Definition oneMoreRunWithLastArgs
    (g : Guard) (before : list Event) (calls : list Args) (finish : list Event)
    : Prop :=
  ∃ s0 s1 s2 l,
    run g (init ∅) before = Some s0
    ∧ isActive g s0 = true
    ∧ run g s0 (Invoke <$> calls) = Some s1
    ∧ isActive g s1 = true
    ∧ last calls = Some l
    ∧ run g s1 finish = Some s2
    ∧ ∃ evs s3, noInvoke evs ∧ run g s2 evs = Some s3
                ∧ executions s3 = executions s2 ++ [l].

(** The second half of C6 as first stated, at one scenario on a fresh owner:
    after [before], the execution awaited by activation [r] fails with [e];
    the flag is cleared and, with no further call, the call that was pending
    at that moment is executed. *)
Definition pendingCallRunsAfterFailure
    (g : Guard) (before : list Event) (r : nat) (e : Err) : Prop :=
  ∃ s s' l,
    run g (init ∅) before = Some s
    ∧ pendingCall g s = VClosure l
    ∧ step g s (TargetSettles r (Some e)) = Some s'
    ∧ isActive g s' = false
    ∧ ∃ evs s'', noInvoke evs ∧ run g s' evs = Some s''
                 ∧ executions s'' = executions s' ++ [l].

(** ** Further invariants and measures *)

(** The last character of a string. *)
Fixpoint lastChar (s : string) : option Ascii.ascii :=
  match s with
  | EmptyString => None
  | String c EmptyString => Some c
  | String _ rest => lastChar rest
  end.

(** The scheduled call is absent, [null] or a closure; an activation that
    waits out the delay has a closure to call afterwards; a pending promise
    is the one of the suspended activation. *)
Record tidy (g : Guard) (s : State) : Prop := {
  tidy_slot : ∀ b, pendingCall g s ≠ VBool b;
  tidy_delay :
    ∀ r, runners s = [{| rid := r; pc := AwaitDelay |}] →
         ∃ l, pendingCall g s = VClosure l;
  tidy_pending :
    ∀ p, promises s !! p = Some Pending → ∃ c, runners s = [{| rid := p; pc := c |}]
}.

(** The arguments of the calls among the events, in order. *)
Definition callArgs (evs : list Event) : list Args :=
  omap (fun ev => match ev with Invoke a => Some a | _ => None end) evs.

(** What one transition does to the executions and to the scheduled call. *)
Inductive Effect (g : Guard) (s : State) (ev : Event) (s' : State) : Prop :=
| Nothing :
    callArgs [ev] = [] → executions s' = executions s →
    pendingCall g s' = pendingCall g s → Effect g s ev s'
| RunsPending l :
    callArgs [ev] = [] → pendingCall g s = VClosure l →
    executions s' = executions s ++ [l] → pendingCall g s' = VNull →
    Effect g s ev s'
| Records a :
    ev = Invoke a → executions s' = executions s →
    pendingCall g s' = VClosure a → Effect g s ev s'
| RunsAtOnce a :
    ev = Invoke a → executions s' = executions s ++ [a] →
    pendingCall g s' = VNull → Effect g s ev s'.

(** The executions so far are a subsequence of the calls so far, and a
    scheduled call is the last call made. *)
Definition inCallOrder (g : Guard) (s : State) (calls : list Args) : Prop :=
  executions s `sublist_of` calls
  ∧ ∀ l, pendingCall g s = VClosure l →
         ∃ earlier, calls = earlier ++ [l] ∧ executions s `sublist_of` earlier.

(** No failing execution among the events. *)
Definition noFailure (evs : list Event) : Prop :=
  Forall (fun ev => match ev with TargetSettles _ (Some _) => False | _ => True end)
         evs.

(** The call an active guard still has to run: the one in its slot. *)
Definition due (g : Guard) (s : State) : list Args :=
  if isActive g s
  then match pendingCall g s with VClosure l => [l] | _ => [] end
  else [].

End Debounce.

(* ===================================================================== *)
(** * BackgroundProcessor *)
(* ===================================================================== *)

Module BackgroundProcessor.

(** What calling a closure supplied by the user does: it throws before
    returning, or it returns a promise that later resolves or rejects. *)
Inductive Behaviour :=
| Throws (e : Err)
| Resolves
| Rejects (e : Err).

(** An [Action] object; [ident] stands for the identity of the object. *)
Record Action := {
  ident : nat;
  _action : Behaviour;
  _errorHandler : Err → Behaviour
}.

(** The two callbacks [execute] is given: the one of the timer callback
    (remove, then re-arm) and the one of [dispose] (remove). *)
Inductive Callback :=
| TickCallback
| DisposeCallback.

(** A promise reaction registered by [execute]: the record waits for the
    promise of its action, or for the promise of its error handler called
    with [error]. *)
Inductive Awaiting :=
| OnAction
| OnHandler (error : Err).

Record Reaction := {
  subject : Action;
  awaiting : Awaiting;
  postExecuteCallback : Callback
}.

(** What has happened, oldest first. *)
Inductive Entry :=
| Enqueued (id : nat)
| Started (id : nat)
| Handled (id : nat) (error : Err)
| ConsoleError (error : Err)
| Completed (id : nat).

(** The promise returned by a call of [dispose]. *)
Inductive Disposal :=
| Waiting
| Finished
| Failed (e : Err).

Record Config := {
  _defaultErrorHandler : Err → Behaviour;
  _breakIntervalMilliseconds : Z;
  _breakOnlyWhenNoWork : bool
}.

(** The fields of the processor, then the host's side: the armed timers
    (handle and delay), the registered reactions, the promises of the
    [dispose] calls, errors nobody caught, and the log. *)
Record State := {
  config : Config;
  _actionsToProcess : list Action;
  _actionsExecuting : list Action;
  _isDisposed : bool;
  _timeout : option nat;
  timers : list (nat * Z);
  timersCreated : nat;
  reactions : list Reaction;
  disposals : list Disposal;
  actionsCreated : nat;
  uncaught : list Err;
  log : list Entry
}.

Definition queueLength (s : State) : nat := length (_actionsToProcess s).

Definition setToProcess (l : list Action) (s : State) : State :=
  {| config := config s; _actionsToProcess := l;
     _actionsExecuting := _actionsExecuting s; _isDisposed := _isDisposed s;
     _timeout := _timeout s; timers := timers s;
     timersCreated := timersCreated s; reactions := reactions s;
     disposals := disposals s; actionsCreated := actionsCreated s;
     uncaught := uncaught s; log := log s |}.

Definition setExecuting (l : list Action) (s : State) : State :=
  {| config := config s; _actionsToProcess := _actionsToProcess s;
     _actionsExecuting := l; _isDisposed := _isDisposed s;
     _timeout := _timeout s; timers := timers s;
     timersCreated := timersCreated s; reactions := reactions s;
     disposals := disposals s; actionsCreated := actionsCreated s;
     uncaught := uncaught s; log := log s |}.

Definition setDisposed (s : State) : State :=
  {| config := config s; _actionsToProcess := _actionsToProcess s;
     _actionsExecuting := _actionsExecuting s; _isDisposed := true;
     _timeout := _timeout s; timers := timers s;
     timersCreated := timersCreated s; reactions := reactions s;
     disposals := disposals s; actionsCreated := actionsCreated s;
     uncaught := uncaught s; log := log s |}.

(** [this._timeout = setTimeout(callback, timeout)] *)
Definition setTimeout (timeout : Z) (s : State) : State :=
  {| config := config s; _actionsToProcess := _actionsToProcess s;
     _actionsExecuting := _actionsExecuting s; _isDisposed := _isDisposed s;
     _timeout := Some (timersCreated s);
     timers := timers s ++ [(timersCreated s, timeout)];
     timersCreated := S (timersCreated s); reactions := reactions s;
     disposals := disposals s; actionsCreated := actionsCreated s;
     uncaught := uncaught s; log := log s |}.

(** [clearTimeout(h)], and a timer that fires, take [h] out of the armed
    timers. *)
Definition clearTimeout (h : nat) (s : State) : State :=
  {| config := config s; _actionsToProcess := _actionsToProcess s;
     _actionsExecuting := _actionsExecuting s; _isDisposed := _isDisposed s;
     _timeout := _timeout s;
     timers := filter (fun t => fst t ≠ h) (timers s);
     timersCreated := timersCreated s; reactions := reactions s;
     disposals := disposals s; actionsCreated := actionsCreated s;
     uncaught := uncaught s; log := log s |}.

Definition setReactions (l : list Reaction) (s : State) : State :=
  {| config := config s; _actionsToProcess := _actionsToProcess s;
     _actionsExecuting := _actionsExecuting s; _isDisposed := _isDisposed s;
     _timeout := _timeout s; timers := timers s;
     timersCreated := timersCreated s; reactions := l;
     disposals := disposals s; actionsCreated := actionsCreated s;
     uncaught := uncaught s; log := log s |}.

Definition setDisposals (l : list Disposal) (s : State) : State :=
  {| config := config s; _actionsToProcess := _actionsToProcess s;
     _actionsExecuting := _actionsExecuting s; _isDisposed := _isDisposed s;
     _timeout := _timeout s; timers := timers s;
     timersCreated := timersCreated s; reactions := reactions s;
     disposals := l; actionsCreated := actionsCreated s;
     uncaught := uncaught s; log := log s |}.

Definition newAction (s : State) : State :=
  {| config := config s; _actionsToProcess := _actionsToProcess s;
     _actionsExecuting := _actionsExecuting s; _isDisposed := _isDisposed s;
     _timeout := _timeout s; timers := timers s;
     timersCreated := timersCreated s; reactions := reactions s;
     disposals := disposals s; actionsCreated := S (actionsCreated s);
     uncaught := uncaught s; log := log s |}.

Definition escaped (e : Err) (s : State) : State :=
  {| config := config s; _actionsToProcess := _actionsToProcess s;
     _actionsExecuting := _actionsExecuting s; _isDisposed := _isDisposed s;
     _timeout := _timeout s; timers := timers s;
     timersCreated := timersCreated s; reactions := reactions s;
     disposals := disposals s; actionsCreated := actionsCreated s;
     uncaught := uncaught s ++ [e]; log := log s |}.

Definition record (x : Entry) (s : State) : State :=
  {| config := config s; _actionsToProcess := _actionsToProcess s;
     _actionsExecuting := _actionsExecuting s; _isDisposed := _isDisposed s;
     _timeout := _timeout s; timers := timers s;
     timersCreated := timersCreated s; reactions := reactions s;
     disposals := disposals s; actionsCreated := actionsCreated s;
     uncaught := uncaught s; log := log s ++ [x] |}.

(** [Array.prototype.remove] of n-ext: the first element identical to
    [value] is taken out. *)
Fixpoint remove (value : Action) (l : list Action) : list Action :=
  match l with
  | [] => []
  | x :: rest =>
      if Nat.eqb (ident x) (ident value) then rest else x :: remove value rest
  end.

(** How a piece of code ends: normally, or by throwing. *)
Inductive Completion :=
| Normal (s : State)
| Thrown (e : Err) (s : State).

Definition andThen (c : Completion) (k : State → Completion) : Completion :=
  match c with
  | Normal s => k s
  | Thrown e s => Thrown e s
  end.

Definition tryCatch (body : Completion) (handler : Err → State → Completion)
    : Completion :=
  match body with
  | Normal s => Normal s
  | Thrown e s => handler e s
  end.

(** Calling a user closure. *)
Definition call (b : Behaviour) (s : State) : Completion :=
  match b with
  | Throws e => Thrown e s
  | Resolves | Rejects _ => Normal s
  end.

Definition _initiateBackgroundProcessing (s : State) : State :=
  if _isDisposed s then s
  else
    let timeout :=
      if _breakOnlyWhenNoWork (config s) && (0 <? length (_actionsToProcess s))%nat
      then 0%Z
      else _breakIntervalMilliseconds (config s) in
    setTimeout timeout s.

(** The callback passed to [execute]. *)
Definition postExecute (action : Action) (cb : Callback) (s : State) : State :=
  let s1 := record (Completed (ident action))
              (setExecuting (remove action (_actionsExecuting s)) s) in
  match cb with
  | TickCallback => _initiateBackgroundProcessing s1
  | DisposeCallback => s1
  end.

Definition register (r : Reaction) (s : State) : State :=
  setReactions (reactions s ++ [r]) s.

(** The inner [try]/[catch] of [execute] (it occurs twice, with the same
    text): the error handler is called; if it throws, the error goes to
    [console.error] and the callback is called; otherwise the record waits
    for the handler's promise. *)
Definition handleError (a : Action) (cb : Callback) (error : Err) (s : State)
    : Completion :=
  tryCatch
    (andThen (call (_errorHandler a error) (record (Handled (ident a) error) s))
       (fun s1 =>
          Normal (register {| subject := a; awaiting := OnHandler error;
                              postExecuteCallback := cb |} s1)))
    (fun e2 s1 => Normal (postExecute a cb (record (ConsoleError e2) s1))).

(** [Action.execute], up to its return: the action is called inside the
    outer [try]; if it throws, the outer [catch] runs the inner
    [try]/[catch]; otherwise the record waits for the action's promise. *)
Definition execute (a : Action) (cb : Callback) (s : State) : Completion :=
  tryCatch
    (andThen (call (_action a) (record (Started (ident a)) s))
       (fun s1 =>
          Normal (register {| subject := a; awaiting := OnAction;
                              postExecuteCallback := cb |} s1)))
    (fun error s1 => handleError a cb error s1).

(** The promise a record waits for settles: the [then] or [catch] callback
    registered for it runs.  [None]: that promise does not exist. *)
Definition react (r : Reaction) (s : State) : option Completion :=
  let a := subject r in
  let cb := postExecuteCallback r in
  match awaiting r with
  | OnAction =>
      match _action a with
      | Resolves => Some (Normal (postExecute a cb s))
      | Rejects error => Some (handleError a cb error s)
      | Throws _ => None
      end
  | OnHandler error =>
      match _errorHandler a error with
      | Resolves => Some (Normal (postExecute a cb s))
      | Rejects e2 => Some (Normal (postExecute a cb (record (ConsoleError e2) s)))
      | Throws _ => None
      end
  end.

(** An error that leaves a callback run by the host is nobody's. *)
Definition hostCall (c : Completion) : State :=
  match c with
  | Normal s => s
  | Thrown e s => escaped e s
  end.

(** The callback given to [setTimeout]. *)
Definition tick (s : State) : State :=
  match _actionsToProcess s with
  | action :: rest =>
      hostCall
        (execute action TickCallback
           (setExecuting (_actionsExecuting s ++ [action]) (setToProcess rest s)))
  | [] => _initiateBackgroundProcessing s
  end.

Definition processAction (action : option Behaviour)
    (errorHandler : option (Err → Behaviour)) (s : State) : Exception + State :=
  if _isDisposed s then inl ObjectDisposedException
  else
    match action with
    | None => inl (ArgumentException "action")
    | Some act =>
        let a := {| ident := actionsCreated s; _action := act;
                    _errorHandler :=
                      default (_defaultErrorHandler (config s)) errorHandler |} in
        inr (record (Enqueued (ident a))
               (setToProcess (_actionsToProcess s ++ [a]) (newAction s)))
    end.

(** The first loop of [dispose]; [fuel] bounds the number of iterations. *)
Fixpoint drain (fuel : nat) (s : State) : Completion :=
  match fuel with
  | 0 => Normal s
  | S fuel' =>
      match _actionsToProcess s with
      | [] => Normal s
      | action :: rest =>
          andThen
            (execute action DisposeCallback
               (setExecuting (_actionsExecuting s ++ [action])
                             (setToProcess rest s)))
            (drain fuel')
      end
  end.

(** The test of the second loop of [dispose]: the promise of call [d]
    resolves when nothing is executing, otherwise the call sleeps again. *)
Definition poll (d : nat) (s : State) : State :=
  match _actionsExecuting s with
  | [] => setDisposals (<[d := Finished]> (disposals s)) s
  | _ :: _ => s
  end.

(** A call of [dispose], up to its first [await] or its return. *)
Definition dispose (killQueue : bool) (s : State) : State :=
  let d := length (disposals s) in
  let s0 := setDisposals (disposals s ++ [Waiting]) s in
  if _isDisposed s0 then setDisposals (<[d := Finished]> (disposals s0)) s0
  else
    let s1 := setDisposed s0 in
    let s2 := match _timeout s1 with
              | Some h => clearTimeout h s1
              | None => s1
              end in
    let drained :=
      if negb killQueue then drain (length (_actionsToProcess s2)) s2
      else Normal s2 in
    match drained with
    | Normal s3 => poll d s3
    | Thrown e s3 => setDisposals (<[d := Failed e]> (disposals s3)) s3
    end.

(** The constructor after its argument checks: the fields are set and
    [_initiateBackgroundProcessing] is called. *)
Definition constructed (defaultErrorHandler : Err → Behaviour)
    (breakIntervalMilliseconds : Z) (breakOnlyWhenNoWork : bool) : State :=
  _initiateBackgroundProcessing
    {| config := {| _defaultErrorHandler := defaultErrorHandler;
                    _breakIntervalMilliseconds := breakIntervalMilliseconds;
                    _breakOnlyWhenNoWork := breakOnlyWhenNoWork |};
       _actionsToProcess := []; _actionsExecuting := [];
       _isDisposed := false; _timeout := None; timers := [];
       timersCreated := 0; reactions := []; disposals := [];
       actionsCreated := 0; uncaught := []; log := [] |}.

(** [new BackgroundProcessor(defaultErrorHandler, breakIntervalMilliseconds,
    breakOnlyWhenNoWork)] *)
Definition new (defaultErrorHandler : Err → Behaviour)
    (breakIntervalMilliseconds : Z) (breakOnlyWhenNoWork : bool)
    : Exception + State :=
  if (0 <=? breakIntervalMilliseconds)%Z then
    inr (constructed defaultErrorHandler breakIntervalMilliseconds
           breakOnlyWhenNoWork)
  else inl (ArgumentException "breakIntervalMilliseconds").

(** What the host and the owner can do to a processor.

    Modelled from the spec: [Delay.seconds] (delay.js is not among the
    sources) is the wait between two polls of [dispose], a promise that the
    host resolves later; [PollElapsed d] is that moment for the [dispose]
    call [d]. *)
Inductive Event :=
| Enqueue (action : option Behaviour) (errorHandler : option (Err → Behaviour))
| Tick (h : nat)
| Settles (id : nat)
| Dispose (killQueue : bool)
| PollElapsed (d : nat).

Definition reactionOf (id : nat) (s : State) : option Reaction :=
  head (filter (fun r => ident (subject r) = id) (reactions s)).

Definition dropReaction (id : nat) (s : State) : State :=
  setReactions (filter (fun r => ident (subject r) ≠ id) (reactions s)) s.

(** One transition; [None] when the event cannot happen in this state: the
    timer is not armed, no record with that identity is waiting, the
    [dispose] call is not sleeping.  A call of [processAction] that throws
    leaves the processor as it was. *)
Definition step (s : State) (ev : Event) : option State :=
  match ev with
  | Enqueue action errorHandler =>
      match processAction action errorHandler s with
      | inl _ => Some s
      | inr s' => Some s'
      end
  | Tick h =>
      if bool_decide (h ∈ (fst <$> timers s))
      then Some (tick (clearTimeout h s))
      else None
  | Settles id =>
      match reactionOf id s with
      | Some r => hostCall <$> react r (dropReaction id s)
      | None => None
      end
  | Dispose killQueue => Some (dispose killQueue s)
  | PollElapsed d =>
      match disposals s !! d with
      | Some Waiting => Some (poll d s)
      | _ => None
      end
  end.

Fixpoint run (s : State) (evs : list Event) : option State :=
  match evs with
  | [] => Some s
  | ev :: rest =>
      match step s ev with
      | Some s' => run s' rest
      | None => None
      end
  end.

Definition reachable (s : State) : Prop :=
  ∃ handler interval onlyWhenNoWork s0 evs,
    new handler interval onlyWhenNoWork = inr s0 ∧ run s0 evs = Some s.

(** The identities in a list of actions, and those started, completed and
    enqueued according to the log, in order. *)
Abbreviation idents l := (ident <$> l).

Definition startedIn (l : list Entry) : list nat :=
  omap (fun x => match x with Started id => Some id | _ => None end) l.

Definition completedIn (l : list Entry) : list nat :=
  omap (fun x => match x with Completed id => Some id | _ => None end) l.

Definition enqueuedIn (l : list Entry) : list nat :=
  omap (fun x => match x with Enqueued id => Some id | _ => None end) l.

(** ** Invariants, measures and scenarios used below *)

Arguments startedIn : simpl never.
Arguments completedIn : simpl never.
Arguments enqueuedIn : simpl never.

Definition isTick (r : Reaction) : Prop := postExecuteCallback r = TickCallback.

Global Instance isTick_dec r : Decision (isTick r).
Proof. unfold isTick. destruct (postExecuteCallback r); [left|right]; done. Defined.

Definition wellFormed (r : Reaction) : Prop :=
  match awaiting r with
  | OnAction => ∀ e, _action (subject r) ≠ Throws e
  | OnHandler error => ∀ e, _errorHandler (subject r) error ≠ Throws e
  end.

Abbreviation reactionIds s := (idents (subject <$> reactions s)).

(** [x] is the record whose callback chain is running, if any: it is in
    [_actionsExecuting] and has no reaction registered.  Between two
    transitions there is none. *)
Definition tickInHand (x : option (Action * Callback)) : nat :=
  match x with
  | Some (_, TickCallback) => 1
  | _ => 0
  end.

Definition notInHand (x : option (Action * Callback)) (id : nat) : Prop :=
  match x with
  | Some (a, _) => id ≠ ident a
  | None => True
  end.

Record InvX (x : option (Action * Callback)) (s : State) : Prop := {
  inv_timers :
    length (timers s) + length (filter isTick (reactions s)) + tickInHand x ≤ 1;
  inv_timeout : ∀ h d, (h, d) ∈ timers s → _timeout s = Some h;
  inv_fifo :
    startedIn (log s) ++ idents (_actionsToProcess s) = enqueuedIn (log s);
  inv_created : enqueuedIn (log s) = seq 0 (actionsCreated s);
  inv_nodup : NoDup (idents (_actionsExecuting s));
  inv_started : ∀ id, id ∈ idents (_actionsExecuting s) → id ∈ startedIn (log s);
  inv_reactions :
    ∀ id, id ∈ reactionIds s ↔ id ∈ idents (_actionsExecuting s) ∧ notInHand x id;
  inv_inHand : ∀ a cb, x = Some (a, cb) → ident a ∈ idents (_actionsExecuting s);
  inv_wellFormed : Forall wellFormed (reactions s);
  inv_disposals : disposals s = [] ∨ _isDisposed s = true;
  inv_uncaught : uncaught s = []
}.

Abbreviation Inv := (InvX None).

Record quiet (s s' : State) : Prop := {
  q_config : config s' = config s;
  q_queue : _actionsToProcess s' = _actionsToProcess s;
  q_disposed : _isDisposed s' = _isDisposed s;
  q_disposals : disposals s' = disposals s;
  q_created : actionsCreated s' = actionsCreated s;
  q_uncaught : uncaught s' = uncaught s;
  q_enqueued : enqueuedIn (log s') = enqueuedIn (log s);
  q_timers : _isDisposed s = true → timers s' = timers s;
  q_completed : ∀ id, id ∈ completedIn (log s) → id ∈ completedIn (log s');
  q_executing :
    ∀ id, id ∈ idents (_actionsExecuting s) →
          id ∈ idents (_actionsExecuting s') ∨ id ∈ completedIn (log s');
  q_no_new :
    ∀ id, id ∈ idents (_actionsExecuting s') → id ∈ idents (_actionsExecuting s)
}.

(** Once the processor is disposed and no timer is armed, a transition
    starts nothing, leaves the queue as it is, and a [dispose] promise
    resolves only when nothing is executing. *)
Record afterDisposal (s s' : State) : Prop := {
  ad_disposed : _isDisposed s' = true;
  ad_timers : timers s' = [];
  ad_queue : _actionsToProcess s' = _actionsToProcess s;
  ad_started : startedIn (log s') = startedIn (log s);
  ad_completed : ∀ id, id ∈ completedIn (log s) → id ∈ completedIn (log s');
  ad_executing :
    ∀ id, id ∈ idents (_actionsExecuting s) →
          id ∈ idents (_actionsExecuting s') ∨ id ∈ completedIn (log s');
  ad_no_new :
    ∀ id, id ∈ idents (_actionsExecuting s') → id ∈ idents (_actionsExecuting s);
  ad_length : length (disposals s) ≤ length (disposals s');
  ad_finished :
    ∀ d, disposals s !! d = Some Finished → disposals s' !! d = Some Finished;
  ad_waiting :
    ∀ d, disposals s !! d = Some Waiting →
         disposals s' !! d = Some Waiting ∨ disposals s' !! d = Some Finished;
  ad_resolves :
    ∀ d, d < length (disposals s) → disposals s' !! d = Some Finished →
         disposals s !! d = Some Finished ∨ _actionsExecuting s' = []
}.

(** The settlements a record goes through once it has been started, and the
    entries it leaves in the log. *)
Definition settlements (a : Action) : list Event :=
  match _action a with
  | Resolves => [Settles (ident a)]
  | Throws e =>
      match _errorHandler a e with
      | Throws _ => []
      | _ => [Settles (ident a)]
      end
  | Rejects e =>
      match _errorHandler a e with
      | Throws _ => [Settles (ident a)]
      | _ => [Settles (ident a); Settles (ident a)]
      end
  end.

Definition entries (a : Action) : list Entry :=
  [Started (ident a)]
  ++ match _action a with
     | Resolves => []
     | Throws e | Rejects e =>
         Handled (ident a) e
         :: match _errorHandler a e with
            | Resolves => []
            | Throws e2 | Rejects e2 => [ConsoleError e2]
            end
     end
  ++ [Completed (ident a)].

Definition weight (r : Reaction) : nat :=
  match awaiting r with
  | OnAction => 2
  | OnHandler _ => 1
  end.

Definition pendingWork (s : State) : nat := sum_list_with weight (reactions s).

Definition quietly : Err → Behaviour := fun _ => Resolves.

Definition afterRun (evs : list Event) : State :=
  default (constructed quietly 0 true) (run (constructed quietly 0 true) evs).

(** Three records: one that succeeds, one that throws and whose handler's
    promise rejects, one whose promise rejects and whose handler throws. *)
Definition threeActions : list Event :=
  [Enqueue (Some Resolves) None;
   Enqueue (Some (Throws "a")) (Some (fun _ => Rejects "h"));
   Enqueue (Some (Rejects "r")) (Some (fun _ => Throws "t"))].

(** ** Further invariants and measures *)

(** The delay [_initiateBackgroundProcessing] would choose in this state. *)
Definition nextDelay (s : State) : Z :=
  if _breakOnlyWhenNoWork (config s) && (0 <? length (_actionsToProcess s))
  then 0%Z
  else _breakIntervalMilliseconds (config s).

(** The armed timers once [postExecute] has run with callback [cb]. *)
Definition timersAfter (cb : Callback) (s : State) : list (nat * Z) :=
  match cb with
  | TickCallback =>
      if _isDisposed s then timers s
      else timers s ++ [(timersCreated s, nextDelay s)]
  | DisposeCallback => timers s
  end.

(** How a callback chain of record [a] leaves the processor: the record is
    parked on a promise, or it has completed. *)
Inductive Outcome (a : Action) (cb : Callback) (s s' : State) : Prop :=
| Parked w :
    reactions s'
    = reactions s ++ [{| subject := a; awaiting := w; postExecuteCallback := cb |}] →
    timers s' = timers s →
    _actionsExecuting s' = _actionsExecuting s →
    completedIn (log s') = completedIn (log s) →
    Outcome a cb s s'
| Over :
    reactions s' = reactions s →
    timers s' = timersAfter cb s →
    _actionsExecuting s' = remove a (_actionsExecuting s) →
    completedIn (log s') = completedIn (log s) ++ [ident a] →
    Outcome a cb s s'.

(** What the scheduling loop keeps true: until disposal exactly one timer
    is armed or exactly one record started by the timer callback is waiting;
    after disposal no timer is armed; a timer waits as the policy says; no
    promise of [dispose] is rejected. *)
Record Live (s : State) : Prop := {
  live_loop :
    _isDisposed s = false →
    length (timers s) + length (reactions s) = 1 ∧ Forall isTick (reactions s);
  live_off : _isDisposed s = true → timers s = [];
  live_delay :
    ∀ h d, (h, d) ∈ timers s →
      d = _breakIntervalMilliseconds (config s)
      ∨ (d = 0%Z ∧ _breakOnlyWhenNoWork (config s) = true
         ∧ _actionsToProcess s ≠ []);
  live_promises : ∀ d e, disposals s !! d ≠ Some (Failed e)
}.

(** The started records are the completed ones and those executing. *)
Definition Lifecycle (s : State) : Prop :=
  startedIn (log s) ≡ₚ completedIn (log s) ++ idents (_actionsExecuting s).

(** Only the host acts: timers fire and promises settle. *)
Definition hostOnly (evs : list Event) : Prop :=
  Forall (fun ev => match ev with Tick _ | Settles _ => True | _ => False end) evs.

(** What is left to do: three units for a queued record, and the pending
    work of the records that are executing. *)
Definition remainingWork (s : State) : nat :=
  3 * length (_actionsToProcess s) + pendingWork s.

End BackgroundProcessor.

(* ===================================================================== *)
(** * Version *)
(* ===================================================================== *)

Module Version.

(** The three fields of a [Version], as the constructor has stored them; the
    numbers are integers here.  The constructor itself parses its argument
    with [TypeHelper.parseNumber] and is not embedded. *)
Record Version := { _major : Z; _minor : Z; _patch : Z }.

Definition equals (this version : Version) : bool :=
  (_major version =? _major this)%Z
  && (_minor version =? _minor this)%Z
  && (_patch version =? _patch this)%Z.

Definition compare (v1 v2 : Z) : Z :=
  if (v2 <? v1)%Z then 1%Z
  else if (v1 <? v2)%Z then (-1)%Z
  else 0%Z.

Definition compareTo (this version : Version) : Z :=
  let majorCompare := compare (_major this) (_major version) in
  if negb (majorCompare =? 0)%Z then majorCompare
  else
    let minorCompare := compare (_minor this) (_minor version) in
    if negb (minorCompare =? 0)%Z then minorCompare
    else compare (_patch this) (_patch version).

End Version.

(* ===================================================================== *)
(** * Properties of debounce *)
(* ===================================================================== *)

Module DebounceProps.
Import Debounce.

Lemma append_cancel (p a b : string) : p +:+ a = p +:+ b → a = b.
Proof.
  induction p as [|c p IH]; simpl; intros H; [exact H|].
  injection H as H. auto.
Qed.

Lemma keys_differ (g : Guard) : activeKey g ≠ scheduledCallKey g.
Proof.
  unfold activeKey, scheduledCallKey.
  destruct (descriptorBased g); intros H;
    apply append_cancel in H; apply append_cancel in H; discriminate H.
Qed.

Lemma get_insert_eq (o : gmap string Value) k v : get (<[k := v]> o) k = v.
Proof. unfold get. by rewrite lookup_insert_eq. Qed.

Lemma get_insert_ne (o : gmap string Value) k k' v :
  k ≠ k' → get (<[k := v]> o) k' = get o k'.
Proof. intros H. unfold get. by rewrite lookup_insert_ne. Qed.

Lemma get_active_sched (o : gmap string Value) g v :
  get (<[scheduledCallKey g := v]> o) (activeKey g) = get o (activeKey g).
Proof. apply get_insert_ne. intros H. by apply (keys_differ g). Qed.

Lemma get_sched_active (o : gmap string Value) g v :
  get (<[activeKey g := v]> o) (scheduledCallKey g) = get o (scheduledCallKey g).
Proof. apply get_insert_ne. apply keys_differ. Qed.

Ltac gets :=
  repeat first
    [ rewrite get_insert_eq
    | rewrite get_active_sched
    | rewrite get_sched_active ].

Lemma pcOf_single r0 r s :
  runners s = [r0] → pcOf r s = if decide (rid r0 = r) then Some (pc r0) else None.
Proof.
  intros H. unfold pcOf. rewrite H. simpl.
  rewrite filter_cons, filter_nil. by destruct (decide (rid r0 = r)).
Qed.

Lemma pcOf_none r s : runners s = [] → pcOf r s = None.
Proof. intros H. unfold pcOf. by rewrite H. Qed.

Lemma wake_single r0 s : runners s = [r0] → runners (wake (rid r0) s) = [].
Proof.
  intros H. simpl. rewrite H, filter_cons, filter_nil.
  by destruct (decide (rid r0 ≠ rid r0)).
Qed.

Lemma wf_init g o : untouched g o → wf g (init o).
Proof.
  intros [Ha _]. left. split; [done|].
  unfold isActive, get. simpl. by rewrite Ha.
Qed.

Lemma capture_wf g r s :
  runners s = [] → isActive g s = true → promises s !! r = Some Pending →
  wf g (capture g r s).
Proof.
  intros Hr Ha Hp. unfold capture.
  destruct (get (this s) (scheduledCallKey g)) eqn:Hc.
  1-3: left; split; [done|]; unfold isActive; simpl; by gets.
  right. eexists. split; [simpl; by rewrite Hr|].
  split; [unfold isActive in *; simpl; by gets|done].
Qed.

Lemma loop_wf g r s :
  runners s = [] → isActive g s = false → promises s !! r = Some Pending →
  wf g (loop g r s).
Proof.
  intros Hr Ha Hp. unfold loop.
  destruct (notNull _ && negb _) eqn:Hc.
  - destruct (delay g).
    + right. eexists. split; [simpl; by rewrite Hr|].
      split; [unfold isActive; simpl; by gets|done].
    + apply capture_wf; [done| |done]. unfold isActive; simpl; by gets.
  - left. by split.
Qed.

Lemma step_wf g s ev s' : wf g s → step g s ev = Some s' → wf g s'.
Proof.
  intros Hwf Hstep. destruct ev as [args|r|r failure]; simpl in Hstep.
  - injection Hstep as <-. unfold replacementMethod. cbn [this setProp].
    rewrite get_active_sched.
    destruct Hwf as [[Hr Ha]|(r0 & Hr & Ha & Hp)]; unfold isActive in Ha; rewrite Ha.
    + apply loop_wf; [done|unfold isActive; simpl; by gets|].
      simpl. by rewrite lookup_app_r, Nat.sub_diag.
    + right. exists r0. split; [done|]. split; [unfold isActive; simpl; by gets|].
      simpl. pose proof (lookup_lt_Some _ _ _ Hp).
      rewrite list_lookup_insert_ne by lia. by rewrite lookup_app_l.
  - destruct Hwf as [[Hr Ha]|(r0 & Hr & Ha & Hp)].
    { by rewrite (pcOf_none _ _ Hr) in Hstep. }
    rewrite (pcOf_single _ _ _ Hr) in Hstep.
    destruct (decide (rid r0 = r)) as [<-|]; [|done].
    destruct (pc r0); [|done]. injection Hstep as <-.
    apply capture_wf; [by apply wake_single|done|done].
  - destruct Hwf as [[Hr Ha]|(r0 & Hr & Ha & Hp)].
    { by rewrite (pcOf_none _ _ Hr) in Hstep. }
    rewrite (pcOf_single _ _ _ Hr) in Hstep.
    destruct (decide (rid r0 = r)) as [<-|]; [|done].
    destruct (pc r0); [done|].
    destruct failure as [e|]; injection Hstep as <-.
    + left. split; [by apply wake_single|]. unfold isActive. simpl. by gets.
    + apply loop_wf; [by apply wake_single|unfold isActive; simpl; by gets|done].
Qed.

Lemma run_wf g evs : ∀ s s', wf g s → run g s evs = Some s' → wf g s'.
Proof.
  induction evs as [|ev evs IH]; simpl; intros s s' Hwf Hrun.
  - by injection Hrun as <-.
  - destruct (step g s ev) eqn:Hs; [|done]. eauto using step_wf.
Qed.

Lemma reachable_wf g s : reachable g s → wf g s.
Proof. intros (o & evs & Ho & Hrun). eauto using run_wf, wf_init. Qed.

Lemma run_app g evs1 : ∀ evs2 s,
  run g s (evs1 ++ evs2) = match run g s evs1 with
                           | Some s1 => run g s1 evs2
                           | None => None
                           end.
Proof.
  induction evs1 as [|ev evs1 IH]; simpl; intros evs2 s; [done|].
  destruct (step g s ev); [apply IH|done].
Qed.

Lemma reachable_run g s evs s' : reachable g s → run g s evs = Some s' → reachable g s'.
Proof.
  intros (o & evs0 & Ho & Hrun) H. exists o, (evs0 ++ evs).
  split; [done|]. by rewrite run_app, Hrun.
Qed.

(** A call made while the flag is on: the slot is overwritten, the caller's
    promise resolves, nothing else changes. *)
Lemma invoke_active g args s :
  isActive g s = true →
  replacementMethod g args s =
    {| this := <[scheduledCallKey g := VClosure args]> (this s);
       runners := runners s;
       promises := <[length (promises s) := Resolved]> (promises s ++ [Pending]);
       executions := executions s |}.
Proof.
  intros Ha. unfold replacementMethod. cbn [this setProp].
  rewrite get_active_sched. unfold isActive in Ha. by rewrite Ha.
Qed.

(** A call made while the flag is off enters the loop: the flag goes on and
    the caller's own activation is the one that is suspended. *)
Lemma invoke_idle g args s :
  isActive g s = false → runners s = [] →
  let s' := replacementMethod g args s in
  isActive g s' = true
  ∧ promises s' = promises s ++ [Pending]
  ∧ match delay g with
    | Some _ =>
        runners s' = [{| rid := length (promises s); pc := AwaitDelay |}]
        ∧ executions s' = executions s
        ∧ pendingCall g s' = VClosure args
    | None =>
        runners s' = [{| rid := length (promises s); pc := AwaitCall args |}]
        ∧ executions s' = executions s ++ [args]
        ∧ pendingCall g s' = VNull
    end.
Proof.
  intros Ha Hr. unfold replacementMethod. cbn [this setProp].
  rewrite get_active_sched. unfold isActive in Ha. rewrite Ha. cbn [truthy].
  unfold loop. cbn [this setProp]. gets. rewrite Ha. cbn.
  destruct (delay g); unfold capture, isActive, pendingCall; cbn; gets; cbn;
    rewrite Hr; by gets.
Qed.

Lemma invokes_active g calls : ∀ s,
  isActive g s = true →
  ∃ s1, run g s (Invoke <$> calls) = Some s1
        ∧ isActive g s1 = true
        ∧ runners s1 = runners s
        ∧ executions s1 = executions s
        ∧ (∀ l, last calls = Some l → pendingCall g s1 = VClosure l)
        ∧ (calls = [] → s1 = s).
Proof.
  induction calls as [|a calls IH]; intros s Ha.
  - exists s. by repeat split.
  - cbn [fmap list_fmap run step]. rewrite (invoke_active _ _ _ Ha).
    set (s0 := {| this := _ |}).
    assert (isActive g s0 = true) as Ha0.
    { unfold isActive in *. subst s0. cbn. by gets. }
    destruct (IH s0 Ha0) as (s1 & Hrun & Ha1 & Hr1 & He1 & Hl1 & Hnil).
    exists s1. split; [exact Hrun|]. repeat split; [done|done|done| |done].
    intros l Hl. destruct calls as [|b calls].
    + injection Hl as <-. rewrite (Hnil eq_refl).
      unfold pendingCall. subst s0. cbn. by gets.
    + apply Hl1. exact Hl.
Qed.

(** With nothing suspended and no call arriving, nothing can happen. *)
Lemma quiescent g s evs s' :
  runners s = [] → noInvoke evs → run g s evs = Some s' → s' = s.
Proof.
  intros Hr Hn Hrun. destruct evs as [|ev evs]; cbn in Hrun; [by injection Hrun|].
  apply Forall_cons in Hn as [Hev _].
  destruct ev; [done| |]; cbn in Hrun; by rewrite (pcOf_none _ _ Hr) in Hrun.
Qed.

Lemma wake_runner r p s :
  runners s = [{| rid := r; pc := p |}] →
  wake r s = {| this := this s; runners := []; promises := promises s;
                executions := executions s |}.
Proof.
  intros H. unfold wake. rewrite H, filter_cons, filter_nil. cbn.
  by destruct (decide (r ≠ r)).
Qed.

Lemma pcOf_runner r p s : runners s = [{| rid := r; pc := p |}] → pcOf r s = Some p.
Proof.
  intros H. rewrite (pcOf_single _ _ _ H). cbn. by destruct (decide (r = r)).
Qed.

(** A successful execution ends while a call is pending: the flag is cleared,
    the [while] test succeeds and, once the settle delay (if any) has passed,
    the pending call is started. *)
Lemma next_run g s r a l :
  runners s = [{| rid := r; pc := AwaitCall a |}] →
  pendingCall g s = VClosure l →
  ∃ s2, run g s (TargetSettles r None :: settleDelay g r) = Some s2
        ∧ runners s2 = [{| rid := r; pc := AwaitCall l |}]
        ∧ executions s2 = executions s ++ [l]
        ∧ isActive g s2 = true
        ∧ pendingCall g s2 = VNull.
Proof.
  intros Hr Hp. unfold pendingCall in Hp.
  cbn [run step]. rewrite (pcOf_runner _ _ _ Hr), (wake_runner _ _ _ Hr).
  unfold loop. cbn [this setProp]. gets. rewrite Hp. cbn [notNull truthy negb andb].
  unfold settleDelay. destruct (delay g) as [ms|].
  - cbn [run step]. erewrite pcOf_runner by reflexivity.
    erewrite wake_runner by reflexivity.
    unfold capture. cbn [this setProp suspend]. gets. rewrite Hp.
    eexists. split; [reflexivity|].
    unfold isActive, pendingCall. cbn. by gets.
  - unfold capture. cbn [this setProp]. gets. rewrite Hp.
    eexists. split; [reflexivity|].
    unfold isActive, pendingCall. cbn. by gets.
Qed.

(** A successful execution ends while nothing is pending: the loop ends, the
    activation returns and the guard is idle. *)
Lemma last_run g s r a :
  runners s = [{| rid := r; pc := AwaitCall a |}] →
  pendingCall g s = VNull →
  ∃ s3, run g s [TargetSettles r None] = Some s3
        ∧ runners s3 = []
        ∧ executions s3 = executions s
        ∧ isActive g s3 = false
        ∧ pendingCall g s3 = VNull.
Proof.
  intros Hr Hp. unfold pendingCall in Hp.
  cbn [run step]. rewrite (pcOf_runner _ _ _ Hr), (wake_runner _ _ _ Hr).
  unfold loop. cbn [this setProp]. gets. rewrite Hp. cbn [notNull andb].
  eexists. split; [reflexivity|].
  unfold isActive, pendingCall. cbn. by gets.
Qed.

(** The settle delay passes while a call is pending: the pending call is
    captured and started. *)
Lemma delayed_run g s r l :
  runners s = [{| rid := r; pc := AwaitDelay |}] →
  isActive g s = true →
  pendingCall g s = VClosure l →
  ∃ s2, run g s [DelayElapsed r] = Some s2
        ∧ runners s2 = [{| rid := r; pc := AwaitCall l |}]
        ∧ executions s2 = executions s ++ [l]
        ∧ isActive g s2 = true
        ∧ pendingCall g s2 = VNull.
Proof.
  intros Hr Ha Hp. unfold pendingCall in Hp. unfold isActive in Ha.
  cbn [run step]. rewrite (pcOf_runner _ _ _ Hr), (wake_runner _ _ _ Hr).
  unfold capture. cbn [this setProp]. rewrite Hp.
  eexists. split; [reflexivity|].
  unfold isActive, pendingCall. cbn. by gets.
Qed.

(** C1 (as amended): N >= 1 calls made while the wrapped method is executing
    start nothing; when that execution completes successfully, exactly one
    further execution follows (after the settle delay, when one is
    configured), with the arguments of the last of the N calls; when that
    execution in turn completes the guard is idle and nothing more has run,
    so the earlier calls' arguments are never executed.  N >= 1 calls made
    while the run is waiting out its settle delay start nothing either: when
    the delay has passed, the run itself executes the arguments of the last
    of them, and no further execution follows it. *)
Theorem coalesces_calls_made_during_execution g s r calls l :
  reachable g s →
  last calls = Some l →
  (∀ a, runners s = [{| rid := r; pc := AwaitCall a |}] →
     ∃ s1 s2 s3,
       run g s (Invoke <$> calls) = Some s1
       ∧ executions s1 = executions s
       ∧ inFlight s1 = [a]
       ∧ run g s1 (TargetSettles r None :: settleDelay g r) = Some s2
       ∧ executions s2 = executions s ++ [l]
       ∧ inFlight s2 = [l]
       ∧ run g s2 [TargetSettles r None] = Some s3
       ∧ executions s3 = executions s ++ [l]
       ∧ runners s3 = []
       ∧ isActive g s3 = false
       ∧ ∀ evs s4, noInvoke evs → run g s3 evs = Some s4 → s4 = s3)
  ∧ (runners s = [{| rid := r; pc := AwaitDelay |}] →
     ∃ s1 s2 s3,
       run g s (Invoke <$> calls) = Some s1
       ∧ executions s1 = executions s
       ∧ inFlight s1 = []
       ∧ run g s1 [DelayElapsed r] = Some s2
       ∧ executions s2 = executions s ++ [l]
       ∧ inFlight s2 = [l]
       ∧ run g s2 [TargetSettles r None] = Some s3
       ∧ executions s3 = executions s ++ [l]
       ∧ runners s3 = []
       ∧ isActive g s3 = false
       ∧ ∀ evs s4, noInvoke evs → run g s3 evs = Some s4 → s4 = s3).
Proof.
  intros Hreach Hl.
  assert (∀ p, runners s = [{| rid := r; pc := p |}] → isActive g s = true) as Hact.
  { intros p Hr.
    destruct (reachable_wf _ _ Hreach) as [[H _]|(? & _ & H & _)]; [|done].
    by rewrite Hr in H. }
  split.
  - intros a Hr. pose proof (Hact _ Hr) as Ha.
    destruct (invokes_active g calls s Ha)
      as (s1 & Hrun1 & Ha1 & Hr1 & He1 & Hp1 & _).
    rewrite Hr in Hr1.
    destruct (next_run g s1 r a l Hr1 (Hp1 l Hl))
      as (s2 & Hrun2 & Hr2 & He2 & Ha2 & Hp2).
    destruct (last_run g s2 r l Hr2 Hp2) as (s3 & Hrun3 & Hr3 & He3 & Ha3 & _).
    exists s1, s2, s3. repeat split; try done.
    + unfold inFlight. by rewrite Hr1.
    + by rewrite He2, He1.
    + unfold inFlight. by rewrite Hr2.
    + by rewrite He3, He2, He1.
    + intros evs s4. by apply quiescent.
  - intros Hr. pose proof (Hact _ Hr) as Ha.
    destruct (invokes_active g calls s Ha)
      as (s1 & Hrun1 & Ha1 & Hr1 & He1 & Hp1 & _).
    rewrite Hr in Hr1.
    destruct (delayed_run g s1 r l Hr1 Ha1 (Hp1 l Hl))
      as (s2 & Hrun2 & Hr2 & He2 & Ha2 & Hp2).
    destruct (last_run g s2 r l Hr2 Hp2) as (s3 & Hrun3 & Hr3 & He3 & Ha3 & _).
    exists s1, s2, s3. repeat split; try done.
    + unfold inFlight. by rewrite Hr1.
    + by rewrite He2, He1.
    + unfold inFlight. by rewrite Hr2.
    + by rewrite He3, He2, He1.
    + intros evs s4. by apply quiescent.
Qed.

Lemma reachable_after g evs :
  (if run g (init ∅) evs is Some _ then true else false) = true →
  reachable g (after g evs).
Proof.
  intros H. exists ∅, evs. split; [by split|].
  unfold after. by destruct (run g (init ∅) evs).
Qed.

Lemma coalesces_calls_made_during_execution_witness :
  (∃ s1 s2 s3,
    run delayed (after delayed [Invoke [1%Z]; DelayElapsed 0])
        (Invoke <$> [[2%Z]; [3%Z]]) = Some s1
    ∧ executions s1 = executions (after delayed [Invoke [1%Z]; DelayElapsed 0])
    ∧ inFlight s1 = [[1%Z]]
    ∧ run delayed s1 (TargetSettles 0 None :: settleDelay delayed 0) = Some s2
    ∧ executions s2
      = executions (after delayed [Invoke [1%Z]; DelayElapsed 0]) ++ [[3%Z]]
    ∧ inFlight s2 = [[3%Z]]
    ∧ run delayed s2 [TargetSettles 0 None] = Some s3
    ∧ executions s3
      = executions (after delayed [Invoke [1%Z]; DelayElapsed 0]) ++ [[3%Z]]
    ∧ runners s3 = []
    ∧ isActive delayed s3 = false
    ∧ ∀ evs s4, noInvoke evs → run delayed s3 evs = Some s4 → s4 = s3)
  ∧ (∃ s1 s2 s3,
    run delayed (after delayed [Invoke [1%Z]])
        (Invoke <$> [[2%Z]; [3%Z]]) = Some s1
    ∧ executions s1 = executions (after delayed [Invoke [1%Z]])
    ∧ inFlight s1 = []
    ∧ run delayed s1 [DelayElapsed 0] = Some s2
    ∧ executions s2 = executions (after delayed [Invoke [1%Z]]) ++ [[3%Z]]
    ∧ inFlight s2 = [[3%Z]]
    ∧ run delayed s2 [TargetSettles 0 None] = Some s3
    ∧ executions s3 = executions (after delayed [Invoke [1%Z]]) ++ [[3%Z]]
    ∧ runners s3 = []
    ∧ isActive delayed s3 = false
    ∧ ∀ evs s4, noInvoke evs → run delayed s3 evs = Some s4 → s4 = s3).
Proof.
  split.
  - apply (coalesces_calls_made_during_execution
             delayed (after delayed [Invoke [1%Z]; DelayElapsed 0]) 0
             [[2%Z]; [3%Z]] [3%Z]).
    + apply reachable_after. vm_compute. reflexivity.
    + reflexivity.
    + vm_compute. reflexivity.
  - apply (coalesces_calls_made_during_execution
             delayed (after delayed [Invoke [1%Z]]) 0 [[2%Z]; [3%Z]] [3%Z]).
    + apply reachable_after. vm_compute. reflexivity.
    + reflexivity.
    + vm_compute. reflexivity.
Defined.

Lemma no_more_executions g s (l : Args) :
  runners s = [] →
  ¬ ∃ evs s3, noInvoke evs ∧ run g s evs = Some s3
              ∧ executions s3 = executions s ++ [l].
Proof.
  intros Hr (evs & s3 & Hn & Hrun & He).
  rewrite (quiescent _ _ _ _ Hr Hn Hrun) in He.
  apply (f_equal length) in He. rewrite length_app in He. cbn in He. lia.
Qed.

(** C1 (as first stated) fails.  With a 50ms delay: the first call starts the
    run, which is waiting out the delay when the call with [2] arrives; the
    run then executes [2] and completes, and no execution follows it.  With
    no delay: the call with [2] arrives while [1] is executing, that execution
    fails, and [2] is never executed. *)
Lemma calls_in_a_run_need_not_cause_one_more_execution :
  ¬ oneMoreRunWithLastArgs delayed
      [Invoke [1%Z]] [[2%Z]] [DelayElapsed 0; TargetSettles 0 None]
  ∧ ¬ oneMoreRunWithLastArgs immediate
      [Invoke [1%Z]] [[2%Z]] [TargetSettles 0 (Some "boom")].
Proof.
  split.
  - intros (s0 & s1 & s2 & l & H0 & _ & H1 & _ & _ & H2 & Hmore).
    assert (run delayed (init ∅)
              ([Invoke [1%Z]] ++ (Invoke <$> [[2%Z]])
               ++ [DelayElapsed 0; TargetSettles 0 None]) = Some s2) as Hrun.
    { rewrite run_app, H0, run_app, H1. exact H2. }
    assert (runners s2 = []) as Hr.
    { apply (f_equal (fmap runners)) in Hrun. vm_compute in Hrun.
      by injection Hrun. }
    exact (no_more_executions _ _ _ Hr Hmore).
  - intros (s0 & s1 & s2 & l & H0 & _ & H1 & _ & _ & H2 & Hmore).
    assert (run immediate (init ∅)
              ([Invoke [1%Z]] ++ (Invoke <$> [[2%Z]])
               ++ [TargetSettles 0 (Some "boom")]) = Some s2) as Hrun.
    { rewrite run_app, H0, run_app, H1. exact H2. }
    assert (runners s2 = []) as Hr.
    { apply (f_equal (fmap runners)) in Hrun. vm_compute in Hrun.
      by injection Hrun. }
    exact (no_more_executions _ _ _ Hr Hmore).
Qed.

(** The two scenarios, evaluated: what was executed, in order. *)
Example delayed_scenario :
  executions (after delayed [Invoke [1%Z]; Invoke [2%Z]; DelayElapsed 0;
                            TargetSettles 0 None]) = [[2%Z]].
Proof. vm_compute. reflexivity. Qed.

Example failing_scenario :
  let s := after immediate [Invoke [1%Z]; Invoke [2%Z];
                            TargetSettles 0 (Some "boom")] in
  executions s = [[1%Z]] ∧ pendingCall immediate s = VClosure [2%Z]
  ∧ isActive immediate s = false ∧ runners s = [].
Proof. vm_compute. repeat split; reflexivity. Qed.

(** C2: in every reachable state at most one execution of the wrapped method
    is in flight.  A call that arrives while the flag is on (during the settle
    delay or during an execution) overwrites the pending call and changes
    neither the suspended activations nor what has been executed; a call that
    arrives while the flag is off finds nothing in flight and starts the run
    loop in its own activation. *)
Theorem at_most_one_execution_in_flight g s :
  reachable g s →
  (length (inFlight s) ≤ 1)%nat
  ∧ ∀ args,
      let s' := replacementMethod g args s in
      (isActive g s = true →
         this s' = <[scheduledCallKey g := VClosure args]> (this s)
         ∧ pendingCall g s' = VClosure args
         ∧ runners s' = runners s
         ∧ inFlight s' = inFlight s
         ∧ executions s' = executions s)
      ∧ (isActive g s = false →
         inFlight s = []
         ∧ isActive g s' = true
         ∧ ∃ p, runners s' = [{| rid := length (promises s); pc := p |}]).
Proof.
  intros Hreach. pose proof (reachable_wf _ _ Hreach) as Hwf. split.
  - unfold inFlight.
    destruct Hwf as [[Hr _]|(r & Hr & _)]; rewrite Hr; cbn; [lia|].
    destruct (pc r); cbn; lia.
  - intros args s'. subst s'. split; intros Ha.
    + rewrite (invoke_active _ _ _ Ha). unfold pendingCall, inFlight. cbn.
      by gets.
    + destruct Hwf as [[Hr _]|(r & _ & Ha' & _)]; [|congruence].
      pose proof (invoke_idle g args s Ha Hr) as (Ha' & _ & H).
      split; [unfold inFlight; by rewrite Hr|]. split; [done|].
      destruct (delay g); destruct H as (H & _); eauto.
Qed.

Lemma at_most_one_execution_in_flight_witness :
  let s := after delayed [Invoke [1%Z]; Invoke [2%Z]; DelayElapsed 0] in
  (length (inFlight s) ≤ 1)%nat
  ∧ ∀ args,
      let s' := replacementMethod delayed args s in
      (isActive delayed s = true →
         this s' = <[scheduledCallKey delayed := VClosure args]> (this s)
         ∧ pendingCall delayed s' = VClosure args
         ∧ runners s' = runners s
         ∧ inFlight s' = inFlight s
         ∧ executions s' = executions s)
      ∧ (isActive delayed s = false →
         inFlight s = []
         ∧ isActive delayed s' = true
         ∧ ∃ p, runners s' = [{| rid := length (promises s); pc := p |}]).
Proof.
  apply (at_most_one_execution_in_flight delayed).
  apply reachable_after. vm_compute. reflexivity.
Defined.

(** C6 (as first stated) fails: the call with [2] is recorded while [1] is
    executing; that execution fails; the flag is cleared, but the loop is left
    by the failure and [2] is not executed. *)
Lemma pending_call_is_not_run_after_a_failure :
  ¬ pendingCallRunsAfterFailure immediate [Invoke [1%Z]; Invoke [2%Z]] 0 "boom".
Proof.
  intros (s & s' & l & H0 & _ & H1 & _ & Hmore).
  assert (run immediate (init ∅)
            ([Invoke [1%Z]; Invoke [2%Z]] ++ [TargetSettles 0 (Some "boom")])
          = Some s') as Hrun.
  { rewrite run_app, H0. cbn [run]. by rewrite H1. }
  assert (runners s' = []) as Hr.
  { apply (f_equal (fmap runners)) in Hrun. vm_compute in Hrun.
    by injection Hrun. }
  exact (no_more_executions _ _ _ Hr Hmore).
Qed.

(** C6 (as amended): when the awaited execution fails, the flag is cleared
    and nothing stays suspended or in flight; the failure ends the loop
    without a new test of the pending call, which stays in its slot: nothing
    is executed until another call arrives, and that call starts a new run
    loop (the guard is not stuck). *)
Theorem failing_run_clears_the_flag_and_ends_the_loop g s r e s' :
  reachable g s →
  step g s (TargetSettles r (Some e)) = Some s' →
  isActive g s' = false
  ∧ runners s' = []
  ∧ inFlight s' = []
  ∧ pendingCall g s' = pendingCall g s
  ∧ executions s' = executions s
  ∧ (∀ evs s'', noInvoke evs → run g s' evs = Some s'' → s'' = s')
  ∧ ∀ args, isActive g (replacementMethod g args s') = true
            ∧ ∃ p, runners (replacementMethod g args s')
                   = [{| rid := length (promises s'); pc := p |}].
Proof.
  intros Hreach Hstep. pose proof (reachable_wf _ _ Hreach) as Hwf.
  cbn [step] in Hstep.
  destruct Hwf as [[Hr _]|(r0 & Hr & Ha & Hp)].
  { by rewrite (pcOf_none _ _ Hr) in Hstep. }
  rewrite (pcOf_single _ _ _ Hr) in Hstep.
  destruct (decide (rid r0 = r)) as [<-|]; [|done].
  destruct r0 as [r p]. cbn in Hstep. destruct p as [|a0]; [done|].
  injection Hstep as <-. rewrite (wake_runner _ _ _ Hr).
  assert (∀ x, isActive g (settle r (Rejected e)
            (setProp (activeKey g) (VBool false) x)) = false) as Hoff.
  { intros x. unfold isActive. cbn. by gets. }
  split; [apply Hoff|]. split; [done|]. split; [done|].
  split; [unfold pendingCall; cbn; by gets|]. split; [done|].
  split; [intros evs s''; by apply quiescent|].
  intros args.
  set (x := {| this := this s; runners := []; promises := promises s;
               executions := executions s |}).
  pose proof (invoke_idle g args _ (Hoff x) eq_refl) as (Ha' & _ & H).
  split; [done|]. destruct (delay g); destruct H as (H & _); eauto.
Qed.

Lemma failing_run_clears_the_flag_and_ends_the_loop_witness :
  let s := after immediate [Invoke [1%Z]; Invoke [2%Z]] in
  let s' := after immediate [Invoke [1%Z]; Invoke [2%Z];
                             TargetSettles 0 (Some "boom")] in
  isActive immediate s' = false
  ∧ runners s' = []
  ∧ inFlight s' = []
  ∧ pendingCall immediate s' = pendingCall immediate s
  ∧ executions s' = executions s
  ∧ (∀ evs s'', noInvoke evs → run immediate s' evs = Some s'' → s'' = s')
  ∧ ∀ args, isActive immediate (replacementMethod immediate args s') = true
            ∧ ∃ p, runners (replacementMethod immediate args s')
                   = [{| rid := length (promises s'); pc := p |}].
Proof.
  apply (failing_run_clears_the_flag_and_ends_the_loop immediate _ 0 "boom").
  - apply reachable_after. vm_compute. reflexivity.
  - vm_compute. reflexivity.
Defined.

(** Only a pending promise is ever settled. *)
Lemma settle_other (r p : nat) x (s : State) v :
  promises s !! r = Some Pending → promises s !! p = Some v → v ≠ Pending →
  promises (settle r x s) !! p = Some v.
Proof.
  intros Hr Hp Hv. cbn. rewrite list_lookup_insert_ne; [done|]. congruence.
Qed.

Lemma capture_promises g r s p v :
  promises s !! r = Some Pending → promises s !! p = Some v → v ≠ Pending →
  promises (capture g r s) !! p = Some v.
Proof.
  intros Hr Hp Hv. unfold capture.
  destruct (get (this s) (scheduledCallKey g)); try done;
    by apply settle_other.
Qed.

Lemma loop_promises g r s p v :
  promises s !! r = Some Pending → promises s !! p = Some v → v ≠ Pending →
  promises (loop g r s) !! p = Some v.
Proof.
  intros Hr Hp Hv. unfold loop. destruct (_ && _).
  - destruct (delay g); [done|]. by apply capture_promises.
  - by apply settle_other.
Qed.

Lemma step_settled g s ev s' p v :
  wf g s → promises s !! p = Some v → v ≠ Pending →
  step g s ev = Some s' → promises s' !! p = Some v.
Proof.
  intros Hwf Hp Hv Hstep. pose proof (lookup_lt_Some _ _ _ Hp) as Hlt.
  destruct ev as [args|r|r failure]; cbn [step] in Hstep.
  - injection Hstep as <-. unfold replacementMethod. cbn [this setProp].
    destruct (truthy _).
    + cbn. rewrite list_lookup_insert_ne by lia. by rewrite lookup_app_l.
    + apply loop_promises; cbn; [|by rewrite lookup_app_l|done].
      by rewrite lookup_app_r, Nat.sub_diag.
  - destruct Hwf as [[Hr Ha]|(r0 & Hr & Ha & Hp0)].
    { by rewrite (pcOf_none _ _ Hr) in Hstep. }
    rewrite (pcOf_single _ _ _ Hr) in Hstep.
    destruct (decide (rid r0 = r)) as [<-|]; [|done].
    destruct (pc r0); [|done]. injection Hstep as <-.
    by apply capture_promises.
  - destruct Hwf as [[Hr Ha]|(r0 & Hr & Ha & Hp0)].
    { by rewrite (pcOf_none _ _ Hr) in Hstep. }
    rewrite (pcOf_single _ _ _ Hr) in Hstep.
    destruct (decide (rid r0 = r)) as [<-|]; [|done].
    destruct (pc r0); [done|].
    destruct failure as [e|]; injection Hstep as <-.
    + by apply settle_other.
    + by apply loop_promises.
Qed.

Lemma run_settled g evs : ∀ s s' p v,
  wf g s → promises s !! p = Some v → v ≠ Pending →
  run g s evs = Some s' → promises s' !! p = Some v.
Proof.
  induction evs as [|ev evs IH]; cbn; intros s s' p v Hwf Hp Hv Hrun.
  - by injection Hrun as <-.
  - destruct (step g s ev) eqn:Hs; [|done].
    eapply IH; [by eapply step_wf| |done|done]. by eapply step_settled.
Qed.

(** An execution is in flight: its failure is a step the guard takes, and it
    rejects the promise of the suspended activation, and no other. *)
Lemma failing_step g s r a e :
  wf g s → runners s = [{| rid := r; pc := AwaitCall a |}] →
  promises s !! r = Some Pending
  ∧ ∃ s', step g s (TargetSettles r (Some e)) = Some s'
          ∧ promises s' = <[r := Rejected e]> (promises s)
          ∧ promises s' !! r = Some (Rejected e)
          ∧ isActive g s' = false
          ∧ runners s' = [].
Proof.
  intros Hwf Hr.
  assert (promises s !! r = Some Pending) as Hp.
  { destruct Hwf as [[Hr' _]|(r0 & Hr' & _ & Hp)]; [congruence|].
    rewrite Hr in Hr'. by injection Hr' as <-. }
  split; [done|]. cbn [step]. rewrite (pcOf_runner _ _ _ Hr), (wake_runner _ _ _ Hr).
  eexists. split; [reflexivity|]. split; [done|]. split.
  - cbn. apply list_lookup_insert_eq. by eapply lookup_lt_Some.
  - split; [|done]. unfold isActive. cbn. by gets.
Qed.

(** C9: a call that finds the flag off starts the run loop in its own
    activation and gets a pending promise; when the execution it leads to
    fails with [e], that promise is rejected with [e].  In general, whenever
    an execution is in flight it is awaited by one activation, the promise of
    that activation is pending, the failure is a step the guard takes, and it
    rejects that promise and changes no other; no other promise can be
    rejected by a failure.  A call that arrives while the flag is on gets a
    promise that is resolved when the call returns and stays resolved
    whatever happens afterwards. *)
Theorem failure_goes_to_the_caller_that_started_the_loop g s :
  reachable g s →
  (∀ args, isActive g s = false →
     let s' := replacementMethod g args s in
     promises s' !! length (promises s) = Some Pending
     ∧ ∃ p, runners s' = [{| rid := length (promises s); pc := p |}])
  ∧ (∀ args e, isActive g s = false →
       ∃ s', run g s (Invoke args :: settleDelay g (length (promises s))
                      ++ [TargetSettles (length (promises s)) (Some e)])
             = Some s'
             ∧ promises s' !! length (promises s) = Some (Rejected e)
             ∧ executions s' = executions s ++ [args]
             ∧ isActive g s' = false)
  ∧ (∀ r a, runners s = [{| rid := r; pc := AwaitCall a |}] →
       promises s !! r = Some Pending
       ∧ ∀ e, ∃ s', step g s (TargetSettles r (Some e)) = Some s'
                    ∧ promises s' = <[r := Rejected e]> (promises s)
                    ∧ promises s' !! r = Some (Rejected e))
  ∧ (∀ r e s', step g s (TargetSettles r (Some e)) = Some s' →
       (∃ a, runners s = [{| rid := r; pc := AwaitCall a |}])
       ∧ promises s !! r = Some Pending
       ∧ promises s' !! r = Some (Rejected e))
  ∧ (∀ args, isActive g s = true →
       let s' := replacementMethod g args s in
       promises s' !! length (promises s) = Some Resolved
       ∧ ∀ evs s'', run g s' evs = Some s'' →
           promises s'' !! length (promises s) = Some Resolved).
Proof.
  intros Hreach. pose proof (reachable_wf _ _ Hreach) as Hwf.
  split_and!.
  - intros args Ha s'. subst s'.
    destruct Hwf as [[Hr _]|(r & _ & Ha' & _)]; [|congruence].
    pose proof (invoke_idle g args s Ha Hr) as (_ & Hp & H). split.
    + rewrite Hp. by rewrite lookup_app_r, Nat.sub_diag.
    + destruct (delay g); destruct H as (H & _); eauto.
  - intros args e Ha.
    pose proof Hwf as [[Hr _]|(r & _ & Ha' & _)]; [|congruence].
    pose proof (invoke_idle g args s Ha Hr) as (Ha1 & Hp1 & H).
    set (s1 := replacementMethod g args s) in *.
    assert (wf g s1) as Hwf1 by exact (step_wf g s (Invoke args) s1 Hwf eq_refl).
    cbn [run step]. fold s1. unfold settleDelay.
    destruct (delay g) as [ms|]; destruct H as (Hr1 & He1 & Hq1).
    + destruct (delayed_run g s1 _ args Hr1 Ha1 Hq1)
        as (s2 & Hrun2 & Hr2 & He2 & _ & _).
      cbn [run] in Hrun2. cbn [app run].
      destruct (step g s1 (DelayElapsed (length (promises s)))) as [s2'|] eqn:Hs2;
        [|done]. injection Hrun2 as ->.
      assert (wf g s2) as Hwf2 by (by eapply step_wf).
      destruct (failing_step g s2 _ args e Hwf2 Hr2) as (_ & s3 & Hs3 & _ & Hp3 & Ha3 & _).
      exists s3. rewrite Hs3. split_and!; try done.
      cbn [step] in Hs3. rewrite (pcOf_runner _ _ _ Hr2) in Hs3.
      injection Hs3 as <-. cbn. by rewrite He2, He1.
    + destruct (failing_step g s1 _ args e Hwf1 Hr1) as (_ & s3 & Hs3 & _ & Hp3 & Ha3 & _).
      exists s3. cbn [app run]. rewrite Hs3. split_and!; try done.
      cbn [step] in Hs3. rewrite (pcOf_runner _ _ _ Hr1) in Hs3.
      injection Hs3 as <-. cbn. by rewrite He1.
  - intros r a Hr.
    destruct (failing_step g s r a "" Hwf Hr) as [Hp _]. split; [done|].
    intros e. destruct (failing_step g s r a e Hwf Hr) as (_ & s' & ? & ? & ? & _).
    eauto.
  - intros r e s' Hstep. cbn [step] in Hstep.
    destruct Hwf as [[Hr _]|(r0 & Hr & Ha & Hp)].
    { by rewrite (pcOf_none _ _ Hr) in Hstep. }
    rewrite (pcOf_single _ _ _ Hr) in Hstep.
    destruct (decide (rid r0 = r)) as [<-|]; [|done].
    destruct r0 as [r p]. cbn in *. destruct p as [|a]; [done|].
    injection Hstep as <-. split; [eauto|]. split; [done|].
    cbn. apply list_lookup_insert_eq. by eapply lookup_lt_Some.
  - intros args Ha s'.
    assert (promises s' !! length (promises s) = Some Resolved) as Hres.
    { subst s'. rewrite (invoke_active _ _ _ Ha). cbn.
      apply list_lookup_insert_eq. rewrite length_app. cbn. lia. }
    split; [done|]. intros evs s'' Hrun.
    eapply run_settled; [|exact Hres|done|exact Hrun].
    exact (step_wf g s (Invoke args) s' Hwf eq_refl).
Qed.

Lemma failure_goes_to_the_caller_that_started_the_loop_witness :
  let s0 := after immediate [] in
  let s := after immediate [Invoke [1%Z]; Invoke [2%Z]] in
  (∃ s', run immediate s0 [Invoke [1%Z]; TargetSettles 0 (Some "boom")] = Some s'
         ∧ promises s' !! 0 = Some (Rejected "boom")
         ∧ executions s' = [[1%Z]]
         ∧ isActive immediate s' = false)
  ∧ promises s !! 0 = Some Pending
  ∧ promises s !! 1 = Some Resolved
  ∧ (∃ s', step immediate s (TargetSettles 0 (Some "boom")) = Some s'
           ∧ promises s' = [Rejected "boom"; Resolved]
           ∧ promises s' !! 0 = Some (Rejected "boom"))
  ∧ (let s' := replacementMethod immediate [3%Z] s in
     promises s' !! 2 = Some Resolved
     ∧ ∀ s'', run immediate s' [TargetSettles 0 (Some "boom")] = Some s'' →
              promises s'' !! 2 = Some Resolved).
Proof.
  assert (reachable immediate (after immediate [])) as H0
    by (apply reachable_after; vm_compute; reflexivity).
  assert (reachable immediate (after immediate [Invoke [1%Z]; Invoke [2%Z]])) as H
    by (apply reachable_after; vm_compute; reflexivity).
  destruct (failure_goes_to_the_caller_that_started_the_loop immediate _ H0)
    as (_ & Hfail & _).
  destruct (failure_goes_to_the_caller_that_started_the_loop immediate _ H)
    as (_ & _ & Hin & _ & Hon).
  split; [exact (Hfail [1%Z] "boom" eq_refl)|].
  destruct (Hin 0 [1%Z] eq_refl) as [Hp Hrej].
  split; [exact Hp|]. split; [reflexivity|]. split; [exact (Hrej "boom")|].
  destruct (Hon [3%Z] eq_refl) as [Hres Hstay].
  split; [exact Hres|]. intros s''. apply Hstay.
Defined.

(** The failing scenario, evaluated: the first caller's promise is rejected
    with the failure, the second caller's promise is resolved. *)
Example failing_scenario_promises :
  promises (after immediate [Invoke [1%Z]; Invoke [2%Z];
                             TargetSettles 0 (Some "boom")])
  = [Rejected "boom"; Resolved].
Proof. vm_compute. reflexivity. Qed.

(** The decorator built on [createReplacementMethod] checks its
    configuration when it is set up: a delay that is not strictly positive is
    refused when [debounce(delay)] is evaluated, a target whose kind is not
    "method" when the decorator is applied; a positive delay on a method is
    accepted, and a call of the replacement never fails to take its step. *)
Lemma debounce_checks_at_setup d c c' :
  ((toMilliSeconds d ≤ 0)%Z → debounce (ADuration d) c' = inl (ArgumentException "delay"))
  ∧ ((0 < toMilliSeconds d)%Z → debounce (ADuration d) c' = inr (Decorator d))
  ∧ (kind c ≠ Some "method" →
       decorate d c = inl (ArgumentException "kind")
       ∧ debounce ATarget (Some c) = inl (ArgumentException "kind"))
  ∧ (kind c = Some "method" →
       decorate d c = inr {| name := toText (ctxName c);
                             delay := Some (toMilliSeconds d);
                             descriptorBased := false |}
       ∧ debounce ATarget (Some c)
         = inr (Replacement {| name := toText (ctxName c); delay := None;
                               descriptorBased := false |}))
  ∧ ∀ g args s, step g s (Invoke args) = Some (replacementMethod g args s).
Proof.
  split; [|split; [|split; [|split]]].
  - intros H. unfold debounce. by destruct (Z.ltb_spec 0 (toMilliSeconds d)); [lia|].
  - intros H. unfold debounce. by destruct (Z.ltb_spec 0 (toMilliSeconds d)); [|lia].
  - intros H. unfold decorate, debounce, createReplacementMethod.
    destruct (kind c) as [k|]; [|done].
    destruct (String.eqb_spec k "method") as [->|]; done.
  - intros H. unfold decorate, debounce, createReplacementMethod. by rewrite H.
  - done.
Qed.

(** A negative number of milliseconds does not make a [Duration]. *)
Lemma negative_duration_refused ms :
  (ms < 0)%Z → fromMilliSeconds ms = inl (ArgumentException "ms").
Proof. intros H. unfold fromMilliSeconds. by destruct (Z.leb_spec 0 ms); [lia|]. Qed.

(** The descriptor-based decorator takes any [Duration]. *)
Lemma descriptor_based_takes_any_duration d propertyKey descriptor :
  debounceDescriptor (JDuration d) propertyKey descriptor
  = inr (DescriptorDecorator (toMilliSeconds d)).
Proof. reflexivity. Qed.

(** C8 at the descriptor-based decorator: a delay of zero is a [Duration];
    the decorator built on [createReplacementMethod] refuses it, the
    descriptor-based one accepts it, installs the guard on a method, and the
    guarded method then runs with a delay of 0ms. *)
Theorem descriptor_based_debounce_accepts_zero_delay :
  fromMilliSeconds 0 = inr {| _ms := 0 |}
  ∧ debounce (ADuration {| _ms := 0 |}) None = inl (ArgumentException "delay")
  ∧ debounceDescriptor (JDuration {| _ms := 0 |}) JUndefined JUndefined
    = inr (DescriptorDecorator 0)
  ∧ descriptorDecorator 0 JObject (JString "handleInput") JObject
    = inr {| name := "handleInput"; delay := Some 0%Z; descriptorBased := true |}
  ∧ executions
      (after {| name := "handleInput"; delay := Some 0%Z; descriptorBased := true |}
             [Invoke [1%Z]; DelayElapsed 0; TargetSettles 0 None])
    = [[1%Z]].
Proof. repeat split. Qed.

(* --------------------------------------------------------------------- *)
(** ** Further properties of the guard *)

Lemma length_append (a b : string) :
  String.length (a +:+ b) = String.length a + String.length b.
Proof. induction a as [|c a IH]; simpl; [done|]. by f_equal. Qed.

Lemma append_cancel_r (s a : string) : ∀ b, a +:+ s = b +:+ s → a = b.
Proof.
  induction a as [|c a IH]; intros [|c' b] H; [done| | |].
  - apply (f_equal String.length) in H. simpl in H. rewrite !length_append in H. simpl in H. lia.
  - apply (f_equal String.length) in H. simpl in H. rewrite !length_append in H. simpl in H. lia.
  - cbn in H. injection H as -> H. f_equal. by apply IH.
Qed.

Lemma lastChar_append (a s : string) :
  s ≠ "" → lastChar (a +:+ s) = lastChar s.
Proof.
  intros Hs. induction a as [|c a IH]; [done|]. rewrite <- IH. simpl.
  destruct (a +:+ s) eqn:Ha; [|done].
  destruct a; simpl in Ha; [by destruct (Hs Ha)|discriminate Ha].
Qed.

(** ** The owner object is shared, the guard's state is not *)

Lemma keys_of_other_guards g1 g2 :
  (name g1 ≠ name g2 ∨ descriptorBased g1 ≠ descriptorBased g2) →
  activeKey g1 ≠ activeKey g2
  ∧ activeKey g1 ≠ scheduledCallKey g2
  ∧ scheduledCallKey g1 ≠ activeKey g2
  ∧ scheduledCallKey g1 ≠ scheduledCallKey g2.
Proof.
  intros Hne. unfold activeKey, scheduledCallKey.
  destruct (descriptorBased g1) eqn:H1, (descriptorBased g2) eqn:H2;
    try (split_and!; intros H; simpl in H; discriminate H);
    (destruct Hne as [Hne|Hne]; [|done]);
    split_and!; intros H; apply append_cancel in H;
    first [ by apply append_cancel_r in H
          | apply (f_equal lastChar) in H;
            rewrite !lastChar_append in H by done; discriminate H ].
Qed.

Lemma capture_this g r s k :
  k ≠ activeKey g → k ≠ scheduledCallKey g →
  this (capture g r s) !! k = this s !! k.
Proof.
  intros Ha Hs. unfold capture.
  destruct (get (this s) (scheduledCallKey g)); cbn;
    by rewrite ?lookup_insert_ne.
Qed.

Lemma loop_this g r s k :
  k ≠ activeKey g → k ≠ scheduledCallKey g →
  this (loop g r s) !! k = this s !! k.
Proof.
  intros Ha Hs. unfold loop. destruct (_ && _); [|done].
  destruct (delay g); [cbn; by rewrite lookup_insert_ne|].
  rewrite capture_this by done. cbn. by rewrite lookup_insert_ne.
Qed.

Lemma step_this g s ev s' k :
  step g s ev = Some s' →
  k ≠ activeKey g → k ≠ scheduledCallKey g →
  this s' !! k = this s !! k.
Proof.
  intros Hstep Ha Hs. destruct ev as [args|r|r failure]; cbn [step] in Hstep.
  - injection Hstep as <-. unfold replacementMethod. cbn [this setProp].
    destruct (truthy _).
    + cbn. by rewrite lookup_insert_ne.
    + rewrite loop_this by done. cbn. by rewrite lookup_insert_ne.
  - destruct (pcOf r s) as [[|]|]; try done. injection Hstep as <-.
    by rewrite capture_this.
  - destruct (pcOf r s) as [[|]|]; try done.
    destruct failure; injection Hstep as <-.
    + cbn. by rewrite lookup_insert_ne.
    + rewrite loop_this by done. cbn. by rewrite lookup_insert_ne.
Qed.

(** X1: Whatever happens to a guarded method (calls, delays that end,
    executions that end, in any number and order), the guard writes two
    properties of the owner, its flag and its scheduled call, and no other. *)
Theorem guard_writes_only_its_two_properties g s evs s' k :
  run g s evs = Some s' →
  k ≠ activeKey g → k ≠ scheduledCallKey g →
  this s' !! k = this s !! k.
Proof.
  intros Hrun Ha Hs. revert s Hrun.
  induction evs as [|ev evs IH]; cbn [run]; intros s Hrun.
  - by injection Hrun as <-.
  - destruct (step g s ev) as [s1|] eqn:Hstep; [|done].
    rewrite (IH s1 Hrun). by eapply step_this.
Qed.

(** X2: The keys of a guard are built from the text of the method's name,
    [name g], which is [String(name)].  Two guarded methods of one owner
    whose names have different texts (or that were built by different
    decorators) have four distinct keys: whatever one of them does, the flag
    and the pending call of the other stay as they are.  (Names that differ
    but have one text share their keys, see
    [symbols_with_one_description_share_their_keys].) *)
Theorem guards_of_other_methods_are_undisturbed g1 g2 s ev s' :
  (name g1 ≠ name g2 ∨ descriptorBased g1 ≠ descriptorBased g2) →
  step g2 s ev = Some s' →
  isActive g1 s' = isActive g1 s ∧ pendingCall g1 s' = pendingCall g1 s.
Proof.
  intros Hne Hstep. destruct (keys_of_other_guards g1 g2 Hne) as (H1 & H2 & H3 & H4).
  unfold isActive, pendingCall, get.
  by rewrite !(step_this g2 s ev s').
Qed.

(** Two different symbols with one description have one text, so the guards
    installed for them share both keys: a call of one method overwrites the
    scheduled call of the other. *)
Example symbols_with_one_description_share_their_keys :
  let c1 := {| ctxName := NSymbol 0 (Some "save"); kind := Some "method" |} in
  let c2 := {| ctxName := NSymbol 1 (Some "save"); kind := Some "method" |} in
  ctxName c1 ≠ ctxName c2
  ∧ ∃ g, createReplacementMethod c1 None = inr g
         ∧ createReplacementMethod c2 None = inr g
         ∧ name g = "Symbol(save)".
Proof. split; [discriminate|]. eexists. repeat split. Qed.

(** ** More of the shape of reachable states *)

Lemma capture_tidy g r s :
  runners s = [] →
  (∃ l, pendingCall g s = VClosure l) →
  (∀ p, promises s !! p = Some Pending → p = r) →
  tidy g (capture g r s).
Proof.
  intros Hr [l Hl] Hp. unfold pendingCall in Hl. unfold capture. rewrite Hl.
  constructor; unfold pendingCall; cbn; rewrite ?Hr; cbn.
  - intros b. by gets.
  - intros r' [=].
  - intros p Hpp. rewrite (Hp p Hpp). eauto.
Qed.

Lemma settle_tidy g r v s :
  v ≠ Pending → runners s = [] →
  (∀ b, pendingCall g s ≠ VBool b) →
  (∀ p, promises s !! p = Some Pending → p = r) →
  tidy g (settle r v s).
Proof.
  intros Hv Hr Hb Hp. constructor; cbn; rewrite ?Hr.
  - exact Hb.
  - intros r' [=].
  - intros p Hpp. apply list_lookup_insert_Some in Hpp as [(-> & -> & _)|[Hne Hpp]];
      [done|]. by destruct Hne; rewrite (Hp p Hpp).
Qed.

Lemma loop_tidy g r s :
  runners s = [] →
  (∀ b, pendingCall g s ≠ VBool b) →
  (∀ p, promises s !! p = Some Pending → p = r) →
  tidy g (loop g r s).
Proof.
  intros Hr Hb Hp. unfold loop. destruct (_ && _) eqn:Hc.
  - apply andb_prop in Hc as [Hc _].
    assert (∃ l, pendingCall g s = VClosure l) as [l Hl].
    { unfold pendingCall in *. destruct (get (this s) (scheduledCallKey g)) eqn:Hg;
        try done; [by destruct (Hb b)|eauto]. }
    destruct (delay g).
    + constructor; unfold pendingCall in *; cbn; rewrite ?Hr; cbn; gets.
      * exact Hb.
      * eauto.
      * intros p Hpp. rewrite (Hp p Hpp). eauto.
    + apply capture_tidy; [done| |done]. exists l. unfold pendingCall in *. cbn. by gets.
  - by apply settle_tidy.
Qed.

Lemma tidy_init g o : untouched g o → tidy g (init o).
Proof.
  intros [_ Hs]. constructor; unfold pendingCall, get; cbn; rewrite ?Hs; done.
Qed.

Lemma step_tidy g s ev s' : wf g s → tidy g s → step g s ev = Some s' → tidy g s'.
Proof.
  intros Hwf [Hb Hd Hp] Hstep.
  destruct ev as [args|r|r failure]; cbn [step] in Hstep.
  - injection Hstep as <-. unfold replacementMethod. cbn [this setProp].
    rewrite get_active_sched.
    set (s1 := setProp _ _ _).
    assert (∀ b, pendingCall g s1 ≠ VBool b) as Hb1.
    { intros b. unfold pendingCall. subst s1. cbn. by gets. }
    destruct Hwf as [[Hr Ha]|(r0 & Hr & Ha & Hp0)]; unfold isActive in Ha; rewrite Ha.
    + apply loop_tidy; [done|done|]. subst s1. cbn. intros p Hpp.
      destruct (decide (p = length (promises s))) as [|Hne]; [done|].
      assert (p < length (promises s ++ [Pending])) by by eapply lookup_lt_Some.
      rewrite length_app in *. cbn in *.
      rewrite lookup_app_l in Hpp by lia. destruct (Hp p Hpp) as [c Hc].
      by rewrite Hr in Hc.
    + constructor; subst s1; unfold pendingCall in *; cbn; gets.
      * done.
      * eauto.
      * intros p Hpp.
        apply list_lookup_insert_Some in Hpp as [(_ & [=] & _)|[Hne Hpp]].
        assert (p < length (promises s ++ [Pending])) by by eapply lookup_lt_Some.
        rewrite length_app in *. cbn in *.
        rewrite lookup_app_l in Hpp by lia. eauto.
  - destruct Hwf as [[Hr Ha]|(r0 & Hr & Ha & Hp0)].
    { by rewrite (pcOf_none _ _ Hr) in Hstep. }
    rewrite (pcOf_single _ _ _ Hr) in Hstep.
    destruct (decide (rid r0 = r)) as [<-|]; [|done].
    destruct r0 as [r p]. cbn in *. destruct p; [|done]. injection Hstep as <-.
    rewrite (wake_runner _ _ _ Hr). apply capture_tidy; [done| |].
    + destruct (Hd r Hr) as [l Hl]. by exists l.
    + cbn. intros p Hpp. destruct (Hp p Hpp) as [c Hc]. rewrite Hr in Hc.
      by injection Hc.
  - destruct Hwf as [[Hr Ha]|(r0 & Hr & Ha & Hp0)].
    { by rewrite (pcOf_none _ _ Hr) in Hstep. }
    rewrite (pcOf_single _ _ _ Hr) in Hstep.
    destruct (decide (rid r0 = r)) as [<-|]; [|done].
    destruct r0 as [r p]. cbn in *. destruct p as [|a]; [done|].
    rewrite (wake_runner _ _ _ Hr) in Hstep.
    set (s1 := setProp _ _ _) in Hstep.
    assert (∀ b, pendingCall g s1 ≠ VBool b) as Hb1.
    { intros b. unfold pendingCall. subst s1. cbn. gets. apply Hb. }
    assert (∀ p, promises s1 !! p = Some Pending → p = r) as Hp1.
    { subst s1. cbn. intros p Hpp. destruct (Hp p Hpp) as [c Hc]. rewrite Hr in Hc.
      by injection Hc. }
    destruct failure as [e|]; injection Hstep as <-.
    + by apply settle_tidy.
    + by apply loop_tidy.
Qed.

Lemma reachable_tidy g s : reachable g s → wf g s ∧ tidy g s.
Proof.
  intros (o & evs & Ho & Hrun).
  assert (wf g (init o) ∧ tidy g (init o)) as H0.
  { split; [by apply wf_init|by apply tidy_init]. }
  revert Hrun H0. generalize (init o). induction evs as [|ev evs IH]; cbn.
  - intros s0 [= ->]. done.
  - intros s0 Hrun [Hwf Ht]. destruct (step g s0 ev) as [s1|] eqn:Hs; [|done].
    apply (IH s1 Hrun). split; [by eapply step_wf|by eapply step_tidy].
Qed.

(** X3: When the settle delay has passed, the scheduled call is there: it is
    taken out of its slot and executed. *)
Theorem delay_ends_in_an_execution g s r :
  reachable g s →
  runners s = [{| rid := r; pc := AwaitDelay |}] →
  ∃ l s',
    pendingCall g s = VClosure l
    ∧ step g s (DelayElapsed r) = Some s'
    ∧ executions s' = executions s ++ [l]
    ∧ inFlight s' = [l]
    ∧ pendingCall g s' = VNull
    ∧ promises s' = promises s.
Proof.
  intros [Hwf Ht]%reachable_tidy Hr.
  destruct (tidy_delay _ _ Ht r Hr) as [l Hl]. exists l.
  cbn [step]. rewrite (pcOf_runner _ _ _ Hr), (wake_runner _ _ _ Hr).
  unfold pendingCall in *. unfold capture. cbn [this setProp]. rewrite Hl.
  eexists. split; [done|]. split; [reflexivity|].
  unfold inFlight. cbn. by gets.
Qed.

Lemma idle_settled g s :
  reachable g s → isActive g s = false → ∀ p, promises s !! p ≠ Some Pending.
Proof.
  intros [Hwf Ht]%reachable_tidy Ha p Hp.
  destruct (tidy_pending _ _ Ht p Hp) as [c Hc].
  destruct Hwf as [[Hr _]|(? & _ & Ha' & _)]; congruence.
Qed.

(** X4: The promise of a call is pending only while the activation of that very
    call is the one suspended in the loop; so when the guard is idle every
    promise it has returned is settled.  A settled promise never changes. *)
Theorem only_the_running_call_is_pending g s :
  reachable g s →
  (∀ p, promises s !! p = Some Pending →
        ∃ c, runners s = [{| rid := p; pc := c |}])
  ∧ (isActive g s = false → ∀ p, promises s !! p ≠ Some Pending)
  ∧ ∀ p v evs s', promises s !! p = Some v → v ≠ Pending →
                  run g s evs = Some s' → promises s' !! p = Some v.
Proof.
  intros Hreach. pose proof (reachable_tidy _ _ Hreach) as [Hwf Ht].
  split; [apply Ht|]. split.
  - by apply idle_settled.
  - intros p v evs s' Hp Hv Hrun. by eapply run_settled.
Qed.

(** X5: A call that finds the guard idle: without a delay the wrapped method is
    executed at once, with the arguments of that call; with a delay nothing
    is executed until the delay has passed, and then (no other call having
    arrived) these arguments are. *)
Theorem idle_call_runs_at_once_unless_delayed g s args :
  reachable g s →
  isActive g s = false →
  let s' := replacementMethod g args s in
  match delay g with
  | None =>
      executions s' = executions s ++ [args]
      ∧ inFlight s' = [args]
      ∧ pendingCall g s' = VNull
  | Some _ =>
      executions s' = executions s
      ∧ inFlight s' = []
      ∧ pendingCall g s' = VClosure args
      ∧ ∃ s2, step g s' (DelayElapsed (length (promises s))) = Some s2
              ∧ executions s2 = executions s ++ [args]
              ∧ inFlight s2 = [args]
  end.
Proof.
  intros Hreach Ha s'. pose proof (reachable_wf _ _ Hreach) as Hwf.
  destruct Hwf as [[Hr _]|(? & _ & Ha' & _)]; [|congruence].
  pose proof (invoke_idle g args s Ha Hr) as (Ha' & Hp & H). fold s' in Ha', Hp, H.
  destruct (delay g) as [ms|] eqn:Hd.
  - destruct H as (Hr' & He' & Hp'). split; [done|].
    split; [unfold inFlight; by rewrite Hr'|]. split; [done|].
    destruct (delayed_run g s' _ args Hr' Ha' Hp') as (s2 & Hrun & Hr2 & He2 & _).
    exists s2. cbn [run] in Hrun.
    destruct (step g s' (DelayElapsed (length (promises s)))) as [s2'|]; [|done].
    injection Hrun as ->. split; [done|]. split; [by rewrite He2, He'|].
    unfold inFlight. by rewrite Hr2.
  - destruct H as (Hr' & He' & Hp'). split; [done|].
    split; [unfold inFlight; by rewrite Hr'|done].
Qed.

(** ** What is executed, and in which order *)

Lemma callArgs_cons ev evs : callArgs (ev :: evs) = callArgs [ev] ++ callArgs evs.
Proof. by destruct ev. Qed.

Lemma capture_effect g r s l :
  pendingCall g s = VClosure l →
  executions (capture g r s) = executions s ++ [l]
  ∧ pendingCall g (capture g r s) = VNull.
Proof.
  unfold pendingCall, capture. intros ->. cbn. by gets.
Qed.

Lemma loop_effect g r s :
  (∀ b, pendingCall g s ≠ VBool b) →
  (executions (loop g r s) = executions s
   ∧ pendingCall g (loop g r s) = pendingCall g s)
  ∨ ∃ l, pendingCall g s = VClosure l
         ∧ executions (loop g r s) = executions s ++ [l]
         ∧ pendingCall g (loop g r s) = VNull.
Proof.
  intros Hb. unfold loop. destruct (_ && _) eqn:Hc; [|by left].
  apply andb_prop in Hc as [Hc _].
  destruct (delay g); [left; unfold pendingCall; cbn; by gets|].
  right. unfold pendingCall in *.
  destruct (get (this s) (scheduledCallKey g)) as [| |b|l] eqn:Hg;
    try done; [by destruct (Hb b)|].
  exists l. split; [done|].
  apply (capture_effect g r (setProp (activeKey g) (VBool true) s)).
  unfold pendingCall. cbn. by gets.
Qed.

Lemma step_effect g s ev s' :
  wf g s → tidy g s → step g s ev = Some s' → Effect g s ev s'.
Proof.
  intros Hwf [Hb Hd Hp] Hstep.
  destruct ev as [args|r|r failure]; cbn [step] in Hstep.
  - injection Hstep as <-. unfold replacementMethod. cbn [this setProp].
    rewrite get_active_sched. set (s1 := setProp _ _ _).
    assert (pendingCall g s1 = VClosure args) as Hp1.
    { unfold pendingCall. subst s1. cbn. by gets. }
    destruct (truthy _); [by eapply Records|].
    destruct (loop_effect g (length (promises s)) s1) as [[He Hq]|(l & Hl & He & Hq)].
    { intros b. by rewrite Hp1. }
    + eapply Records; [done|done|by rewrite Hq].
    + rewrite Hp1 in Hl. injection Hl as <-. by eapply RunsAtOnce.
  - destruct Hwf as [[Hr Ha]|(r0 & Hr & Ha & Hp0)].
    { by rewrite (pcOf_none _ _ Hr) in Hstep. }
    rewrite (pcOf_single _ _ _ Hr) in Hstep.
    destruct (decide (rid r0 = r)) as [<-|]; [|done].
    destruct r0 as [r p]. cbn in *. destruct p; [|done]. injection Hstep as <-.
    destruct (Hd r Hr) as [l Hl].
    destruct (capture_effect g r (wake r s) l Hl) as [He Hq].
    by eapply RunsPending.
  - destruct Hwf as [[Hr Ha]|(r0 & Hr & Ha & Hp0)].
    { by rewrite (pcOf_none _ _ Hr) in Hstep. }
    rewrite (pcOf_single _ _ _ Hr) in Hstep.
    destruct (decide (rid r0 = r)) as [<-|]; [|done].
    destruct (pc r0); [done|].
    set (s1 := setProp _ _ _) in Hstep.
    assert (pendingCall g s1 = pendingCall g s) as Hp1.
    { unfold pendingCall. subst s1. cbn. by gets. }
    destruct failure as [e|]; injection Hstep as <-.
    + by eapply Nothing.
    + destruct (loop_effect g (rid r0) s1) as [[He Hq]|(l & Hl & He & Hq)].
      { intros b. rewrite Hp1. apply Hb. }
      * eapply Nothing; [done|done|by rewrite Hq].
      * eapply RunsPending; [done|by rewrite <- Hp1|done|done].
Qed.

Lemma step_inCallOrder g s ev s' calls :
  Effect g s ev s' → inCallOrder g s calls →
  inCallOrder g s' (calls ++ callArgs [ev]).
Proof.
  intros [Hc He Hq|l Hc Hl He Hq|a -> He Hq|a -> He Hq] [Hsub Hlast];
    rewrite ?Hc, ?app_nil_r; unfold inCallOrder; rewrite He, Hq; cbn.
  - done.
  - destruct (Hlast l Hl) as (earlier & -> & Hsub'). split; [|done].
    by apply sublist_app.
  - split; [by apply sublist_inserts_r|]. intros l [= <-]. eauto.
  - split; [by apply sublist_app|done].
Qed.

(** X6: Every execution of the wrapped method uses the arguments of a call that
    was made, each call is executed at most once, and the executions follow
    the order of the calls: what has been executed is a subsequence of what
    has been called. *)
Theorem executions_follow_the_calls g o evs s :
  untouched g o →
  run g (init o) evs = Some s →
  executions s `sublist_of` callArgs evs
  ∧ length (executions s) ≤ length (callArgs evs).
Proof.
  intros Ho Hrun.
  assert (inCallOrder g s ([] ++ callArgs evs)) as [H _].
  { assert (wf g (init o) ∧ tidy g (init o) ∧ inCallOrder g (init o) []) as H0.
    { split; [by apply wf_init|]. split; [by apply tidy_init|].
      split; [done|]. destruct Ho as [_ Hs].
      unfold pendingCall, get. cbn. by rewrite Hs. }
    revert Hrun H0. generalize (init o) (@nil Args).
    induction evs as [|ev evs IH]; cbn [run]; intros s0 calls Hrun (Hwf & Ht & Hin).
    - injection Hrun as <-. by rewrite app_nil_r.
    - destruct (step g s0 ev) as [s1|] eqn:Hs; [|done].
      rewrite callArgs_cons, app_assoc. apply (IH s1 _ Hrun).
      split; [by eapply step_wf|]. split; [by eapply step_tidy|].
      eapply step_inCallOrder; [by eapply step_effect|done]. }
  split; [done|]. by apply sublist_length.
Qed.

(** ** The loop ends *)

Lemma last_run_gen g s r a :
  runners s = [{| rid := r; pc := AwaitCall a |}] →
  notNull (pendingCall g s) = false →
  ∃ s3, run g s [TargetSettles r None] = Some s3
        ∧ runners s3 = []
        ∧ executions s3 = executions s
        ∧ isActive g s3 = false.
Proof.
  intros Hr Hp. unfold pendingCall in Hp.
  cbn [run step]. rewrite (pcOf_runner _ _ _ Hr), (wake_runner _ _ _ Hr).
  unfold loop. cbn [this setProp]. gets. rewrite Hp. cbn [andb].
  eexists. split; [reflexivity|].
  unfold isActive. cbn. by gets.
Qed.

(** A step that is neither a call nor a failure leaves the promises as they
    are or resolves the pending one. *)
Lemma step_success_promises g s ev s' :
  wf g s → tidy g s → noInvoke [ev] → noFailure [ev] →
  step g s ev = Some s' →
  ∀ p, promises s !! p = Some Pending →
       promises s' !! p = Some Pending ∨ promises s' !! p = Some Resolved.
Proof.
  unfold noInvoke, noFailure. rewrite !Forall_singleton.
  intros Hwf Ht Hni Hnf Hstep p Hp.
  destruct ev as [args|r|r [e|]]; try done; cbn [step] in Hstep.
  - destruct (pcOf r s) as [[|]|] eqn:Hpc; try done. injection Hstep as <-.
    destruct Hwf as [[Hr _]|([r0 c] & Hr & _ & _)].
    { by rewrite (pcOf_none _ _ Hr) in Hpc. }
    rewrite (pcOf_single _ _ _ Hr) in Hpc. cbn in Hpc.
    destruct (decide (r0 = r)) as [->|]; [|done]. injection Hpc as ->.
    destruct (tidy_delay _ _ Ht r Hr) as [l Hl]. unfold pendingCall in Hl.
    unfold capture. rewrite (wake_runner _ _ _ Hr). cbn [this]. rewrite Hl.
    by left.
  - destruct (pcOf r s) as [[|a]|] eqn:Hpc; try done. injection Hstep as <-.
    destruct Hwf as [[Hr _]|([r0 c] & Hr & _ & Hp0)].
    { by rewrite (pcOf_none _ _ Hr) in Hpc. }
    rewrite (pcOf_single _ _ _ Hr) in Hpc. cbn in Hpc, Hp0.
    destruct (decide (r0 = r)) as [->|]; [|done]. injection Hpc as ->.
    rewrite (wake_runner _ _ _ Hr). unfold loop. cbn [this setProp]. gets.
    destruct (notNull _ && _) eqn:Htest.
    + destruct (delay g); [by left|]. unfold capture. cbn [this setProp]. gets.
      pose proof (tidy_slot _ _ Ht) as Hslot. unfold pendingCall in Hslot.
      destruct (get (this s) (scheduledCallKey g)) as [| |b|l] eqn:Hg;
        try done; [by destruct (Hslot b)|by left].
    + cbn. destruct (decide (p = r)) as [->|Hne].
      * right. apply list_lookup_insert_eq. by eapply lookup_lt_Some.
      * left. by rewrite list_lookup_insert_ne.
Qed.

Lemma run_success_promises g evs : ∀ s s',
  wf g s → tidy g s → noInvoke evs → noFailure evs →
  run g s evs = Some s' →
  ∀ p, promises s !! p = Some Pending →
       promises s' !! p = Some Pending ∨ promises s' !! p = Some Resolved.
Proof.
  induction evs as [|ev evs IH]; cbn [run]; intros s s' Hwf Ht Hni Hnf Hrun p Hp.
  - injection Hrun as <-. by left.
  - destruct (step g s ev) as [s1|] eqn:Hs; [|done].
    apply Forall_cons in Hni as [Hni1 Hni], Hnf as [Hnf1 Hnf].
    assert (promises s1 !! p = Some Pending ∨ promises s1 !! p = Some Resolved)
      as [H|H].
    { apply (step_success_promises g s ev s1); try done;
        by apply Forall_singleton. }
    + apply (IH s1 s'); try done; [by eapply step_wf|by eapply step_tidy].
    + right. eapply run_settled; [by eapply step_wf|exact H|done|exact Hrun].
Qed.

(** X7: From any reachable state, if no further call arrives and no execution
    fails, at most four events bring the guard to rest: nothing is suspended
    or in flight, the flag is off, the call that was scheduled behind an
    active run (and nothing else) has been executed, and the promise that was
    pending is resolved. *)
Theorem guard_comes_to_rest g s :
  reachable g s →
  ∃ evs s',
    noInvoke evs ∧ noFailure evs
    ∧ length evs ≤ 4
    ∧ run g s evs = Some s'
    ∧ runners s' = []
    ∧ inFlight s' = []
    ∧ isActive g s' = false
    ∧ executions s' = executions s ++ due g s
    ∧ (∀ p, promises s !! p = Some Pending → promises s' !! p = Some Resolved)
    ∧ (∀ p, promises s' !! p ≠ Some Pending).
Proof.
  intros Hreach. pose proof (reachable_tidy _ _ Hreach) as [Hwf Ht].
  assert (∃ evs s', noInvoke evs ∧ noFailure evs ∧ length evs ≤ 4
            ∧ run g s evs = Some s'
            ∧ runners s' = [] ∧ isActive g s' = false
            ∧ executions s' = executions s ++ due g s)
    as (evs & s' & Hn & Hf & Hlen & Hrun & Hr' & Ha' & He').
  2: { assert (∀ p, promises s' !! p ≠ Some Pending) as Hrest.
       { apply (idle_settled g s'); [|done]. by eapply reachable_run. }
       exists evs, s'. split_and!; try done; [unfold inFlight; by rewrite Hr'|].
       intros p Hp.
       destruct (run_success_promises g evs s s' Hwf Ht Hn Hf Hrun p Hp); [|done].
       by destruct (Hrest p). }
  unfold due. destruct Hwf as [[Hr Ha]|([r p] & Hr & Ha & _)].
  { exists [], s. rewrite Ha, app_nil_r.
    split_and!; try done; [constructor|constructor|cbn; lia]. }
  rewrite Ha. destruct p as [|a].
  - destruct (tidy_delay _ _ Ht r Hr) as [l Hl]. rewrite Hl.
    destruct (delayed_run g s r l Hr Ha Hl) as (s2 & Hrun2 & Hr2 & He2 & _ & Hp2).
    destruct (last_run g s2 r l Hr2 Hp2) as (s3 & Hrun3 & Hr3 & He3 & Ha3 & _).
    exists ([DelayElapsed r] ++ [TargetSettles r None]), s3.
    split_and!; try done.
    + repeat constructor.
    + repeat constructor.
    + cbn. lia.
    + by rewrite run_app, Hrun2.
    + by rewrite He3, He2.
  - destruct (notNull (pendingCall g s)) eqn:Hnn.
    + assert (∃ l, pendingCall g s = VClosure l) as [l Hl].
      { destruct (pendingCall g s) as [| |b|l] eqn:Hp; try done;
          [by destruct (tidy_slot _ _ Ht b)|eauto]. }
      rewrite Hl.
      destruct (next_run g s r a l Hr Hl) as (s2 & Hrun2 & Hr2 & He2 & _ & Hp2).
      destruct (last_run g s2 r l Hr2 Hp2) as (s3 & Hrun3 & Hr3 & He3 & Ha3 & _).
      exists ((TargetSettles r None :: settleDelay g r) ++ [TargetSettles r None]), s3.
      split_and!; try done.
      * unfold settleDelay. destruct (delay g); repeat constructor.
      * unfold settleDelay. destruct (delay g); repeat constructor.
      * unfold settleDelay. destruct (delay g); cbn; lia.
      * by rewrite run_app, Hrun2.
      * by rewrite He3, He2.
    + destruct (last_run_gen g s r a Hr Hnn) as (s3 & Hrun3 & Hr3 & He3 & Ha3).
      exists [TargetSettles r None], s3.
      assert (match pendingCall g s with VClosure l => [l] | _ => [] end = [])
        as -> by (by destruct (pendingCall g s)).
      rewrite app_nil_r. split_and!; try done.
      * repeat constructor.
      * repeat constructor.
      * cbn. lia.
Qed.

(** ** What a successful setup installs *)


(** ** Concrete instances of the properties above *)

Lemma guard_writes_only_its_two_properties_witness :
  let s := init (<["title" := VBool true]> ∅) in
  let s' := default s (run delayed s [Invoke [1%Z]; DelayElapsed 0]) in
  this s' !! "title" = this s !! "title".
Proof.
  apply (guard_writes_only_its_two_properties delayed
           (init (<["title" := VBool true]> ∅))
           [Invoke [1%Z]; DelayElapsed 0]).
  - vm_compute. reflexivity.
  - vm_compute. discriminate.
  - vm_compute. discriminate.
Defined.

Lemma guards_of_other_methods_are_undisturbed_witness :
  let save := {| name := "save"; delay := None; descriptorBased := false |} in
  let s := after immediate [Invoke [1%Z]; Invoke [2%Z]] in
  let s' := replacementMethod save [7%Z] s in
  isActive immediate s' = isActive immediate s
  ∧ pendingCall immediate s' = pendingCall immediate s.
Proof.
  apply (guards_of_other_methods_are_undisturbed immediate
           {| name := "save"; delay := None; descriptorBased := false |}
           (after immediate [Invoke [1%Z]; Invoke [2%Z]]) (Invoke [7%Z])).
  - left. vm_compute. discriminate.
  - reflexivity.
Defined.

Lemma delay_ends_in_an_execution_witness :
  let s := after delayed [Invoke [1%Z]; Invoke [2%Z]] in
  ∃ l s',
    pendingCall delayed s = VClosure l
    ∧ step delayed s (DelayElapsed 0) = Some s'
    ∧ executions s' = executions s ++ [l]
    ∧ inFlight s' = [l]
    ∧ pendingCall delayed s' = VNull
    ∧ promises s' = promises s.
Proof.
  apply (delay_ends_in_an_execution delayed
           (after delayed [Invoke [1%Z]; Invoke [2%Z]]) 0).
  - apply reachable_after. vm_compute. reflexivity.
  - vm_compute. reflexivity.
Defined.

Lemma only_the_running_call_is_pending_witness :
  let s := after immediate [Invoke [1%Z]; Invoke [2%Z]] in
  (∀ p, promises s !! p = Some Pending →
        ∃ c, runners s = [{| rid := p; pc := c |}])
  ∧ (isActive immediate s = false → ∀ p, promises s !! p ≠ Some Pending)
  ∧ ∀ p v evs s', promises s !! p = Some v → v ≠ Pending →
                  run immediate s evs = Some s' → promises s' !! p = Some v.
Proof.
  apply (only_the_running_call_is_pending immediate).
  apply reachable_after. vm_compute. reflexivity.
Defined.

Lemma idle_call_runs_at_once_unless_delayed_witness :
  let s := after delayed [Invoke [1%Z]; DelayElapsed 0; TargetSettles 0 None] in
  let s' := replacementMethod delayed [2%Z] s in
  executions s' = executions s
  ∧ inFlight s' = []
  ∧ pendingCall delayed s' = VClosure [2%Z]
  ∧ ∃ s2, step delayed s' (DelayElapsed (length (promises s))) = Some s2
          ∧ executions s2 = executions s ++ [[2%Z]]
          ∧ inFlight s2 = [[2%Z]].
Proof.
  apply (idle_call_runs_at_once_unless_delayed delayed
           (after delayed [Invoke [1%Z]; DelayElapsed 0; TargetSettles 0 None])
           [2%Z]).
  - apply reachable_after. vm_compute. reflexivity.
  - vm_compute. reflexivity.
Defined.

Lemma executions_follow_the_calls_witness :
  let evs := [Invoke [1%Z]; Invoke [2%Z]; Invoke [3%Z]; TargetSettles 0 None] in
  let s := after immediate evs in
  executions s `sublist_of` callArgs evs
  ∧ length (executions s) ≤ length (callArgs evs).
Proof.
  apply (executions_follow_the_calls immediate ∅
           [Invoke [1%Z]; Invoke [2%Z]; Invoke [3%Z]; TargetSettles 0 None]).
  - split; reflexivity.
  - vm_compute. reflexivity.
Defined.

Lemma guard_comes_to_rest_witness :
  let s := after delayed [Invoke [1%Z]; DelayElapsed 0; Invoke [2%Z]] in
  ∃ evs s',
    noInvoke evs ∧ noFailure evs
    ∧ length evs ≤ 4
    ∧ run delayed s evs = Some s'
    ∧ runners s' = []
    ∧ inFlight s' = []
    ∧ isActive delayed s' = false
    ∧ executions s' = executions s ++ [[2%Z]]
    ∧ (∀ p, promises s !! p = Some Pending → promises s' !! p = Some Resolved)
    ∧ (∀ p, promises s' !! p ≠ Some Pending).
Proof.
  apply (guard_comes_to_rest delayed
           (after delayed [Invoke [1%Z]; DelayElapsed 0; Invoke [2%Z]])).
  apply reachable_after. vm_compute. reflexivity.
Defined.


End DebounceProps.

(* ===================================================================== *)
(** * Properties of BackgroundProcessor *)
(* ===================================================================== *)

Module QueueProps.
Import BackgroundProcessor.

(** ** Lists of actions and log entries *)

Lemma idents_app (l1 l2 : list Action) :
  idents (l1 ++ l2) = idents l1 ++ idents l2.
Proof. apply fmap_app. Qed.

Lemma remove_subset a l id : id ∈ idents (remove a l) → id ∈ idents l.
Proof.
  induction l as [|x l IH]; cbn; [done|].
  destruct (Nat.eqb (ident x) (ident a)); cbn; set_solver.
Qed.

Lemma remove_other a l id :
  id ∈ idents l → id ≠ ident a → id ∈ idents (remove a l).
Proof.
  induction l as [|x l IH]; cbn; [done|]. intros Hin Hne.
  destruct (Nat.eqb_spec (ident x) (ident a)); cbn; set_solver.
Qed.

Lemma remove_NoDup a l :
  NoDup (idents l) → NoDup (idents (remove a l)) ∧ ident a ∉ idents (remove a l).
Proof.
  induction l as [|x l IH]; cbn; [by split; [constructor|set_solver]|].
  intros [Hx Hnd]%NoDup_cons. destruct (IH Hnd) as [IH1 IH2].
  destruct (Nat.eqb_spec (ident x) (ident a)) as [Heq|Hne]; cbn.
  - split; [done|]. by rewrite <- Heq.
  - split; [|set_solver]. apply NoDup_cons. split; [|done].
    intros Hin. by apply Hx, (remove_subset a).
Qed.

Lemma remove_last a l : ident a ∉ idents l → remove a (l ++ [a]) = l.
Proof.
  induction l as [|x l IH]; cbn; intros Hn.
  - by rewrite Nat.eqb_refl.
  - destruct (Nat.eqb_spec (ident x) (ident a)); [set_solver|].
    rewrite IH; [done|set_solver].
Qed.

Lemma startedIn_snoc l x :
  startedIn (l ++ [x])
  = startedIn l ++ match x with Started id => [id] | _ => [] end.
Proof. unfold startedIn. rewrite omap_app. by destruct x. Qed.

Lemma completedIn_snoc l x :
  completedIn (l ++ [x])
  = completedIn l ++ match x with Completed id => [id] | _ => [] end.
Proof. unfold completedIn. rewrite omap_app. by destruct x. Qed.

Lemma enqueuedIn_snoc l x :
  enqueuedIn (l ++ [x])
  = enqueuedIn l ++ match x with Enqueued id => [id] | _ => [] end.
Proof. unfold enqueuedIn. rewrite omap_app. by destruct x. Qed.

(** ** The shape of every reachable state *)

Lemma new_Inv handler interval onlyWhenNoWork s :
  new handler interval onlyWhenNoWork = inr s → Inv s.
Proof.
  unfold new. destruct (0 <=? interval)%Z; [|done]. intros [= <-].
  constructor; cbn; try done; try lia; try (by left); try (by constructor).
  - intros h d [=]%list_elem_of_singleton. by subst.
  - set_solver.
Qed.

Lemma Inv_enqueue action errorHandler s s' :
  processAction action errorHandler s = inr s' → Inv s → Inv s'.
Proof.
  unfold processAction. destruct (_isDisposed s) eqn:Hd; [done|].
  destruct action as [act|]; [|done]. intros [= <-] [].
  constructor; cbn -[seq]; try done.
  - rewrite startedIn_snoc, enqueuedIn_snoc, idents_app, app_nil_r, app_assoc.
    by rewrite inv_fifo0.
  - by rewrite enqueuedIn_snoc, seq_S, inv_created0.
  - intros id Hid. rewrite startedIn_snoc, app_nil_r. auto.
Qed.

(** Entries other than [Started], [Enqueued] change nothing here. *)
Lemma InvX_record x e s :
  match e with Started _ | Enqueued _ => False | _ => True end →
  InvX x s → InvX x (record e s).
Proof.
  intros He []. constructor; cbn; try done.
  - rewrite startedIn_snoc, enqueuedIn_snoc. destruct e; try done;
      by rewrite !app_nil_r.
  - rewrite enqueuedIn_snoc. destruct e; try done; by rewrite app_nil_r.
  - intros id Hid. rewrite startedIn_snoc. destruct e; try done;
      rewrite app_nil_r; auto.
Qed.

Lemma InvX_register a w cb s :
  wellFormed {| subject := a; awaiting := w; postExecuteCallback := cb |} →
  InvX (Some (a, cb)) s →
  Inv (register {| subject := a; awaiting := w; postExecuteCallback := cb |} s).
Proof.
  intros Hw []. constructor; cbn; try done.
  - rewrite filter_app, length_app, filter_cons, filter_nil.
    cbn in inv_timers0. unfold isTick at 2. cbn.
    destruct cb; cbn in *; case_decide; try done; cbn; lia.
  - intros id. rewrite fmap_app, idents_app. cbn.
    rewrite elem_of_app, inv_reactions0.
    rewrite list_elem_of_singleton. split; [|intros [H _]].
    + intros [[H _]| ->]; eauto.
    + destruct (decide (id = ident a)); auto.
  - apply Forall_app. split; [done|]. by constructor.
Qed.

Lemma InvX_postExecute a cb s :
  InvX (Some (a, cb)) s → Inv (postExecute a cb s).
Proof.
  intros []. pose proof (remove_NoDup a _ inv_nodup0) as [Hnd Hnotin].
  assert (∀ id, id ∈ reactionIds s
                ↔ id ∈ idents (remove a (_actionsExecuting s)) ∧ True) as Hre.
  { intros id. rewrite inv_reactions0. cbn. split.
    - intros [H1 H2]. split; [|done]. by apply remove_other.
    - intros [H1 _]. split; [by eapply remove_subset|]. intros ->. done. }
  assert (∀ id, id ∈ idents (remove a (_actionsExecuting s))
                → id ∈ startedIn (log s ++ [Completed (ident a)])) as Hst.
  { intros id Hid%remove_subset. rewrite startedIn_snoc, app_nil_r. auto. }
  unfold postExecute, _initiateBackgroundProcessing.
  destruct cb; cbn in inv_timers0.
  - destruct (_isDisposed s) eqn:Hd; cbn; rewrite ?Hd.
    + constructor; cbn; try done; try lia.
      * by rewrite startedIn_snoc, enqueuedIn_snoc, !app_nil_r.
      * by rewrite enqueuedIn_snoc, app_nil_r.
      * by right.
    + assert (timers s = []) as Ht. { destruct (timers s); [done|cbn in *; lia]. }
      constructor; cbn; rewrite ?Ht; cbn; try done; try lia.
      * intros h d [=]%list_elem_of_singleton. by subst.
      * by rewrite startedIn_snoc, enqueuedIn_snoc, !app_nil_r.
      * by rewrite enqueuedIn_snoc, app_nil_r.
      * destruct inv_disposals0; [by left|done].
  - constructor; cbn; try done; try lia.
    + by rewrite startedIn_snoc, enqueuedIn_snoc, !app_nil_r.
    + by rewrite enqueuedIn_snoc, app_nil_r.
Qed.

Lemma handleError_Inv a cb e s :
  InvX (Some (a, cb)) s → ∃ s', handleError a cb e s = Normal s' ∧ Inv s'.
Proof.
  intros HI. unfold handleError, tryCatch, andThen, call.
  destruct (_errorHandler a e) as [e2| |e2] eqn:He; eexists; (split; [done|]).
  - by apply InvX_postExecute, InvX_record, InvX_record.
  - apply InvX_register; [|by apply InvX_record]. unfold wellFormed. cbn.
    intros e'. by rewrite He.
  - apply InvX_register; [|by apply InvX_record]. unfold wellFormed. cbn.
    intros e'. by rewrite He.
Qed.

(** The head of the queue is shifted, pushed on [_actionsExecuting] and
    executed: the body shared by the timer callback and the first loop of
    [dispose]. *)
Lemma start_InvX cb a rest s :
  Inv s → _actionsToProcess s = a :: rest →
  (cb = TickCallback → timers s = [] ∧ filter isTick (reactions s) = []) →
  InvX (Some (a, cb))
    (record (Started (ident a))
       (setExecuting (_actionsExecuting s ++ [a]) (setToProcess rest s))).
Proof.
  intros [] Hq Hcb. rewrite Hq in inv_fifo0.
  assert (ident a ∉ startedIn (log s)) as Hfresh.
  { pose proof (NoDup_seq 0 (actionsCreated s)) as Hnd.
    rewrite <- inv_created0 in Hnd. rewrite <- inv_fifo0 in Hnd.
    apply NoDup_app in Hnd as (_ & Hnd & _). intros Hin.
    apply (Hnd _ Hin). cbn. left. }
  assert (ident a ∉ idents (_actionsExecuting s)) as Hfresh' by auto.
  constructor; cbn; try done.
  - destruct cb; cbn in *; [|lia]. destruct Hcb as [-> ->]; [done|]. cbn. lia.
  - rewrite startedIn_snoc, enqueuedIn_snoc, app_nil_r, <- inv_fifo0, <- app_assoc.
    done.
  - by rewrite enqueuedIn_snoc, app_nil_r.
  - rewrite idents_app. apply NoDup_app. split; [done|]. split.
    + intros id Hid [= ->]%list_elem_of_singleton. done.
    + apply NoDup_singleton.
  - intros id. rewrite idents_app, startedIn_snoc, !elem_of_app. cbn.
    rewrite list_elem_of_singleton. intros [H| ->]; auto.
  - intros id. rewrite idents_app, elem_of_app. cbn.
    rewrite list_elem_of_singleton, inv_reactions0. split.
    + intros [H _]. split; [by left|]. by intros ->.
    + intros [[H| ->] Hne]; done.
  - intros a0 cb0 [= <- <-]. rewrite idents_app, elem_of_app. right. cbn.
    by apply list_elem_of_singleton.
Qed.

Lemma execute_Inv cb a rest s :
  Inv s → _actionsToProcess s = a :: rest →
  (cb = TickCallback → timers s = [] ∧ filter isTick (reactions s) = []) →
  ∃ s', execute a cb (setExecuting (_actionsExecuting s ++ [a])
                        (setToProcess rest s)) = Normal s'
        ∧ Inv s'.
Proof.
  intros HI Hq Hcb. pose proof (start_InvX cb a rest s HI Hq Hcb) as HX.
  unfold execute, tryCatch, andThen, call.
  destruct (_action a) as [e| |e] eqn:Ha.
  - by apply handleError_Inv.
  - eexists. split; [done|]. apply InvX_register; [|done].
    unfold wellFormed. cbn. intros e'. by rewrite Ha.
  - eexists. split; [done|]. apply InvX_register; [|done].
    unfold wellFormed. cbn. intros e'. by rewrite Ha.
Qed.

Lemma filter_filter_length {A} (P Q : A → Prop)
    `{∀ x, Decision (P x)} `{∀ x, Decision (Q x)} (l : list A) :
  length (filter P (filter Q l)) ≤ length (filter P l).
Proof.
  induction l as [|x l IH]; [done|].
  rewrite (filter_cons Q). destruct (decide (Q x)).
  - rewrite !filter_cons. destruct (decide (P x)); cbn; lia.
  - rewrite filter_cons. destruct (decide (P x)); cbn; lia.
Qed.

Lemma filter_filter_drop {A} (P Q : A → Prop)
    `{∀ x, Decision (P x)} `{∀ x, Decision (Q x)} (l : list A) x :
  x ∈ l → P x → ¬ Q x →
  length (filter P (filter Q l)) < length (filter P l).
Proof.
  induction l as [|y l IH]; [by intros ?%elem_of_nil|].
  intros [->|Hin]%elem_of_cons HP HQ.
  - rewrite (filter_cons_False Q), (filter_cons_True P) by done. cbn.
    pose proof (filter_filter_length P Q l). lia.
  - specialize (IH Hin HP HQ). rewrite (filter_cons Q). destruct (decide (Q y)).
    + rewrite !filter_cons. destruct (decide (P y)); cbn; lia.
    + rewrite filter_cons. destruct (decide (P y)); cbn; lia.
Qed.

Lemma reactionOf_Some id s r :
  reactionOf id s = Some r → r ∈ reactions s ∧ ident (subject r) = id.
Proof.
  unfold reactionOf. intros H.
  assert (r ∈ filter (fun r => ident (subject r) = id) (reactions s)) as Hin.
  { destruct (filter _ _); [done|]. injection H as ->. left. }
  by apply list_elem_of_filter in Hin as [? ?].
Qed.

Lemma dropReaction_InvX id s r :
  Inv s → reactionOf id s = Some r →
  InvX (Some (subject r, postExecuteCallback r)) (dropReaction id s)
  ∧ wellFormed r.
Proof.
  intros [] [Hin Hid]%reactionOf_Some. split.
  - constructor; cbn; try done.
    + destruct (postExecuteCallback r) eqn:Hcb; cbn.
      * pose proof (filter_filter_drop isTick
          (fun r => ident (subject r) ≠ id) (reactions s) r Hin Hcb (fun H => H Hid)) as Hlt.
        cbn in inv_timers0. lia.
      * pose proof (filter_filter_length isTick
          (fun r => ident (subject r) ≠ id) (reactions s)).
        cbn in inv_timers0. lia.
    + intros id'. rewrite Hid. split.
      * intros (a & -> & (r' & -> & [Hne Hin']%list_elem_of_filter)%list_elem_of_fmap)%list_elem_of_fmap.
        split; [|done]. apply inv_reactions0.
        apply list_elem_of_fmap. eexists. split; [done|].
        apply list_elem_of_fmap. eauto.
      * intros [He Hne]. assert (id' ∈ reactionIds s) as Hr.
        { apply inv_reactions0. by split. }
        clear He. rename Hr into He.
        apply list_elem_of_fmap in He as (a & -> & (r' & -> & Hin')%list_elem_of_fmap).
        apply list_elem_of_fmap. eexists. split; [done|].
        apply list_elem_of_fmap. eexists. split; [done|].
        by apply list_elem_of_filter.
    + intros a cb [= <- <-]. apply inv_reactions0.
      apply list_elem_of_fmap. eexists. split; [done|].
      apply list_elem_of_fmap. eauto.
    + apply Forall_forall. intros r' [_ Hr']%list_elem_of_filter.
      by eapply Forall_forall in inv_wellFormed0.
  - by eapply Forall_forall in inv_wellFormed0.
Qed.

Lemma react_Inv r s :
  InvX (Some (subject r, postExecuteCallback r)) s → wellFormed r →
  ∃ s', react r s = Some (Normal s') ∧ Inv s'.
Proof.
  intros HI Hw. unfold react, wellFormed in *.
  destruct (awaiting r) as [|error].
  - destruct (_action (subject r)) as [e| |e] eqn:Ha.
    + by destruct (Hw e).
    + eexists. split; [done|]. by apply InvX_postExecute.
    + destruct (handleError_Inv _ _ e _ HI) as (s' & -> & HI'). eauto.
  - destruct (_errorHandler (subject r) error) as [e| |e] eqn:Ha.
    + by destruct (Hw e).
    + eexists. split; [done|]. by apply InvX_postExecute.
    + eexists. split; [done|]. by apply InvX_postExecute, InvX_record.
Qed.

Lemma tick_Inv h s : Inv s → h ∈ (fst <$> timers s) → Inv (tick (clearTimeout h s)).
Proof.
  intros HI Hh. pose proof HI as [].
  assert (timers s = [] ∨ ∃ t, timers s = [t]) as [Ht|[[h' d] Ht]].
  { destruct (timers s) as [|t [|t' l]]; cbn in *; eauto; lia. }
  { rewrite Ht in Hh. by apply elem_of_nil in Hh. }
  rewrite Ht in Hh. cbn in Hh. apply list_elem_of_singleton in Hh as ->.
  assert (filter isTick (reactions s) = []) as Hno.
  { rewrite Ht in inv_timers0. cbn in inv_timers0.
    destruct (filter isTick (reactions s)); [done|cbn in *; lia]. }
  assert (timers (clearTimeout h' s) = []) as Ht'.
  { cbn. rewrite Ht, filter_cons, filter_nil. cbn. by case_decide. }
  assert (Inv (clearTimeout h' s)) as HI'.
  { constructor; try done.
    - rewrite Ht'. cbn. rewrite Hno. cbn. lia.
    - rewrite Ht'. by intros ? ? ?%elem_of_nil. }
  unfold tick. destruct (_actionsToProcess (clearTimeout h' s)) as [|a rest] eqn:Hq.
  - unfold _initiateBackgroundProcessing.
    destruct (_isDisposed (clearTimeout h' s)) eqn:Hd; [done|].
    destruct HI'. constructor; try done; cbn in *.
    + rewrite Ht, filter_cons, filter_nil. cbn. case_decide; [done|].
      cbn. rewrite Hno. cbn. lia.
    + rewrite Ht, filter_cons, filter_nil. cbn. case_decide; [done|]. cbn.
      intros h0 d0 [=]%list_elem_of_singleton. by subst.
  - destruct (execute_Inv TickCallback a rest _ HI' Hq) as (s' & -> & HI'').
    { intros _. split; [done|]. cbn. exact Hno. }
    exact HI''.
Qed.

Lemma step_Inv_settle id s r :
  Inv s → reactionOf id s = Some r →
  ∃ s', react r (dropReaction id s) = Some (Normal s') ∧ Inv s'.
Proof.
  intros HI Hr. destruct (dropReaction_InvX id s r HI Hr) as [HX Hw].
  by apply react_Inv.
Qed.

Lemma drain_Inv fuel : ∀ s,
  Inv s → ∃ s', drain fuel s = Normal s' ∧ Inv s'.
Proof.
  induction fuel as [|fuel IH]; intros s HI; cbn; [eauto|].
  destruct (_actionsToProcess s) as [|a rest] eqn:Hq; [eauto|].
  destruct (execute_Inv DisposeCallback a rest s HI Hq) as (s1 & -> & HI1); [done|].
  cbn. by apply IH.
Qed.

(** ** What a callback chain leaves alone *)

Ltac quiet_leaf :=
  constructor; cbn;
  rewrite ?startedIn_snoc, ?completedIn_snoc, ?enqueuedIn_snoc, ?app_nil_r;
  try done; try congruence;
  try (intros; rewrite ?elem_of_app; auto; fail).

Lemma postExecute_quiet a cb s :
  quiet s (postExecute a cb s)
  ∧ startedIn (log (postExecute a cb s)) = startedIn (log s)
  ∧ ident a ∈ completedIn (log (postExecute a cb s)).
Proof.
  assert (∀ id (l : list nat), id ∈ idents (_actionsExecuting s) →
            id ∈ idents (remove a (_actionsExecuting s))
            ∨ id ∈ l ++ [ident a]) as Hex.
  { intros id l Hid. destruct (decide (id = ident a)) as [->|Hne].
    - right. rewrite elem_of_app. right. left.
    - left. by apply remove_other. }
  assert (∀ l, ident a ∈ completedIn (l ++ [Completed (ident a)])) as Hc.
  { intros l. rewrite completedIn_snoc, elem_of_app. right. left. }
  unfold postExecute, _initiateBackgroundProcessing.
  destruct cb; [destruct (_isDisposed s) eqn:Hd|]; cbn; rewrite ?Hd; cbn;
    (split; [|split; [by rewrite startedIn_snoc, app_nil_r|apply Hc]]);
    quiet_leaf; try (intros id; apply Hex); try apply remove_subset.
Qed.

Lemma quiet_trans s1 s2 s3 : quiet s1 s2 → quiet s2 s3 → quiet s1 s3.
Proof.
  intros [] []. constructor; try congruence; auto.
  - intros Hd. rewrite q_timers1, q_timers0; [done|done|congruence].
  - intros id Hid. destruct (q_executing0 id Hid); auto.
Qed.

Lemma record_quiet e s :
  match e with Enqueued _ => False | _ => True end → quiet s (record e s).
Proof. intros He. destruct e; try done; quiet_leaf. Qed.

Lemma register_quiet r s : quiet s (register r s).
Proof. quiet_leaf. Qed.

Lemma handleError_quiet a cb e s :
  ∃ s', handleError a cb e s = Normal s' ∧ quiet s s'
        ∧ startedIn (log s') = startedIn (log s).
Proof.
  unfold handleError, tryCatch, andThen, call.
  destruct (_errorHandler a e) as [e2| |e2]; eexists; (split; [done|]).
  - set (s1 := record _ (record _ s)).
    destruct (postExecute_quiet a cb s1) as (Hq & Hs & _). split.
    + eapply quiet_trans; [|exact Hq]. subst s1.
      apply (quiet_trans _ (record (Handled (ident a) e) s)); by apply record_quiet.
    + rewrite Hs. subst s1. cbn. by rewrite !startedIn_snoc, !app_nil_r.
  - split; [|cbn; by rewrite startedIn_snoc, app_nil_r].
    eapply quiet_trans; [|apply register_quiet]; by apply record_quiet.
  - split; [|cbn; by rewrite startedIn_snoc, app_nil_r].
    eapply quiet_trans; [|apply register_quiet]; by apply record_quiet.
Qed.

Lemma execute_quiet a cb s :
  ∃ s', execute a cb s = Normal s' ∧ quiet s s'
        ∧ startedIn (log s') = startedIn (log s) ++ [ident a].
Proof.
  unfold execute, tryCatch, andThen, call.
  destruct (_action a) as [e| |e].
  - destruct (handleError_quiet a cb e (record (Started (ident a)) s))
      as (s' & -> & Hq & Hs).
    eexists. split; [done|]. split.
    + eapply quiet_trans; [|exact Hq]. by apply record_quiet.
    + rewrite Hs. cbn. by rewrite startedIn_snoc.
  - eexists. split; [done|]. split; [|cbn; by rewrite startedIn_snoc].
    eapply quiet_trans; [|apply register_quiet]; by apply record_quiet.
  - eexists. split; [done|]. split; [|cbn; by rewrite startedIn_snoc].
    eapply quiet_trans; [|apply register_quiet]; by apply record_quiet.
Qed.

Lemma react_quiet r s c :
  react r s = Some c →
  ∃ s', c = Normal s' ∧ quiet s s' ∧ startedIn (log s') = startedIn (log s).
Proof.
  unfold react. destruct (awaiting r) as [|error].
  - destruct (_action (subject r)) as [e| |e]; [done| |]; intros [= <-].
    + eexists. split; [done|].
      destruct (postExecute_quiet (subject r) (postExecuteCallback r) s)
        as (Hq & Hs & _). done.
    + destruct (handleError_quiet (subject r) (postExecuteCallback r) e s)
        as (s' & -> & Hq & Hs). eauto.
  - destruct (_errorHandler (subject r) error) as [e| |e]; [done| |];
      intros [= <-].
    + eexists. split; [done|].
      destruct (postExecute_quiet (subject r) (postExecuteCallback r) s)
        as (Hq & Hs & _). done.
    + eexists. split; [done|].
      destruct (postExecute_quiet (subject r) (postExecuteCallback r)
                  (record (ConsoleError e) s)) as (Hq & Hs & _).
      split.
      * eapply quiet_trans; [|exact Hq]. by apply record_quiet.
      * rewrite Hs. cbn. by rewrite startedIn_snoc, app_nil_r.
Qed.

Lemma dropReaction_quiet id s :
  quiet s (dropReaction id s) ∧ log (dropReaction id s) = log s.
Proof. split; [quiet_leaf|done]. Qed.

(** ** Transitions keep the shape *)

Lemma drain_spec fuel : ∀ s,
  Inv s → length (_actionsToProcess s) ≤ fuel →
  ∃ s', drain fuel s = Normal s'
        ∧ Inv s'
        ∧ _actionsToProcess s' = []
        ∧ _isDisposed s' = _isDisposed s
        ∧ disposals s' = disposals s
        ∧ (_isDisposed s = true → timers s' = timers s)
        ∧ startedIn (log s') = startedIn (log s) ++ idents (_actionsToProcess s)
        ∧ (∀ id, id ∈ completedIn (log s) → id ∈ completedIn (log s'))
        ∧ (∀ id, id ∈ idents (_actionsExecuting s ++ _actionsToProcess s) →
                 id ∈ idents (_actionsExecuting s') ∨ id ∈ completedIn (log s')).
Proof.
  induction fuel as [|fuel IH]; intros s HI Hlen; cbn.
  - destruct (_actionsToProcess s) eqn:Hq; [|cbn in Hlen; lia].
    exists s. cbn. rewrite !app_nil_r. split; [done|]. split; [done|].
    repeat split; auto.
  - destruct (_actionsToProcess s) as [|a rest] eqn:Hq.
    { exists s. cbn. rewrite !app_nil_r. split; [done|]. split; [done|].
      repeat split; auto. }
    set (s0 := setExecuting (_actionsExecuting s ++ [a]) (setToProcess rest s)).
    destruct (execute_Inv DisposeCallback a rest s HI Hq) as (s1 & He & HI1); [done|].
    destruct (execute_quiet a DisposeCallback s0) as (s1' & He' & Hq1 & Hs1).
    fold s0 in He. rewrite He in He'. injection He' as <-. rewrite He. cbn.
    destruct Hq1.
    destruct (IH s1 HI1) as (s' & Hd & HI' & Hq' & Hdis & Hdl & Ht & Hst & Hc & Hex).
    { rewrite q_queue0. cbn. cbn in Hlen. lia. }
    exists s'. split; [done|]. split; [done|]. split; [done|].
    split; [by rewrite Hdis, q_disposed0|]. split; [by rewrite Hdl, q_disposals0|].
    split; [intros Hdd; rewrite Ht, q_timers0; by rewrite ?q_disposed0|].
    split; [rewrite Hst, Hs1, q_queue0; cbn; by rewrite <- app_assoc|].
    split; [auto|].
    intros id Hid. rewrite fmap_app, fmap_cons, elem_of_app, elem_of_cons in Hid.
    assert (id ∈ idents (_actionsExecuting s0) ∨ id ∈ idents rest) as [Hin|Hin].
    { subst s0. cbn. rewrite fmap_app, elem_of_app. cbn.
      rewrite list_elem_of_singleton. tauto. }
    + destruct (q_executing0 id Hin) as [H|H]; [|auto].
      apply Hex. rewrite fmap_app, elem_of_app. by left.
    + apply Hex. rewrite fmap_app, elem_of_app, q_queue0. by right.
Qed.

Lemma insert_last {A} (l : list A) (x y : A) :
  <[length l := y]> (l ++ [x]) = l ++ [y].
Proof. rewrite insert_app_r_alt by lia. by rewrite Nat.sub_diag. Qed.

Lemma Inv_disposals l s :
  Inv s → _isDisposed s = true → Inv (setDisposals l s).
Proof. intros [] Hd. constructor; try done. by right. Qed.

Lemma poll_Inv d s : Inv s → _isDisposed s = true → Inv (poll d s).
Proof.
  intros HI Hd. unfold poll. destruct (_actionsExecuting s); [|done].
  by apply Inv_disposals.
Qed.

(** A call of [dispose] on a processor that is already disposed only
    returns a resolved promise. *)
Lemma dispose_again k s :
  _isDisposed s = true →
  dispose k s = setDisposals (disposals s ++ [Finished]) s.
Proof.
  intros Hd. unfold dispose. cbn. rewrite Hd. by rewrite insert_last.
Qed.

Lemma timers_shape s :
  Inv s →
  timers s = []
  ∨ ∃ h d, timers s = [(h, d)] ∧ _timeout s = Some h
           ∧ filter isTick (reactions s) = [].
Proof.
  intros []. destruct (timers s) as [|[h d] [|t l]] eqn:Ht; cbn in *; [by left| |lia].
  right. exists h, d. split; [done|]. split; [apply (inv_timeout0 h d); left|].
  destruct (filter isTick (reactions s)); [done|cbn in *; lia].
Qed.

(** The first call of [dispose]. *)
Lemma dispose_first k s :
  Inv s → _isDisposed s = false →
  let s1 := dispose k s in
  Inv s1
  ∧ _isDisposed s1 = true
  ∧ timers s1 = []
  ∧ (∃ x, disposals s1 = disposals s ++ [x]
          ∧ (x = Finished ∧ _actionsExecuting s1 = [] ∨ x = Waiting))
  ∧ (∀ id, id ∈ completedIn (log s) → id ∈ completedIn (log s1))
  ∧ if k
    then _actionsToProcess s1 = _actionsToProcess s
         ∧ log s1 = log s
         ∧ _actionsExecuting s1 = _actionsExecuting s
    else _actionsToProcess s1 = []
         ∧ startedIn (log s1) = startedIn (log s) ++ idents (_actionsToProcess s)
         ∧ ∀ id, id ∈ idents (_actionsExecuting s ++ _actionsToProcess s) →
                 id ∈ idents (_actionsExecuting s1) ∨ id ∈ completedIn (log s1).
Proof.
  intros HI Hd. unfold dispose. cbn. rewrite Hd.
  set (s0 := setDisposed (setDisposals (disposals s ++ [Waiting]) s)).
  set (s2 := match _timeout s with Some h => clearTimeout h s0 | None => s0 end).
  assert (timers s2 = []) as Ht2.
  { subst s2. destruct (timers_shape s HI) as [Ht|(h & d & Ht & -> & _)].
    - destruct (_timeout s); cbn; by rewrite Ht.
    - cbn. rewrite Ht, filter_cons, filter_nil. cbn. by case_decide. }
  assert (Inv s2 ∧ _isDisposed s2 = true ∧ disposals s2 = disposals s ++ [Waiting]
          ∧ log s2 = log s ∧ _actionsToProcess s2 = _actionsToProcess s
          ∧ _actionsExecuting s2 = _actionsExecuting s)
    as (HI2 & Hd2 & Hdl2 & Hl2 & Hq2 & He2).
  { split; [|subst s2; by destruct (_timeout s)].
    pose proof HI as []. constructor; rewrite ?Ht2;
      try (subst s2; destruct (_timeout s); done).
    - subst s2. destruct (_timeout s); cbn in *; lia.
    - by intros ? ? ?%elem_of_nil.
    - right. subst s2. by destruct (_timeout s). }
  clearbody s2. clear s0.
  assert (∀ s3, _actionsExecuting s3 = [] ∨ _actionsExecuting s3 ≠ []) as Hdec.
  { intros s3. destruct (_actionsExecuting s3); [by left|by right]. }
  destruct k; cbn.
  - unfold poll. destruct (_actionsExecuting s2) eqn:Hex.
    + split; [by apply Inv_disposals|]. cbn. rewrite Ht2, Hdl2, insert_last.
      split_and!; eauto 6; try congruence.
    + rewrite Ht2, Hdl2. split_and!; eauto; try congruence.
  - destruct (drain_spec (length (_actionsToProcess s2)) s2 HI2)
      as (s3 & -> & HI3 & Hq3 & Hd3 & Hdl3 & Ht3 & Hs3 & Hc3 & He3); [lia|].
    rewrite Hd2 in Hd3. rewrite Ht2 in Ht3. specialize (Ht3 Hd2).
    rewrite Hl2, Hq2 in Hs3. rewrite Hl2 in Hc3. rewrite He2, Hq2 in He3.
    cbn. unfold poll. destruct (_actionsExecuting s3) eqn:Hex.
    + split; [by apply Inv_disposals|]. cbn. rewrite Hdl3, Hdl2, insert_last, Hex.
      split_and!; eauto 6.
    + rewrite Hdl3, Hdl2. split_and!; eauto. by rewrite Hex.
Qed.

Lemma step_Inv s ev s' : Inv s → step s ev = Some s' → Inv s'.
Proof.
  intros HI Hstep. destruct ev as [action errorHandler|h|id|k|d]; cbn in Hstep.
  - destruct (processAction action errorHandler s) eqn:Hp; injection Hstep as <-;
      [done|by eapply Inv_enqueue].
  - case_bool_decide; [|done]. injection Hstep as <-. by apply tick_Inv.
  - destruct (reactionOf id s) as [r|] eqn:Hr; [|done].
    destruct (step_Inv_settle id s r HI Hr) as (s1 & Hre & HI1).
    rewrite Hre in Hstep. by injection Hstep as <-.
  - injection Hstep as <-. destruct (_isDisposed s) eqn:Hd.
    + rewrite dispose_again by done. by apply Inv_disposals.
    + by apply dispose_first.
  - destruct (disposals s !! d) as [[| |]|] eqn:Hd; try done.
    injection Hstep as <-. apply poll_Inv; [done|].
    destruct (inv_disposals _ _ HI) as [Hn|]; [|done]. by rewrite Hn in Hd.
Qed.

Lemma run_Inv evs : ∀ s s', Inv s → run s evs = Some s' → Inv s'.
Proof.
  induction evs as [|ev evs IH]; cbn; intros s s' HI Hrun.
  - by injection Hrun as <-.
  - destruct (step s ev) eqn:Hs; [|done]. eauto using step_Inv.
Qed.

Lemma reachable_Inv s : reachable s → Inv s.
Proof.
  intros (handler & interval & b & s0 & evs & Hnew & Hrun).
  eauto using run_Inv, new_Inv.
Qed.

Lemma queue_run_app evs1 : ∀ evs2 s,
  run s (evs1 ++ evs2) = match run s evs1 with
                         | Some s1 => run s1 evs2
                         | None => None
                         end.
Proof.
  induction evs1 as [|ev evs1 IH]; cbn; intros evs2 s; [done|].
  destruct (step s ev); [apply IH|done].
Qed.

Lemma queue_reachable_run s evs s' : reachable s → run s evs = Some s' → reachable s'.
Proof.
  intros (handler & interval & b & s0 & evs0 & Hnew & Hrun) H.
  exists handler, interval, b, s0, (evs0 ++ evs). split; [done|].
  by rewrite queue_run_app, Hrun.
Qed.

(** ** After disposal *)

Lemma afterDisposal_refl s :
  _isDisposed s = true → timers s = [] → afterDisposal s s.
Proof. intros. constructor; auto. Qed.

Lemma quiet_afterDisposal s s' :
  _isDisposed s = true → timers s = [] → quiet s s' →
  startedIn (log s') = startedIn (log s) → afterDisposal s s'.
Proof.
  intros Hd Ht [] Hs. constructor; auto; try congruence.
  - by rewrite q_timers0.
  - by rewrite q_disposals0.
  - intros d. rewrite q_disposals0. auto.
  - intros d _. rewrite q_disposals0. auto.
Qed.

Lemma step_afterDisposal s ev s' :
  _isDisposed s = true → timers s = [] → step s ev = Some s' →
  afterDisposal s s'.
Proof.
  intros Hd Ht Hstep.
  destruct ev as [action errorHandler|h|id|k|d]; cbn in Hstep.
  - unfold processAction in Hstep. rewrite Hd in Hstep. injection Hstep as <-.
    by apply afterDisposal_refl.
  - rewrite Ht in Hstep. case_bool_decide as Hh; [|done].
    cbn in Hh. by apply elem_of_nil in Hh.
  - destruct (reactionOf id s) as [r|]; [|done].
    destruct (react r (dropReaction id s)) as [c|] eqn:Hr; [|done].
    injection Hstep as <-.
    destruct (react_quiet _ _ _ Hr) as (s1 & -> & Hq & Hs).
    destruct (dropReaction_quiet id s) as [Hq0 Hl0].
    apply quiet_afterDisposal; [done|done|by eapply quiet_trans|].
    cbn. by rewrite Hs, Hl0.
  - injection Hstep as <-. rewrite dispose_again by done.
    constructor; cbn; auto.
    + rewrite length_app. lia.
    + intros d Hf. by apply lookup_app_l_Some.
    + intros d Hf. left. by apply lookup_app_l_Some.
    + intros d Hlt. rewrite lookup_app_l by done. auto.
  - destruct (disposals s !! d) as [[| |]|] eqn:Hdd; try done.
    injection Hstep as <-. unfold poll.
    destruct (_actionsExecuting s) eqn:Hex; [|by apply afterDisposal_refl].
    constructor; cbn; rewrite ?Hex; auto.
    + by rewrite length_insert.
    + intros d' Hf. destruct (decide (d = d')) as [->|Hne]; [congruence|].
      by rewrite list_lookup_insert_ne.
    + intros d' Hf. destruct (decide (d = d')) as [->|Hne].
      * right. apply list_lookup_insert_eq. by eapply lookup_lt_Some.
      * left. by rewrite list_lookup_insert_ne.
Qed.

Lemma afterDisposal_trans s1 s2 s3 :
  afterDisposal s1 s2 → afterDisposal s2 s3 → afterDisposal s1 s3.
Proof.
  intros [] []. constructor; auto; try congruence; try lia.
  - intros id Hid. destruct (ad_executing0 id Hid); auto.
  - intros d Hw. destruct (ad_waiting0 d Hw); auto.
  - intros d Hlt Hf. destruct (ad_resolves1 d) as [H|H]; [lia|done| |by right].
    destruct (ad_resolves0 d Hlt H) as [H'|H']; [by left|right].
    destruct (_actionsExecuting s3) as [|a l] eqn:Hex; [done|].
    specialize (ad_no_new1 (ident a)). rewrite H' in ad_no_new1.
    exfalso. eapply elem_of_nil, ad_no_new1. cbn. left.
Qed.

Lemma run_afterDisposal evs : ∀ s s',
  _isDisposed s = true → timers s = [] → run s evs = Some s' →
  afterDisposal s s'.
Proof.
  induction evs as [|ev evs IH]; cbn; intros s s' Hd Ht Hrun.
  - injection Hrun as <-. by apply afterDisposal_refl.
  - destruct (step s ev) as [s1|] eqn:Hs; [|done].
    pose proof (step_afterDisposal _ _ _ Hd Ht Hs) as H1.
    eapply afterDisposal_trans; [exact H1|].
    apply IH; [apply H1|apply H1|done].
Qed.

(** ** One record, from the timer callback to its completion *)

Lemma filter_ident_fresh id (l : list Reaction) :
  id ∉ idents (subject <$> l) →
  filter (fun r => ident (subject r) = id) l = []
  ∧ filter (fun r => ident (subject r) ≠ id) l = l.
Proof.
  induction l as [|r l IH]; [done|].
  rewrite !fmap_cons, not_elem_of_cons. intros [Hne Hf].
  destruct (IH Hf) as [IH1 IH2]. rewrite !filter_cons.
  case_decide; [congruence|]. case_decide; [|done]. by rewrite IH2.
Qed.

Lemma settles_fresh a w cb l s :
  ident a ∉ idents (subject <$> l) →
  reactions s = l ++ [{| subject := a; awaiting := w; postExecuteCallback := cb |}] →
  step s (Settles (ident a))
  = hostCall <$> react {| subject := a; awaiting := w; postExecuteCallback := cb |}
                       (setReactions l s).
Proof.
  intros [H1 H2]%filter_ident_fresh Hr. cbn [step]. unfold reactionOf, dropReaction.
  rewrite Hr, !filter_app, H1, H2, !filter_cons, !filter_nil. cbn [app head].
  case_decide; [|done]. case_decide; [done|]. cbn [head]. by rewrite app_nil_r.
Qed.

Lemma tick_fires h d s :
  timers s = [(h, d)] → step s (Tick h) = Some (tick (clearTimeout h s))
  ∧ timers (clearTimeout h s) = [].
Proof.
  intros Ht. split.
  - cbn [step]. rewrite Ht. by rewrite bool_decide_eq_true_2 by (cbn; left).
  - cbn [timers clearTimeout]. rewrite Ht, filter_cons, filter_nil. cbn.
    by case_decide.
Qed.

Ltac settle_one a w s Hfr :=
  cbn [hostCall run fmap option_fmap option_map];
  erewrite (settles_fresh a w TickCallback (reactions s));
  [|exact Hfr|reflexivity];
  unfold react; cbn [subject awaiting postExecuteCallback].

Ltac completes Hd Hfe Htc :=
  cbn [hostCall run fmap option_fmap option_map];
  eexists; split; [reflexivity|];
  unfold postExecute, _initiateBackgroundProcessing; cbn; rewrite Hd; cbn;
  rewrite remove_last by done; rewrite Htc;
  split_and!; try done; [by rewrite <- ?app_assoc|eexists; left].

(** C5: a record at the head of the queue of a running processor, whatever
    its action and its error handler do.  The timer callback starts it; after
    the settlements it goes through, the log has exactly: its start; if the
    action threw or its promise rejected, the call of its own error handler
    with that error; if the handler threw or its promise rejected, that error
    on [console.error]; its completion.  No error escaped, the record is no
    longer in [_actionsExecuting], the queue holds the records behind it, and
    a timer is armed again, so the same holds for the next record. *)
Theorem failures_do_not_stop_the_queue s h a rest :
  reachable s →
  _isDisposed s = false →
  h ∈ (fst <$> timers s) →
  _actionsToProcess s = a :: rest →
  ∃ s',
    run s (Tick h :: settlements a) = Some s'
    ∧ log s' = log s ++ entries a
    ∧ _actionsToProcess s' = rest
    ∧ queueLength s' = length rest
    ∧ _actionsExecuting s' = _actionsExecuting s
    ∧ (ident a ∉ idents (_actionsExecuting s'))
    ∧ uncaught s' = []
    ∧ _isDisposed s' = false
    ∧ (∃ h', h' ∈ (fst <$> timers s'))
    ∧ reachable s'.
Proof.
  intros Hreach Hd Hh Hq. pose proof (reachable_Inv _ Hreach) as HI.
  assert (ident a ∉ idents (_actionsExecuting s)) as Hfe.
  { intros Hin. apply (inv_started _ _ HI) in Hin.
    pose proof (NoDup_seq 0 (actionsCreated s)) as Hnd.
    rewrite <- (inv_created _ _ HI), <- (inv_fifo _ _ HI), Hq in Hnd.
    apply NoDup_app in Hnd as (_ & Hnd & _). apply (Hnd _ Hin). left. }
  assert (∃ s', run s (Tick h :: settlements a) = Some s'
    ∧ log s' = log s ++ entries a
    ∧ _actionsToProcess s' = rest
    ∧ _actionsExecuting s' = _actionsExecuting s
    ∧ _isDisposed s' = false
    ∧ (∃ h', h' ∈ (fst <$> timers s'))) as (s' & Hrun & Hl & Hq' & He & Hd' & Ht').
  2: { exists s'. pose proof (queue_reachable_run _ _ _ Hreach Hrun) as Hreach'.
       pose proof (reachable_Inv _ Hreach') as HI'.
       split_and!; try done; [unfold queueLength; by rewrite Hq'|by rewrite He|apply HI']. }
  assert (ident a ∉ reactionIds s) as Hfr.
  { intros Hin. by apply (inv_reactions _ _ HI) in Hin as [Hin _]. }
  destruct (timers_shape s HI) as [Ht|(h' & d & Ht & _ & _)].
  { rewrite Ht in Hh. by apply elem_of_nil in Hh. }
  rewrite Ht in Hh. cbn in Hh. apply list_elem_of_singleton in Hh as ->.
  destruct (tick_fires _ _ _ Ht) as [Htick Htc]. cbn in Htc.
  cbn [run]. rewrite Htick. unfold tick. cbn [_actionsToProcess clearTimeout].
  rewrite Hq. unfold settlements, entries, execute, tryCatch, andThen, call.
  destruct (_action a) as [e| |e] eqn:Ha.
  - unfold handleError, tryCatch, andThen, call.
    destruct (_errorHandler a e) as [e2| |e2] eqn:Hh.
    + completes Hd Hfe Htc.
    + settle_one a (OnHandler e) s Hfr. rewrite Hh. completes Hd Hfe Htc.
    + settle_one a (OnHandler e) s Hfr. rewrite Hh. completes Hd Hfe Htc.
  - settle_one a OnAction s Hfr. rewrite Ha. completes Hd Hfe Htc.
  - destruct (_errorHandler a e) as [e2| |e2] eqn:Hh;
      settle_one a OnAction s Hfr; rewrite Ha;
      unfold handleError, tryCatch, andThen, call; rewrite Hh.
    + completes Hd Hfe Htc.
    + settle_one a (OnHandler e) s Hfr. rewrite Hh. completes Hd Hfe Htc.
    + settle_one a (OnHandler e) s Hfr. rewrite Hh. completes Hd Hfe Htc.
Qed.

(** ** Disposal is final *)

Lemma step_keeps_disposed s ev s' :
  _isDisposed s = true → step s ev = Some s' → _isDisposed s' = true.
Proof.
  intros Hd Hstep. destruct ev as [action errorHandler|h|id|k|d]; cbn in Hstep.
  - unfold processAction in Hstep. rewrite Hd in Hstep. by injection Hstep as <-.
  - case_bool_decide; [|done]. injection Hstep as <-. unfold tick. cbn.
    destruct (_actionsToProcess s) as [|a rest].
    + unfold _initiateBackgroundProcessing. cbn. by rewrite Hd.
    + destruct (execute_quiet a TickCallback
        (setExecuting (_actionsExecuting (clearTimeout h s) ++ [a])
           (setToProcess rest (clearTimeout h s)))) as (s1 & He & Hq & _).
      cbn in He. rewrite He. cbn. by rewrite (q_disposed _ _ Hq).
  - destruct (reactionOf id s) as [r|]; [|done].
    destruct (react r (dropReaction id s)) as [c|] eqn:Hr; [|done].
    injection Hstep as <-.
    destruct (react_quiet _ _ _ Hr) as (s1 & -> & Hq & _).
    cbn. by rewrite (q_disposed _ _ Hq).
  - injection Hstep as <-. by rewrite dispose_again.
  - destruct (disposals s !! d) as [[| |]|]; try done.
    injection Hstep as <-. unfold poll. by destruct (_actionsExecuting s).
Qed.

Lemma run_keeps_disposed evs : ∀ s s',
  _isDisposed s = true → run s evs = Some s' → _isDisposed s' = true.
Proof.
  induction evs as [|ev evs IH]; cbn; intros s s' Hd Hrun.
  - by injection Hrun as <-.
  - destruct (step s ev) eqn:Hs; [|done]. eauto using step_keeps_disposed.
Qed.

(** C7: once a promise returned by [dispose] has resolved, in every later
    state a call of [processAction] throws [ObjectDisposedException],
    whatever its arguments, and the processor (its queue included) is as it
    was before the call. *)
Theorem enqueue_after_dispose_fails s d :
  reachable s →
  disposals s !! d = Some Finished →
  ∀ evs s', run s evs = Some s' →
    ∀ action errorHandler,
      processAction action errorHandler s' = inl ObjectDisposedException
      ∧ step s' (Enqueue action errorHandler) = Some s'.
Proof.
  intros Hreach Hf evs s' Hrun action errorHandler.
  assert (_isDisposed s = true) as Hd.
  { destruct (inv_disposals _ _ (reachable_Inv _ Hreach)) as [Hn|]; [|done].
    by rewrite Hn in Hf. }
  pose proof (run_keeps_disposed _ _ _ Hd Hrun) as Hd'.
  cbn. unfold processAction. by rewrite Hd'.
Qed.

(** Identities in the queue have not been started. *)
Lemma queued_not_started s a :
  Inv s → a ∈ _actionsToProcess s → ident a ∉ startedIn (log s).
Proof.
  intros [] Ha Hin. pose proof (NoDup_seq 0 (actionsCreated s)) as Hnd.
  rewrite <- inv_created0, <- inv_fifo0 in Hnd.
  apply NoDup_app in Hnd as (_ & Hnd & _). apply (Hnd _ Hin).
  by apply list_elem_of_fmap_2.
Qed.

(** C10: after [dispose(true)] on a processor that was not disposed, in
    every later state (so also once the promise has resolved) the queue holds
    the same records as at the call, none of which has been started, and
    [queueLength] is what it was; after [dispose(false)] the queue is empty in
    every later state. *)
Theorem killed_queue_keeps_its_records s :
  reachable s →
  _isDisposed s = false →
  ∀ evs s',
    (run (dispose true s) evs = Some s' →
       _actionsToProcess s' = _actionsToProcess s
       ∧ queueLength s' = queueLength s
       ∧ ∀ a, a ∈ _actionsToProcess s → ident a ∉ startedIn (log s'))
    ∧ (run (dispose false s) evs = Some s' → queueLength s' = 0).
Proof.
  intros Hreach Hd evs s'. pose proof (reachable_Inv _ Hreach) as HI. split.
  - intros Hrun.
    destruct (dispose_first true s HI Hd) as (_ & Hd1 & Ht1 & _ & _ & Hq1 & Hl1 & _).
    destruct (run_afterDisposal _ _ _ Hd1 Ht1 Hrun).
    rewrite Hq1 in ad_queue0. rewrite Hl1 in ad_started0.
    split; [done|]. split; [unfold queueLength; by rewrite ad_queue0|].
    intros a Ha. rewrite ad_started0. by apply queued_not_started.
  - intros Hrun.
    destruct (dispose_first false s HI Hd) as (_ & Hd1 & Ht1 & _ & _ & Hq1 & _).
    destruct (run_afterDisposal _ _ _ Hd1 Ht1 Hrun).
    unfold queueLength. by rewrite ad_queue0, Hq1.
Qed.

(** ** Work in flight can always finish *)

Lemma postExecute_reactions a cb s :
  reactions (postExecute a cb s) = reactions s.
Proof.
  unfold postExecute, _initiateBackgroundProcessing.
  destruct cb; [|done]. cbn. by destruct (_isDisposed s).
Qed.

Lemma react_work r s s' :
  react r s = Some (Normal s') → pendingWork s' < pendingWork s + weight r.
Proof.
  unfold react, weight, pendingWork. destruct (awaiting r) as [|error].
  - destruct (_action (subject r)) as [e| |e]; [done| |].
    + intros [= <-]. rewrite postExecute_reactions. lia.
    + unfold handleError, tryCatch, andThen, call.
      destruct (_errorHandler (subject r) e); intros [= <-];
        cbn [reactions register record setReactions];
        rewrite ?postExecute_reactions; cbn [reactions record];
        rewrite ?sum_list_with_app; cbn; lia.
  - destruct (_errorHandler (subject r) error) as [e| |e]; [done| |];
      intros [= <-]; rewrite postExecute_reactions; cbn; lia.
Qed.

Lemma filter_work (P : Reaction → Prop) `{∀ r, Decision (P r)} l :
  sum_list_with weight (filter P l) ≤ sum_list_with weight l.
Proof.
  induction l as [|r l IH]; [done|]. rewrite filter_cons.
  case_decide; cbn; lia.
Qed.

Lemma settle_head s r l :
  Inv s → reactions s = r :: l →
  ∃ s', step s (Settles (ident (subject r))) = Some s'
        ∧ pendingWork s' < pendingWork s.
Proof.
  intros HI Hr.
  assert (reactionOf (ident (subject r)) s = Some r) as Hof.
  { unfold reactionOf. rewrite Hr, filter_cons. by case_decide. }
  destruct (step_Inv_settle _ _ _ HI Hof) as (s' & Hre & _).
  exists s'. cbn [step]. rewrite Hof, Hre. split; [done|].
  apply react_work in Hre. unfold pendingWork in *. cbn in Hre.
  rewrite Hr in *. rewrite filter_cons in Hre.
  case_decide as Hne; [done|].
  pose proof (filter_work (fun x => ident (subject x) ≠ ident (subject r)) l).
  cbn. lia.
Qed.

Lemma work_can_finish n : ∀ s,
  pendingWork s ≤ n → Inv s →
  ∃ evs s', run s evs = Some s' ∧ _actionsExecuting s' = [].
Proof.
  induction n as [|n IH]; intros s Hn HI.
  - exists [], s. split; [done|].
    destruct (reactions s) as [|r l] eqn:Hr.
    + destruct (_actionsExecuting s) as [|a ex] eqn:Hex; [done|].
      assert (ident a ∈ reactionIds s) as Hin.
      { apply (inv_reactions _ _ HI). rewrite Hex. split; [left|done]. }
      rewrite Hr in Hin. by apply elem_of_nil in Hin.
    + unfold pendingWork in Hn. rewrite Hr in Hn. cbn in Hn.
      unfold weight in Hn. destruct (awaiting r); lia.
  - destruct (reactions s) as [|r l] eqn:Hr.
    + exists [], s. split; [done|].
      destruct (_actionsExecuting s) as [|a ex] eqn:Hex; [done|].
      assert (ident a ∈ reactionIds s) as Hin.
      { apply (inv_reactions _ _ HI). rewrite Hex. split; [left|done]. }
      rewrite Hr in Hin. by apply elem_of_nil in Hin.
    + destruct (settle_head s r l HI Hr) as (s1 & Hs & Hlt).
      destruct (IH s1) as (evs & s' & Hrun & Hex); [lia|by eapply step_Inv|].
      exists (Settles (ident (subject r)) :: evs), s'. cbn [run]. by rewrite Hs.
Qed.

(** ** dispose *)

Lemma resolved_means_done s1 evs s' l x :
  _isDisposed s1 = true → timers s1 = [] →
  disposals s1 = l ++ [x] →
  (x = Finished ∧ _actionsExecuting s1 = [] ∨ x = Waiting) →
  run s1 evs = Some s' →
  disposals s' !! length l = Some Finished →
  _actionsExecuting s' = []
  ∧ ∀ id, id ∈ idents (_actionsExecuting s1) ∨ id ∈ completedIn (log s1) →
          id ∈ completedIn (log s').
Proof.
  intros Hd Ht Hdl Hx Hrun Hf. destruct (run_afterDisposal _ _ _ Hd Ht Hrun).
  assert (_actionsExecuting s' = []) as Hex.
  { destruct (ad_resolves0 (length l)) as [H|H]; [|done| |done].
    { rewrite Hdl, length_app. cbn. lia. }
    rewrite Hdl, lookup_app_r, Nat.sub_diag in H by lia. injection H as ->.
    destruct Hx as [[_ Hex]|]; [|done].
    destruct (_actionsExecuting s') as [|a ex] eqn:Hex'; [done|].
    specialize (ad_no_new0 (ident a)). rewrite Hex in ad_no_new0.
    exfalso. eapply elem_of_nil, ad_no_new0. left. }
  split; [done|]. intros id [Hin|Hin]; [|auto].
  destruct (ad_executing0 id Hin) as [H|H]; [|done].
  rewrite Hex in H. by apply elem_of_nil in H.
Qed.

Lemma dispose_can_resolve k s :
  Inv s → _isDisposed s = false →
  ∃ evs s', run (dispose k s) evs = Some s'
            ∧ disposals s' !! length (disposals s) = Some Finished.
Proof.
  intros HI Hd.
  destruct (dispose_first k s HI Hd) as (HI1 & Hd1 & Ht1 & (x & Hdl & Hx) & _).
  destruct (work_can_finish _ (dispose k s) (Nat.le_refl _) HI1)
    as (evs & s2 & Hrun & Hex).
  destruct (run_afterDisposal _ _ _ Hd1 Ht1 Hrun).
  assert (disposals (dispose k s) !! length (disposals s) = Some x) as Hlx.
  { by rewrite Hdl, lookup_app_r, Nat.sub_diag by lia. }
  assert (disposals s2 !! length (disposals s) = Some Finished
          ∨ disposals s2 !! length (disposals s) = Some Waiting) as [Hf|Hw].
  { destruct Hx as [[-> _]| ->]; [left; auto|].
    destruct (ad_waiting0 _ Hlx); auto. }
  - by exists evs, s2.
  - exists (evs ++ [PollElapsed (length (disposals s))]).
    eexists. rewrite queue_run_app, Hrun. cbn [run step]. rewrite Hw.
    unfold poll. rewrite Hex. split; [done|]. cbn.
    apply list_lookup_insert_eq. by eapply lookup_lt_Some.
Qed.

(** C3: on a processor that is not yet disposed.  [dispose(false)] empties
    the queue at once, starting every record that was in it, in order; in any
    later state in which its promise is resolved, nothing is executing and
    every record that was queued or executing at the call has completed.
    After [dispose(true)] no record that was queued at the call is ever
    started, and when its promise is resolved every record that was
    executing at the call has completed.  In both cases the promise can
    resolve: some sequence of settlements and polls resolves it. *)
Theorem dispose_waits_for_the_work_in_flight s :
  reachable s →
  _isDisposed s = false →
  let d := length (disposals s) in
  (_actionsToProcess (dispose false s) = []
   ∧ startedIn (log (dispose false s))
     = startedIn (log s) ++ idents (_actionsToProcess s)
   ∧ ∀ evs s', run (dispose false s) evs = Some s' →
       disposals s' !! d = Some Finished →
       _actionsExecuting s' = []
       ∧ ∀ a, a ∈ _actionsToProcess s ++ _actionsExecuting s →
              ident a ∈ completedIn (log s'))
  ∧ (∀ evs s', run (dispose true s) evs = Some s' →
       (∀ a, a ∈ _actionsToProcess s → ident a ∉ startedIn (log s'))
       ∧ (disposals s' !! d = Some Finished →
            _actionsExecuting s' = []
            ∧ ∀ a, a ∈ _actionsExecuting s → ident a ∈ completedIn (log s')))
  ∧ ∀ killQueue, ∃ evs s',
      run (dispose killQueue s) evs = Some s'
      ∧ disposals s' !! d = Some Finished.
Proof.
  intros Hreach Hd d. pose proof (reachable_Inv _ Hreach) as HI.
  split; [|split].
  - destruct (dispose_first false s HI Hd)
      as (_ & Hd1 & Ht1 & (x & Hdl & Hx) & _ & Hq1 & Hs1 & He1).
    split; [done|]. split; [done|]. intros evs s' Hrun Hf.
    destruct (resolved_means_done _ _ _ _ _ Hd1 Ht1 Hdl Hx Hrun Hf) as [Hex Hall].
    split; [done|]. intros a Ha. apply Hall, He1.
    apply list_elem_of_fmap_2. rewrite elem_of_app in *. tauto.
  - intros evs s' Hrun.
    destruct (dispose_first true s HI Hd)
      as (_ & Hd1 & Ht1 & (x & Hdl & Hx) & _ & Hq1 & Hl1 & He1).
    split.
    + destruct (run_afterDisposal _ _ _ Hd1 Ht1 Hrun).
      intros a Ha. rewrite ad_started0, Hl1. by apply queued_not_started.
    + intros Hf.
      destruct (resolved_means_done _ _ _ _ _ Hd1 Ht1 Hdl Hx Hrun Hf) as [Hex Hall].
      split; [done|]. intros a Ha. apply Hall. left. rewrite He1.
      by apply list_elem_of_fmap_2.
  - intros k. by apply dispose_can_resolve.
Qed.

(** ** Concrete runs *)

Lemma queue_reachable_after evs :
  (if run (constructed quietly 0 true) evs is Some _ then true else false) = true →
  reachable (afterRun evs).
Proof.
  intros H. exists quietly, 0%Z, true, (constructed quietly 0 true), evs.
  split; [done|]. unfold afterRun. by destruct (run _ evs).
Qed.

Lemma dispose_waits_for_the_work_in_flight_witness :
  let s := afterRun (threeActions ++ [Tick 0]) in
  let d := length (disposals s) in
  (_actionsToProcess (dispose false s) = []
   ∧ startedIn (log (dispose false s))
     = startedIn (log s) ++ idents (_actionsToProcess s)
   ∧ ∀ evs s', run (dispose false s) evs = Some s' →
       disposals s' !! d = Some Finished →
       _actionsExecuting s' = []
       ∧ ∀ a, a ∈ _actionsToProcess s ++ _actionsExecuting s →
              ident a ∈ completedIn (log s'))
  ∧ (∀ evs s', run (dispose true s) evs = Some s' →
       (∀ a, a ∈ _actionsToProcess s → ident a ∉ startedIn (log s'))
       ∧ (disposals s' !! d = Some Finished →
            _actionsExecuting s' = []
            ∧ ∀ a, a ∈ _actionsExecuting s → ident a ∈ completedIn (log s')))
  ∧ ∀ killQueue, ∃ evs s',
      run (dispose killQueue s) evs = Some s'
      ∧ disposals s' !! d = Some Finished.
Proof.
  apply (dispose_waits_for_the_work_in_flight (afterRun (threeActions ++ [Tick 0]))).
  - apply queue_reachable_after. vm_compute. reflexivity.
  - vm_compute. reflexivity.
Defined.

Lemma failures_do_not_stop_the_queue_witness :
  let s := afterRun (threeActions ++ [Tick 0; Settles 0; Tick 1; Settles 1]) in
  let a := {| ident := 2; _action := Rejects "r";
              _errorHandler := fun _ => Throws "t" |} in
  ∃ s',
    run s (Tick 2 :: settlements a) = Some s'
    ∧ log s' = log s ++ entries a
    ∧ _actionsToProcess s' = []
    ∧ queueLength s' = length (@nil Action)
    ∧ _actionsExecuting s' = _actionsExecuting s
    ∧ (ident a ∉ idents (_actionsExecuting s'))
    ∧ uncaught s' = []
    ∧ _isDisposed s' = false
    ∧ (∃ h', h' ∈ (fst <$> timers s'))
    ∧ reachable s'.
Proof.
  apply (failures_do_not_stop_the_queue
           (afterRun (threeActions ++ [Tick 0; Settles 0; Tick 1; Settles 1])) 2).
  - apply queue_reachable_after. vm_compute. reflexivity.
  - vm_compute. reflexivity.
  - vm_compute. left.
  - vm_compute. reflexivity.
Defined.

Lemma enqueue_after_dispose_fails_witness :
  let s := afterRun (threeActions
                     ++ [Tick 0; Dispose true; Settles 0; PollElapsed 0]) in
  processAction (Some Resolves) None s = inl ObjectDisposedException
  ∧ step s (Enqueue (Some Resolves) None) = Some s.
Proof.
  apply (enqueue_after_dispose_fails
           (afterRun (threeActions
                      ++ [Tick 0; Dispose true; Settles 0; PollElapsed 0]))
           0) with (evs := []).
  - apply queue_reachable_after. vm_compute. reflexivity.
  - vm_compute. reflexivity.
  - reflexivity.
Defined.

Lemma killed_queue_keeps_its_records_witness :
  let s := afterRun (threeActions ++ [Tick 0]) in
  let s' := afterRun (threeActions ++ [Tick 0; Dispose true; Settles 0]) in
  _actionsToProcess s' = _actionsToProcess s
  ∧ queueLength s' = queueLength s
  ∧ ∀ a, a ∈ _actionsToProcess s → ident a ∉ startedIn (log s').
Proof.
  apply (killed_queue_keeps_its_records
           (afterRun (threeActions ++ [Tick 0]))) with (evs := [Settles 0]).
  - apply queue_reachable_after. vm_compute. reflexivity.
  - vm_compute. reflexivity.
  - vm_compute. reflexivity.
Defined.

(** The three records, drained by the timer and then disposed: each starts
    after the one before it, the two failures are handled and reported, and
    the promise of [dispose] resolves at once because nothing is executing. *)
Example drained_then_disposed :
  let s := afterRun (threeActions
                  ++ [Tick 0; Settles 0; Tick 1; Settles 1; Tick 2; Settles 2;
                      Tick 3; Dispose false]) in
  log s = [Enqueued 0; Enqueued 1; Enqueued 2;
           Started 0; Completed 0;
           Started 1; Handled 1 "a"; ConsoleError "h"; Completed 1;
           Started 2; Handled 2 "r"; ConsoleError "t"; Completed 2]
  ∧ disposals s = [Finished] ∧ queueLength s = 0 ∧ uncaught s = [].
Proof. vm_compute. repeat split. Qed.

(** The same records, one started, then [dispose(false)]: the other two are
    started in order by [dispose], whose promise resolves at the first poll
    after the last of the three has completed; a later [processAction]
    changes nothing. *)
Example disposed_while_busy :
  let s := afterRun (threeActions
                  ++ [Tick 0; Dispose false; Settles 2; Settles 1;
                      PollElapsed 0; Settles 0; PollElapsed 0;
                      Enqueue (Some Resolves) None]) in
  startedIn (log s) = [0; 1; 2]
  ∧ completedIn (log s) = [2; 1; 0]
  ∧ disposals s = [Finished] ∧ queueLength s = 0
  ∧ disposals (afterRun (threeActions
                      ++ [Tick 0; Dispose false; Settles 2; Settles 1;
                          PollElapsed 0])) = [Waiting].
Proof. vm_compute. repeat split. Qed.

(** One started, then [dispose(true)]: the two queued records stay in the
    queue and are never started; the promise resolves once the started one
    has completed. *)
Example killed_while_busy :
  let s := afterRun (threeActions ++ [Tick 0; Dispose true; Settles 0; PollElapsed 0]) in
  startedIn (log s) = [0] ∧ idents (_actionsToProcess s) = [1; 2]
  ∧ queueLength s = 2 ∧ disposals s = [Finished].
Proof. vm_compute. repeat split. Qed.

(* --------------------------------------------------------------------- *)
(** ** Further properties of the processor *)

Lemma postExecute_over a cb s s0 :
  reactions s = reactions s0 → timers s = timers s0 →
  timersCreated s = timersCreated s0 → nextDelay s = nextDelay s0 →
  _isDisposed s = _isDisposed s0 →
  _actionsExecuting s = _actionsExecuting s0 →
  completedIn (log s) = completedIn (log s0) →
  Outcome a cb s0 (postExecute a cb s).
Proof.
  intros Hr Ht Hc Hn Hd He Hl. apply Over.
  - by rewrite postExecute_reactions.
  - unfold postExecute, _initiateBackgroundProcessing, timersAfter.
    destruct cb; cbn; [|done]. rewrite <- Hd.
    destruct (_isDisposed s); cbn; [done|].
    by rewrite Ht, Hc, <- Hn.
  - unfold postExecute, _initiateBackgroundProcessing.
    destruct cb; cbn; [|by rewrite He]. destruct (_isDisposed s); cbn; by rewrite He.
  - unfold postExecute, _initiateBackgroundProcessing.
    destruct cb; cbn; [destruct (_isDisposed s); cbn|];
      by rewrite completedIn_snoc, Hl.
Qed.

Lemma handleError_outcome a cb e s s0 :
  reactions s = reactions s0 → timers s = timers s0 →
  timersCreated s = timersCreated s0 → nextDelay s = nextDelay s0 →
  _isDisposed s = _isDisposed s0 →
  _actionsExecuting s = _actionsExecuting s0 →
  completedIn (log s) = completedIn (log s0) →
  ∃ s', handleError a cb e s = Normal s' ∧ Outcome a cb s0 s'.
Proof.
  intros Hr Ht Hc Hn Hd He Hl. unfold handleError, tryCatch, andThen, call.
  destruct (_errorHandler a e) as [e2| |e2]; eexists; (split; [done|]).
  - apply postExecute_over; cbn; try done.
    by rewrite !completedIn_snoc, !app_nil_r.
  - eapply Parked; cbn; rewrite ?completedIn_snoc, ?app_nil_r; try done.
    by rewrite Hr.
  - eapply Parked; cbn; rewrite ?completedIn_snoc, ?app_nil_r; try done.
    by rewrite Hr.
Qed.

Lemma execute_outcome a cb s :
  ∃ s', execute a cb s = Normal s' ∧ Outcome a cb s s'.
Proof.
  unfold execute, tryCatch, andThen, call.
  destruct (_action a) as [e| |e].
  - apply handleError_outcome; cbn; try done.
    by rewrite completedIn_snoc, app_nil_r.
  - eexists. split; [done|].
    eapply Parked; cbn; rewrite ?completedIn_snoc, ?app_nil_r; done.
  - eexists. split; [done|].
    eapply Parked; cbn; rewrite ?completedIn_snoc, ?app_nil_r; done.
Qed.

Lemma react_outcome r s c :
  react r s = Some c →
  ∃ s', c = Normal s' ∧ Outcome (subject r) (postExecuteCallback r) s s'.
Proof.
  unfold react. destruct (awaiting r) as [|error].
  - destruct (_action (subject r)) as [e| |e]; [done| |]; intros [= <-].
    + eexists. split; [done|]. by apply postExecute_over.
    + by apply handleError_outcome.
  - destruct (_errorHandler (subject r) error) as [e| |e]; [done| |];
      intros [= <-]; (eexists; split; [done|]).
    + by apply postExecute_over.
    + apply postExecute_over; cbn; try done.
      by rewrite completedIn_snoc, app_nil_r.
Qed.

Lemma nextDelay_policy s :
  nextDelay s = _breakIntervalMilliseconds (config s)
  ∨ (nextDelay s = 0%Z ∧ _breakOnlyWhenNoWork (config s) = true
     ∧ _actionsToProcess s ≠ []).
Proof.
  unfold nextDelay. destruct (_breakOnlyWhenNoWork (config s)); cbn; [|by left].
  destruct (_actionsToProcess s); cbn; [by left|by right].
Qed.

Lemma new_Live handler interval onlyWhenNoWork s :
  new handler interval onlyWhenNoWork = inr s → Live s.
Proof.
  unfold new. case_match; [|done]. intros [= <-].
  unfold constructed, _initiateBackgroundProcessing. cbn.
  rewrite andb_false_r. constructor; cbn; try done.
  - intros h d [= _ ->]%list_elem_of_singleton. by left.
Qed.

(** A callback chain started on a processor with no timer and no other
    record waiting. *)
Lemma Outcome_Live a cb s s' :
  Outcome a cb s s' → quiet s s' →
  timers s = [] → reactions s = [] →
  (_isDisposed s = false → cb = TickCallback) →
  (∀ d e, disposals s !! d ≠ Some (Failed e)) →
  Live s'.
Proof.
  intros Ho [] Ht Hr Hcb Hp.
  assert (∀ h d, (h, d) ∈ timersAfter cb s →
            d = _breakIntervalMilliseconds (config s')
            ∨ (d = 0%Z ∧ _breakOnlyWhenNoWork (config s') = true
               ∧ _actionsToProcess s' ≠ [])) as Hdelay.
  { intros h d. unfold timersAfter. rewrite Ht, q_config0, q_queue0.
    destruct cb; [|by intros ?%elem_of_nil].
    destruct (_isDisposed s); [by intros ?%elem_of_nil|].
    intros [= _ ->]%list_elem_of_singleton. apply nextDelay_policy. }
  destruct Ho as [w Hr' Ht' _ _|Hr' Ht' _ _]; constructor;
    rewrite ?q_disposed0, ?q_disposals0, ?Hr', ?Ht', ?Hr, ?Ht; try done.
  - intros Hd. cbn. split; [done|]. apply Forall_singleton. by apply Hcb.
  - by intros ? ? ?%elem_of_nil.
  - intros Hd. unfold timersAfter. rewrite (Hcb Hd), Hd, Ht. done.
  - intros Hd. unfold timersAfter. rewrite Hd, Ht. by destruct cb.
Qed.

Lemma Live_lookup_snoc (l : list Disposal) x :
  (∀ d e, l !! d ≠ Some (Failed e)) → (∀ e, x ≠ Failed e) →
  ∀ d e, (l ++ [x]) !! d ≠ Some (Failed e).
Proof.
  intros Hl Hx d e [H|[_ H]]%lookup_app_Some; [by eapply Hl|].
  apply list_lookup_singleton_Some in H as [_ ->]. by eapply Hx.
Qed.

Lemma step_Live s ev s' : Inv s → Live s → step s ev = Some s' → Live s'.
Proof.
  intros HI HL Hstep.
  destruct ev as [action errorHandler|h|id|k|d]; cbn [step] in Hstep.
  - unfold processAction in Hstep.
    destruct (_isDisposed s) eqn:Hd; [by injection Hstep as <-|].
    destruct action as [act|]; [|by injection Hstep as <-].
    injection Hstep as <-. pose proof HL as [Hloop Hoff Hdelay Hprom].
    constructor; cbn; try done.
    intros h d Hin. destruct (Hdelay h d Hin) as [?|(? & ? & _)]; [by left|].
    right. split_and!; [done|done|]. by destruct (_actionsToProcess s).
  - case_bool_decide as Hh; [|done]. injection Hstep as <-.
    destruct (_isDisposed s) eqn:Hd; pose proof HL as [Hloop Hoff Hdelay Hprom].
    { rewrite Hoff in Hh by done. by apply elem_of_nil in Hh. }
    destruct (Hloop Hd) as [Hone _].
    destruct (timers_shape s HI) as [Ht|(h' & d & Ht & _ & _)].
    { rewrite Ht in Hh. by apply elem_of_nil in Hh. }
    rewrite Ht in Hh, Hone. cbn in Hh, Hone.
    apply list_elem_of_singleton in Hh as ->.
    assert (reactions s = []) as Hr by (destruct (reactions s); [done|cbn in *; lia]).
    assert (timers (clearTimeout h' s) = []) as Ht0 by (by apply (tick_fires h' d)).
    unfold tick. destruct (_actionsToProcess (clearTimeout h' s)) as [|a rest] eqn:Hq.
    + unfold _initiateBackgroundProcessing. cbn [_isDisposed clearTimeout].
      rewrite Hd. cbn in Hq. constructor; cbn -[filter]; rewrite ?Hr, ?Hq, ?Hd; try done.
      * intros _. change (filter _ (timers s)) with (timers (clearTimeout h' s)).
        by rewrite Ht0.
      * intros h d0. change (filter _ (timers s)) with (timers (clearTimeout h' s)).
        rewrite Ht0, andb_false_r.
        intros [= _ ->]%list_elem_of_singleton. by left.
    + set (p := setExecuting _ _).
      destruct (execute_outcome a TickCallback p) as (s1 & He & Ho).
      destruct (execute_quiet a TickCallback p) as (s1' & He' & Hq1 & _).
      rewrite He in He'. injection He' as <-. rewrite He. cbn [hostCall].
      by apply (Outcome_Live a TickCallback p).
  - destruct (reactionOf id s) as [r|] eqn:Hro; [|done].
    destruct (react r (dropReaction id s)) as [c|] eqn:Hr; [|done].
    injection Hstep as <-.
    destruct (react_outcome _ _ _ Hr) as (s1 & -> & Ho).
    destruct (react_quiet _ _ _ Hr) as (s1' & [= <-] & Hq1 & _).
    cbn [hostCall]. apply reactionOf_Some in Hro as [Hin Hid].
    destruct (_isDisposed s) eqn:Hd; pose proof HL as [Hloop Hoff Hdelay Hprom].
    + pose proof (Hoff Hd) as Ht. destruct Hq1.
      constructor; rewrite ?q_disposed0, ?q_disposals0; cbn; rewrite ?Hd; try done.
      * intros _. destruct Ho as [w _ -> _ _|_ -> _ _]; [done|].
        unfold timersAfter. cbn. rewrite Hd. by destruct (postExecuteCallback r).
      * intros h d. destruct Ho as [w _ -> _ _|_ -> _ _]; cbn.
        -- rewrite Ht. by intros ?%elem_of_nil.
        -- unfold timersAfter. cbn. rewrite Hd, Ht.
           destruct (postExecuteCallback r); by intros ?%elem_of_nil.
    + destruct (Hloop Hd) as [Hone Htick].
      destruct (reactions s) as [|r' [|r'' l]] eqn:Hrs;
        [by apply elem_of_nil in Hin| |cbn in Hone; lia].
      apply list_elem_of_singleton in Hin as ->.
      assert (timers s = []) as Ht by (destruct (timers s); [done|cbn in *; lia]).
      rewrite Forall_singleton in Htick.
      apply (Outcome_Live _ _ _ _ Ho Hq1); cbn; rewrite ?Hrs; try done.
      rewrite filter_cons, filter_nil. by case_decide.
  - injection Hstep as <-.
    destruct (_isDisposed s) eqn:Hd; pose proof HL as [Hloop Hoff Hdelay Hprom].
    + rewrite dispose_again by done. constructor; cbn; try done.
      by apply Live_lookup_snoc.
    + destruct (dispose_first k s HI Hd) as (_ & Hd1 & Ht1 & (x & Hx & Hx') & _).
      constructor; rewrite ?Hd1, ?Ht1; try done.
      * by intros ? ? ?%elem_of_nil.
      * rewrite Hx. apply Live_lookup_snoc; [done|].
        intros e. destruct Hx' as [[-> _]| ->]; done.
  - destruct (disposals s !! d) as [[| |]|] eqn:Hdd; try done.
    injection Hstep as <-. unfold poll. pose proof HL as [Hloop Hoff Hdelay Hprom].
    destruct (_actionsExecuting s); [|done]. constructor; cbn; try done.
    intros d' e. destruct (decide (d = d')) as [->|Hne].
    + rewrite list_lookup_insert_eq by (by eapply lookup_lt_Some). done.
    + rewrite list_lookup_insert_ne by done. apply Hprom.
Qed.

Lemma reachable_Live s : reachable s → Inv s ∧ Live s.
Proof.
  intros (handler & interval & b & s0 & evs & Hnew & Hrun).
  pose proof (new_Inv _ _ _ _ Hnew) as HI. pose proof (new_Live _ _ _ _ Hnew) as HL.
  clear Hnew. revert s0 HI HL Hrun.
  induction evs as [|ev evs IH]; cbn; intros s0 HI HL Hrun.
  - by injection Hrun as <-.
  - destruct (step s0 ev) as [s1|] eqn:Hs; [|done].
    eapply IH; [| |exact Hrun]; [by eapply step_Inv|by eapply step_Live].
Qed.

(** ** The life of a record *)

Lemma remove_perm a l :
  ident a ∈ idents l → idents l ≡ₚ ident a :: idents (remove a l).
Proof.
  induction l as [|x l IH]; cbn; [by intros ?%elem_of_nil|].
  intros Hin. destruct (Nat.eqb_spec (ident x) (ident a)) as [->|Hne]; [done|].
  apply elem_of_cons in Hin as [Heq|Hin]; [congruence|].
  cbn. rewrite (IH Hin) at 1. apply Permutation_swap.
Qed.

Lemma Outcome_Lifecycle a cb s0 s s' :
  Lifecycle s0 → Outcome a cb s s' →
  log s = log s0 → _actionsExecuting s = _actionsExecuting s0 →
  startedIn (log s') = startedIn (log s) →
  ident a ∈ idents (_actionsExecuting s0) →
  Lifecycle s'.
Proof.
  unfold Lifecycle. intros HL Ho Hl He Hs Hin.
  destruct Ho as [w _ _ -> ->| _ _ -> ->]; rewrite Hs, Hl, He; [done|].
  rewrite HL, (remove_perm a _ Hin), <- app_assoc. done.
Qed.

(** A record is moved from the queue to [_actionsExecuting] and executed. *)
Lemma start_Lifecycle a cb rest s s1 :
  Lifecycle s →
  execute a cb (setExecuting (_actionsExecuting s ++ [a]) (setToProcess rest s))
  = Normal s1 →
  Lifecycle s1.
Proof.
  unfold Lifecycle. intros HL He. set (p := setExecuting _ _) in He.
  destruct (execute_outcome a cb p) as (s1' & He' & Ho).
  destruct (execute_quiet a cb p) as (s1'' & He'' & _ & Hs).
  rewrite He in He', He''. injection He' as <-. injection He'' as <-.
  rewrite Hs. subst p. cbn in *.
  destruct Ho as [w _ _ -> ->| _ _ -> ->]; cbn.
  - rewrite HL, fmap_app, app_assoc. done.
  - assert (ident a ∈ idents (_actionsExecuting s ++ [a])) as Hin.
    { rewrite fmap_app, elem_of_app. right. left. }
    rewrite HL, <- !app_assoc. apply Permutation_app_head. cbn.
    rewrite <- (remove_perm a _ Hin). by rewrite fmap_app.
Qed.

Lemma drain_Lifecycle fuel : ∀ s s',
  Lifecycle s → drain fuel s = Normal s' → Lifecycle s'.
Proof.
  induction fuel as [|fuel IH]; cbn; intros s s' HL Hd; [by injection Hd as <-|].
  destruct (_actionsToProcess s) as [|a rest]; [by injection Hd as <-|].
  set (p := setExecuting _ _) in Hd.
  destruct (execute_outcome a DisposeCallback p) as (s1 & He & _).
  rewrite He in Hd. cbn in Hd. eapply IH; [|exact Hd].
  by eapply start_Lifecycle.
Qed.

Lemma drain_returns fuel : ∀ s, ∃ s', drain fuel s = Normal s'.
Proof.
  induction fuel as [|fuel IH]; cbn; intros s; [by eexists|].
  destruct (_actionsToProcess s) as [|a rest]; [by eexists|].
  set (p := setExecuting _ _).
  destruct (execute_outcome a DisposeCallback p) as (s1 & -> & _). cbn. apply IH.
Qed.

Lemma poll_Lifecycle d s : Lifecycle s → Lifecycle (poll d s).
Proof. unfold poll. by destruct (_actionsExecuting s) eqn:He. Qed.

Lemma step_Lifecycle s ev s' :
  Inv s → Lifecycle s → step s ev = Some s' → Lifecycle s'.
Proof.
  intros HI HL Hstep.
  destruct ev as [action errorHandler|h|id|k|d]; cbn [step] in Hstep.
  - unfold processAction in Hstep.
    destruct (_isDisposed s); [by injection Hstep as <-|].
    destruct action as [act|]; [|by injection Hstep as <-].
    injection Hstep as <-. unfold Lifecycle in *. cbn.
    by rewrite startedIn_snoc, completedIn_snoc, !app_nil_r.
  - case_bool_decide as Hh; [|done]. injection Hstep as <-.
    unfold tick. destruct (_actionsToProcess (clearTimeout h s)) as [|a rest] eqn:Hq.
    + unfold _initiateBackgroundProcessing.
      by destruct (_isDisposed (clearTimeout h s)).
    + set (p := setExecuting _ _).
      destruct (execute_outcome a TickCallback p) as (s1 & He & _).
      rewrite He. cbn [hostCall].
      by apply (start_Lifecycle a TickCallback rest (clearTimeout h s)).
  - destruct (reactionOf id s) as [r|] eqn:Hro; [|done].
    destruct (react r (dropReaction id s)) as [c|] eqn:Hr; [|done].
    injection Hstep as <-.
    destruct (react_outcome _ _ _ Hr) as (s1 & -> & Ho).
    destruct (react_quiet _ _ _ Hr) as (s1' & [= <-] & _ & Hs).
    cbn [hostCall]. apply reactionOf_Some in Hro as [Hin Hid].
    apply (Outcome_Lifecycle _ _ s _ _ HL Ho); try done.
    apply (inv_reactions _ _ HI).
    by apply list_elem_of_fmap_2, list_elem_of_fmap_2.
  - injection Hstep as <-. unfold dispose.
    cbn [_isDisposed setDisposals]. destruct (_isDisposed s) eqn:Hd; [done|].
    set (s2 := match _timeout _ with Some h => _ | None => _ end).
    assert (Lifecycle s2) as HL2 by (subst s2; cbn; by destruct (_timeout s)).
    destruct k; cbn [negb]; [by apply poll_Lifecycle|].
    destruct (drain _ s2) as [s3|e s3] eqn:Hdr.
    + apply poll_Lifecycle. by eapply drain_Lifecycle.
    + destruct (drain_returns (length (_actionsToProcess s2)) s2) as [? Hn].
      by rewrite Hn in Hdr.
  - destruct (disposals s !! d) as [[| |]|]; try done.
    injection Hstep as <-. by apply poll_Lifecycle.
Qed.

Lemma reachable_Lifecycle s : reachable s → Lifecycle s.
Proof.
  intros (handler & interval & b & s0 & evs & Hnew & Hrun).
  pose proof (new_Inv _ _ _ _ Hnew) as HI.
  assert (Lifecycle s0) as HL.
  { revert Hnew. unfold new. case_match; [|done]. intros [= <-].
    unfold Lifecycle. vm_compute. constructor. }
  clear Hnew. revert s0 HI HL Hrun.
  induction evs as [|ev evs IH]; cbn; intros s0 HI HL Hrun.
  - by injection Hrun as <-.
  - destruct (step s0 ev) as [s1|] eqn:Hs; [|done].
    eapply IH; [| |exact Hrun]; [by eapply step_Inv|by eapply step_Lifecycle].
Qed.

(** ** The configuration never changes *)

Lemma drain_config fuel : ∀ s s', drain fuel s = Normal s' → config s' = config s.
Proof.
  induction fuel as [|fuel IH]; cbn; intros s s' Hd; [by injection Hd as <-|].
  destruct (_actionsToProcess s) as [|a rest]; [by injection Hd as <-|].
  set (p := setExecuting _ _) in Hd.
  destruct (execute_quiet a DisposeCallback p) as (s1 & He & Hq & _).
  rewrite He in Hd. cbn in Hd. rewrite (IH _ _ Hd). by destruct Hq.
Qed.

Lemma poll_config d s : config (poll d s) = config s.
Proof. unfold poll. by destruct (_actionsExecuting s). Qed.

Lemma step_config s ev s' : step s ev = Some s' → config s' = config s.
Proof.
  intros Hstep.
  destruct ev as [action errorHandler|h|id|k|d]; cbn [step] in Hstep.
  - unfold processAction in Hstep.
    destruct (_isDisposed s); [by injection Hstep as <-|].
    destruct action as [act|]; by injection Hstep as <-.
  - case_bool_decide as Hh; [|done]. injection Hstep as <-.
    unfold tick. destruct (_actionsToProcess (clearTimeout h s)) as [|a rest].
    + unfold _initiateBackgroundProcessing.
      by destruct (_isDisposed (clearTimeout h s)).
    + set (p := setExecuting _ _).
      destruct (execute_quiet a TickCallback p) as (s1 & -> & Hq & _).
      cbn [hostCall]. by destruct Hq.
  - destruct (reactionOf id s) as [r|]; [|done].
    destruct (react r (dropReaction id s)) as [c|] eqn:Hr; [|done].
    injection Hstep as <-.
    destruct (react_quiet _ _ _ Hr) as (s1 & -> & Hq & _). by destruct Hq.
  - injection Hstep as <-. unfold dispose.
    cbn [_isDisposed setDisposals]. destruct (_isDisposed s); [done|].
    set (s2 := match _timeout _ with Some h => _ | None => _ end).
    assert (config s2 = config s) as H2 by (subst s2; cbn; by destruct (_timeout s)).
    destruct k; cbn [negb]; [by rewrite poll_config|].
    destruct (drain_returns (length (_actionsToProcess s2)) s2) as [s3 Hd].
    rewrite Hd, poll_config, (drain_config _ _ _ Hd). done.
  - destruct (disposals s !! d) as [[| |]|]; try done.
    injection Hstep as <-. apply poll_config.
Qed.

Lemma run_config evs : ∀ s s', run s evs = Some s' → config s' = config s.
Proof.
  induction evs as [|ev evs IH]; cbn; intros s s' Hrun; [by injection Hrun as <-|].
  destruct (step s ev) as [s1|] eqn:Hs; [|done].
  by rewrite (IH _ _ Hrun), (step_config _ _ _ Hs).
Qed.

(** ** [dispose(false)] starts the whole queue *)

Lemma execute_parks a cb s :
  (∀ e, _action a ≠ Throws e) →
  ∃ s', execute a cb s = Normal s' ∧ _actionsExecuting s' = _actionsExecuting s.
Proof.
  intros Hn. unfold execute, tryCatch, andThen, call.
  destruct (_action a) as [e| |e]; [by destruct (Hn e)| |]; by eexists.
Qed.

Lemma drain_keeps_executing fuel : ∀ s s' id,
  id ∈ idents (_actionsExecuting s) → id ∉ idents (_actionsToProcess s) →
  drain fuel s = Normal s' → id ∈ idents (_actionsExecuting s').
Proof.
  induction fuel as [|fuel IH]; cbn; intros s s' id Hin Hq Hd;
    [by injection Hd as <-|].
  destruct (_actionsToProcess s) as [|a rest] eqn:Hqs; [by injection Hd as <-|].
  set (p := setExecuting _ _) in Hd.
  destruct (execute_outcome a DisposeCallback p) as (s1 & He & Ho).
  destruct (execute_quiet a DisposeCallback p) as (s1' & He' & Hq1 & _).
  rewrite He in He'. injection He' as <-. rewrite He in Hd. cbn in Hd.
  cbn in Hq. apply not_elem_of_cons in Hq as [Hne Hq].
  apply (IH s1 s' id); [| |done].
  - assert (id ∈ idents (_actionsExecuting p)) as Hp.
    { subst p. cbn. rewrite fmap_app, elem_of_app. by left. }
    destruct Ho as [w _ _ -> _| _ _ -> _]; [done|]. by apply remove_other.
  - destruct Hq1. by rewrite q_queue0.
Qed.

Lemma drain_starts_all fuel : ∀ s s',
  NoDup (idents (_actionsToProcess s)) →
  length (_actionsToProcess s) ≤ fuel →
  drain fuel s = Normal s' →
  ∀ a, a ∈ _actionsToProcess s → (∀ e, _action a ≠ Throws e) →
       ident a ∈ idents (_actionsExecuting s').
Proof.
  induction fuel as [|fuel IH]; cbn; intros s s' Hnd Hlen Hd a Ha Hn.
  { destruct (_actionsToProcess s); [by apply elem_of_nil in Ha|cbn in Hlen; lia]. }
  destruct (_actionsToProcess s) as [|b rest] eqn:Hqs; [by apply elem_of_nil in Ha|].
  set (p := setExecuting _ _) in Hd. cbn in Hnd, Hlen.
  apply NoDup_cons in Hnd as [Hb Hnd].
  destruct (execute_quiet b DisposeCallback p) as (s1 & He & Hq1 & _).
  rewrite He in Hd. cbn in Hd. destruct Hq1.
  apply elem_of_cons in Ha as [->|Ha].
  - destruct (execute_parks b DisposeCallback p Hn) as (s1' & He' & Hex).
    rewrite He in He'. injection He' as <-.
    apply (drain_keeps_executing fuel s1 s'); [| |done].
    + rewrite Hex. subst p. cbn. rewrite fmap_app, elem_of_app. right. left.
    + by rewrite q_queue0.
  - apply (IH s1 s'); rewrite ?q_queue0; try done. cbn. lia.
Qed.

(** ** Properties of every reachable processor *)

(** X9: Until [dispose] is called the processor is in one of two shapes: one
    timer is armed, [_timeout] holds its handle and nothing is executing; or
    no timer is armed and exactly one record is executing, started by the
    timer callback, whose completion arms the next timer.  So the timer
    callback never runs while a record is executing, and the loop never
    stops by itself. *)
Theorem timer_and_execution_alternate s :
  reachable s → _isDisposed s = false →
  (∃ h d, timers s = [(h, d)] ∧ _timeout s = Some h
          ∧ _actionsExecuting s = [] ∧ reactions s = [])
  ∨ (∃ a r, timers s = [] ∧ _actionsExecuting s = [a] ∧ reactions s = [r]
            ∧ ident (subject r) = ident a
            ∧ postExecuteCallback r = TickCallback).
Proof.
  intros [HI HL]%reachable_Live Hd. destruct HL as [Hloop _ _ _].
  destruct (Hloop Hd) as [Hone Htick]. pose proof HI as [].
  destruct (timers s) as [|[h d] [|t l]] eqn:Ht; [| |cbn in Hone; lia].
  - right. destruct (reactions s) as [|r [|r' l]] eqn:Hr; cbn in Hone; try lia.
    rewrite Forall_singleton in Htick. cbn in inv_reactions0.
    assert (∀ id, id ∈ idents (_actionsExecuting s) ↔ id = ident (subject r)) as Hex.
    { intros id. rewrite <- list_elem_of_singleton, inv_reactions0. tauto. }
    destruct (_actionsExecuting s) as [|a [|b l]] eqn:He.
    + exfalso. eapply elem_of_nil, Hex. done.
    + exists a, r. split_and!; try done. symmetry. apply Hex. left.
    + exfalso. cbn in inv_nodup0. apply NoDup_cons in inv_nodup0 as [Hn _].
      apply Hn. rewrite (proj1 (Hex (ident a))) by left.
      rewrite <- (proj1 (Hex (ident b))) by (right; left). left.
  - left. exists h, d. destruct (reactions s) eqn:Hr; cbn in Hone; [|lia].
    split_and!; try done; [apply (inv_timeout0 h d); left|].
    destruct (_actionsExecuting s) as [|a l] eqn:He; [done|].
    exfalso. eapply elem_of_nil, inv_reactions0. split; [left|done].
Qed.

(** X10: Once the processor is disposed no timer is armed and none is armed
    again: in that state and in every later one the timer callback cannot
    run. *)
Theorem no_timer_after_disposal s evs s' :
  reachable s → _isDisposed s = true → run s evs = Some s' →
  timers s' = [] ∧ ∀ h, step s' (Tick h) = None.
Proof.
  intros [HI HL]%reachable_Live Hd Hrun. destruct HL as [_ Hoff _ _].
  destruct (run_afterDisposal _ _ _ Hd (Hoff Hd) Hrun).
  split; [done|]. intros h. cbn [step]. rewrite ad_timers0.
  by rewrite bool_decide_eq_false_2 by set_solver.
Qed.

(** X11: The records that have been started are those that have completed
    together with those in [_actionsExecuting], each counted once: a record
    completes at most once, only after it was started, and leaves
    [_actionsExecuting] when it does. *)
Theorem started_records_are_executing_or_completed s :
  reachable s →
  startedIn (log s) ≡ₚ completedIn (log s) ++ idents (_actionsExecuting s)
  ∧ NoDup (startedIn (log s))
  ∧ NoDup (completedIn (log s))
  ∧ ∀ id, id ∈ completedIn (log s) →
          id ∈ startedIn (log s) ∧ id ∉ idents (_actionsExecuting s).
Proof.
  intros Hr. pose proof (reachable_Lifecycle _ Hr) as HL.
  pose proof (reachable_Inv _ Hr) as []. unfold Lifecycle in HL.
  assert (NoDup (startedIn (log s))) as Hnd.
  { pose proof (NoDup_seq 0 (actionsCreated s)) as H.
    rewrite <- inv_created0, <- inv_fifo0 in H. by apply NoDup_app in H as [? _]. }
  split; [done|]. split; [done|]. rewrite HL in Hnd.
  apply NoDup_app in Hnd as (Hc & Hce & _). split; [done|].
  intros id Hid. split; [|by apply Hce]. rewrite HL, elem_of_app. by left.
Qed.

(** X12: No error of an action or of an error handler leaves the processor:
    nothing is thrown out of a callback run by the host, and no promise
    returned by [dispose] is rejected. *)
Theorem no_error_leaves_the_processor s :
  reachable s →
  uncaught s = [] ∧ ∀ d e, disposals s !! d ≠ Some (Failed e).
Proof.
  intros [HI HL]%reachable_Live. split; [apply HI|apply HL].
Qed.

(** X13: Every armed timer waits for the configured interval, or for 0 ms when
    [breakOnlyWhenNoWork] is set and records are waiting in the queue; the
    delay is never negative, and without [breakOnlyWhenNoWork] it is always
    the interval. *)
Theorem timers_wait_as_configured s h d :
  reachable s → (h, d) ∈ timers s →
  (0 ≤ d)%Z
  ∧ (d = _breakIntervalMilliseconds (config s)
     ∨ (d = 0%Z ∧ _breakOnlyWhenNoWork (config s) = true
        ∧ _actionsToProcess s ≠ []))
  ∧ (_breakOnlyWhenNoWork (config s) = false →
     d = _breakIntervalMilliseconds (config s)).
Proof.
  intros Hr Hin. pose proof (reachable_Live _ Hr) as [_ [_ _ Hdelay _]].
  destruct Hr as (handler & interval & b & s0 & evs & Hnew & Hrun).
  assert (0 ≤ _breakIntervalMilliseconds (config s))%Z as Hpos.
  { rewrite (run_config _ _ _ Hrun). revert Hnew. unfold new.
    case_match eqn:Hle; [|done]. intros [= <-]. cbn. lia. }
  destruct (Hdelay h d Hin) as [->|(-> & Hb & Hq)].
  - split; [done|]. split; [by left|done].
  - split; [done|]. split; [by right|]. congruence.
Qed.

(** X14: [dispose(false)] on a processor that is not disposed does not wait
    between the records it starts: right after the call no timer is armed,
    every record that was executing still is, and every queued record whose
    action returned a promise is in [_actionsExecuting] as well, so that
    several records execute at the same time; a queued record is missing
    from [_actionsExecuting] only if it has completed already. *)
Theorem dispose_does_not_wait_between_records s :
  reachable s → _isDisposed s = false →
  let s1 := dispose false s in
  timers s1 = []
  ∧ (∀ a, a ∈ _actionsExecuting s → ident a ∈ idents (_actionsExecuting s1))
  ∧ (∀ a, a ∈ _actionsToProcess s → (∀ e, _action a ≠ Throws e) →
          ident a ∈ idents (_actionsExecuting s1))
  ∧ (∀ a, a ∈ _actionsToProcess s →
          ident a ∈ idents (_actionsExecuting s1)
          ∨ ident a ∈ completedIn (log s1)).
Proof.
  intros Hr Hd s1. pose proof (reachable_Inv _ Hr) as HI.
  destruct (dispose_first false s HI Hd) as (_ & _ & Ht1 & _ & _ & _ & _ & He1).
  fold s1 in Ht1, He1.
  pose proof (NoDup_seq 0 (actionsCreated s)) as Hnd. pose proof HI as [].
  rewrite <- inv_created0, <- inv_fifo0 in Hnd.
  apply NoDup_app in Hnd as (_ & Hfresh & Hnd).
  assert (∃ s2 s3,
            _actionsToProcess s2 = _actionsToProcess s
            ∧ _actionsExecuting s2 = _actionsExecuting s
            ∧ drain (length (_actionsToProcess s2)) s2 = Normal s3
            ∧ _actionsExecuting s1 = _actionsExecuting s3)
    as (s2 & s3 & Hq2 & He2 & Hdr & He3).
  { subst s1. unfold dispose. cbn [_isDisposed setDisposals]. rewrite Hd.
    set (s2 := match _timeout _ with Some h => _ | None => _ end).
    destruct (drain_returns (length (_actionsToProcess s2)) s2) as [s3 Hdr].
    exists s2, s3. cbn [negb]. rewrite Hdr.
    split_and!; try (subst s2; cbn; by destruct (_timeout s)).
    unfold poll. by destruct (_actionsExecuting s3) eqn:He3. }
  rewrite He3. split_and!; [done| | |].
  - intros a Ha. apply (drain_keeps_executing _ s2 s3 _) with (3 := Hdr).
    + rewrite He2. by apply list_elem_of_fmap_2.
    + rewrite Hq2. intros Hin. apply (Hfresh (ident a)); [|done].
      apply inv_started0. by apply list_elem_of_fmap_2.
  - intros a Ha Hn.
    apply (drain_starts_all _ s2 s3) with (3 := Hdr); rewrite ?Hq2; done.
  - intros a Ha. rewrite <- He3. apply He1. rewrite fmap_app, elem_of_app. right.
    by apply list_elem_of_fmap_2.
Qed.

(** ** The queue is worked off *)

Lemma weight_le r : weight r ≤ 2.
Proof. unfold weight. destruct (awaiting r); lia. Qed.

(** A processor that is not disposed and has work left takes a step of the
    host that leaves less work. *)
Lemma host_step s :
  Inv s → Live s → _isDisposed s = false →
  _actionsToProcess s ≠ [] ∨ _actionsExecuting s ≠ [] →
  ∃ ev s', hostOnly [ev] ∧ step s ev = Some s'
           ∧ remainingWork s' < remainingWork s
           ∧ _isDisposed s' = false
           ∧ enqueuedIn (log s') = enqueuedIn (log s).
Proof.
  intros HI HL Hd Hwork. pose proof HL as [Hloop _ _ _].
  destruct (Hloop Hd) as [Hone _].
  destruct (reactions s) as [|r l] eqn:Hr.
  - assert (_actionsExecuting s = []) as Hex.
    { destruct (_actionsExecuting s) as [|a ex] eqn:Hex; [done|].
      exfalso. eapply elem_of_nil. rewrite <- (fmap_nil ident), <- (fmap_nil subject), <- Hr.
      apply (inv_reactions _ _ HI). rewrite Hex. split; [left|done]. }
    destruct Hwork as [Hq|]; [|done].
    destruct (timers s) as [|[h d] [|t ts]] eqn:Ht; cbn in Hone; try lia.
    destruct (tick_fires h d s Ht) as [Hstep Ht0].
    exists (Tick h), (tick (clearTimeout h s)). split; [by repeat constructor|].
    split; [done|]. unfold tick.
    destruct (_actionsToProcess (clearTimeout h s)) as [|a rest] eqn:Hq0;
      [by cbn in Hq0|].
    set (p := setExecuting _ _).
    destruct (execute_outcome a TickCallback p) as (s1 & He & Ho).
    destruct (execute_quiet a TickCallback p) as (s1' & He' & Hq1 & _).
    rewrite He in He'. injection He' as <-. rewrite He. cbn [hostCall].
    destruct Hq1. split_and!.
    + unfold remainingWork, pendingWork. rewrite q_queue0, Hr. cbn in Hq0.
      rewrite Hq0. subst p. cbn.
      destruct Ho as [w -> _ _ _| -> _ _ _]; cbn; rewrite Hr; cbn; [|lia].
      pose proof (weight_le {| subject := a; awaiting := w;
                               postExecuteCallback := TickCallback |}). lia.
    + by rewrite q_disposed0.
    + by rewrite q_enqueued0.
  - destruct (settle_head s r l HI Hr) as (s' & Hs & Hlt).
    exists (Settles (ident (subject r))), s'. split; [by repeat constructor|].
    split; [done|]. cbn [step] in Hs.
    destruct (reactionOf (ident (subject r)) s) as [r'|]; [|done].
    destruct (react r' (dropReaction (ident (subject r)) s)) as [c|] eqn:Hre; [|done].
    destruct (react_quiet _ _ _ Hre) as (s1 & -> & [] & _).
    injection Hs as <-. cbn [hostCall]. split_and!.
    + unfold remainingWork. rewrite q_queue0. cbn -[Nat.mul]. cbn [hostCall] in Hlt. lia.
    + by rewrite q_disposed0.
    + by rewrite q_enqueued0.
Qed.

Lemma hostOnly_cons ev evs : hostOnly [ev] → hostOnly evs → hostOnly (ev :: evs).
Proof.
  unfold hostOnly. rewrite Forall_singleton. intros H1 H2. by constructor.
Qed.

Lemma work_gets_done n : ∀ s,
  remainingWork s ≤ n → reachable s → _isDisposed s = false →
  ∃ evs s', hostOnly evs ∧ run s evs = Some s'
            ∧ _actionsToProcess s' = [] ∧ _actionsExecuting s' = []
            ∧ _isDisposed s' = false
            ∧ enqueuedIn (log s') = enqueuedIn (log s).
Proof.
  induction n as [|n IH]; intros s Hn Hr Hd;
    destruct (_actionsToProcess s) as [|a q] eqn:Hq;
    destruct (_actionsExecuting s) as [|b ex] eqn:Hex;
    try (exists [], s; split_and!; try done; by constructor).
  all: destruct (reachable_Live _ Hr) as [HI HL].
  all: destruct (host_step s HI HL Hd) as (ev & s1 & Hev & Hs & Hlt & Hd1 & Hen);
    [rewrite Hq, Hex; by (left + right)|].
  all: try lia.
  all: destruct (IH s1) as (evs & s' & Hh & Hrun & ? & ? & ? & Hen');
    [lia|apply (queue_reachable_run s [ev] s1 Hr); cbn [run]; by rewrite Hs|done|].
  all: exists (ev :: evs), s'; cbn [run]; rewrite Hs.
  all: split_and!; try done; [by apply hostOnly_cons|congruence].
Qed.

(** X15: While the processor is not disposed the queue can always be worked off:
    some sequence of timer firings and settlements, with no other event,
    leads to a state with an empty queue and nothing executing in which
    every record enqueued so far has completed. *)
Theorem queue_can_be_worked_off s :
  reachable s → _isDisposed s = false →
  ∃ evs s',
    hostOnly evs ∧ run s evs = Some s'
    ∧ _actionsToProcess s' = [] ∧ _actionsExecuting s' = []
    ∧ _isDisposed s' = false
    ∧ ∀ id, id ∈ enqueuedIn (log s) → id ∈ completedIn (log s').
Proof.
  intros Hr Hd.
  destruct (work_gets_done _ s (Nat.le_refl _) Hr Hd)
    as (evs & s' & Hh & Hrun & Hq & Hex & Hd' & Hen).
  exists evs, s'. split_and!; try done. intros id Hid.
  pose proof (queue_reachable_run _ _ _ Hr Hrun) as Hr'.
  pose proof (reachable_Lifecycle _ Hr') as HL.
  pose proof (reachable_Inv _ Hr') as [].
  unfold Lifecycle in HL. rewrite Hex, app_nil_r in HL.
  rewrite <- HL. rewrite <- Hen, <- inv_fifo0, Hq, app_nil_r in Hid. done.
Qed.

(** ** Records start in the order in which they were enqueued *)

(** A settlement starts nothing and leaves the queue as it is. *)
Lemma settle_keeps id s s' :
  step s (Settles id) = Some s' →
  _actionsToProcess s' = _actionsToProcess s
  ∧ _isDisposed s' = _isDisposed s
  ∧ enqueuedIn (log s') = enqueuedIn (log s)
  ∧ startedIn (log s') = startedIn (log s).
Proof.
  cbn [step]. destruct (reactionOf id s) as [r|]; [|done].
  destruct (react r (dropReaction id s)) as [c|] eqn:Hre; [|done].
  destruct (react_quiet _ _ _ Hre) as (s1 & -> & [] & Hs).
  intros [= <-]. cbn [hostCall]. by rewrite q_queue0, q_disposed0, q_enqueued0, Hs.
Qed.

(** The timer fires on a queue that is not empty: the head of the queue, and
    nothing else, is started. *)
Lemma tick_starts_head h s a rest :
  h ∈ (fst <$> timers s) → _actionsToProcess s = a :: rest →
  ∃ s', step s (Tick h) = Some s'
        ∧ startedIn (log s') = startedIn (log s) ++ [ident a]
        ∧ _actionsToProcess s' = rest
        ∧ _isDisposed s' = _isDisposed s
        ∧ enqueuedIn (log s') = enqueuedIn (log s).
Proof.
  intros Hh Hq. cbn [step]. rewrite bool_decide_eq_true_2 by done.
  unfold tick. cbn [_actionsToProcess clearTimeout]. rewrite Hq.
  set (p := setExecuting _ _).
  destruct (execute_quiet a TickCallback p) as (s1 & -> & [] & Hs).
  exists s1. cbn [hostCall]. by rewrite Hs, q_queue0, q_disposed0, q_enqueued0.
Qed.

Lemma hostOnly_app evs1 evs2 : hostOnly evs1 → hostOnly evs2 → hostOnly (evs1 ++ evs2).
Proof. unfold hostOnly. rewrite Forall_app. by split. Qed.

(** The next record to start is the head of the queue: the record that is
    executing, if any, settles; then the timer fires. *)
Lemma next_start n : ∀ s a rest,
  pendingWork s ≤ n → reachable s → _isDisposed s = false →
  _actionsToProcess s = a :: rest →
  ∃ evs s', hostOnly evs ∧ run s evs = Some s'
            ∧ startedIn (log s') = startedIn (log s) ++ [ident a]
            ∧ _actionsToProcess s' = rest
            ∧ _isDisposed s' = false
            ∧ enqueuedIn (log s') = enqueuedIn (log s).
Proof.
  induction n as [|n IH]; intros s a rest Hn Hr Hd Hq;
    destruct (reachable_Live _ Hr) as [HI HL];
    destruct (reactions s) as [|r l] eqn:Hrs.
  1,3: destruct (live_loop _ HL Hd) as [Hone _]; rewrite Hrs in Hone;
    destruct (timers s) as [|[h d] [|t ts]] eqn:Ht; cbn in Hone; try lia;
    destruct (tick_starts_head h s a rest) as (s' & Hs & Hst & Hq' & Hd' & Hen);
      [rewrite Ht; cbn; left|done|];
    exists [Tick h], s'; cbn [run]; rewrite Hs;
    split_and!; try done; [by repeat constructor|congruence].
  - unfold pendingWork in Hn. rewrite Hrs in Hn. cbn in Hn.
    unfold weight in Hn. destruct (awaiting r); lia.
  - destruct (settle_head s r l HI Hrs) as (s1 & Hs & Hlt).
    destruct (settle_keeps _ _ _ Hs) as (Hq1 & Hd1 & Hen1 & Hst1).
    destruct (IH s1 a rest) as (evs & s' & Hh & Hrun & Hst & Hq' & Hd' & Hen);
      [lia|apply (queue_reachable_run s [Settles (ident (subject r))] s1 Hr);
           cbn [run]; by rewrite Hs|congruence|congruence|].
    exists (Settles (ident (subject r)) :: evs), s'. cbn [run]. rewrite Hs.
    split_and!; try done; try congruence.
    apply (hostOnly_app [_] evs); [by repeat constructor|done].
Qed.

(** All queued records start, one after the other, in queue order. *)
Lemma all_start n : ∀ s,
  length (_actionsToProcess s) ≤ n → reachable s → _isDisposed s = false →
  ∃ evs s', hostOnly evs ∧ run s evs = Some s'
            ∧ startedIn (log s') = startedIn (log s) ++ idents (_actionsToProcess s)
            ∧ _actionsToProcess s' = []
            ∧ enqueuedIn (log s') = enqueuedIn (log s).
Proof.
  induction n as [|n IH]; intros s Hn Hr Hd;
    destruct (_actionsToProcess s) as [|a rest] eqn:Hq;
    try (exists [], s; cbn; rewrite ?app_nil_r; split_and!; try done; by constructor).
  { cbn in Hn. lia. }
  destruct (next_start _ s a rest (Nat.le_refl _) Hr Hd Hq)
    as (evs1 & s1 & Hh1 & Hrun1 & Hst1 & Hq1 & Hd1 & Hen1).
  destruct (IH s1) as (evs2 & s2 & Hh2 & Hrun2 & Hst2 & Hq2 & Hen2);
    [rewrite Hq1; cbn in Hn; lia|by eapply queue_reachable_run|done|].
  exists (evs1 ++ evs2), s2. rewrite queue_run_app, Hrun1.
  split_and!; try done; [by apply hostOnly_app| |congruence].
  rewrite Hst2, Hst1, Hq1. cbn. by rewrite <- app_assoc.
Qed.

(** The two lists only grow. *)
Lemma step_order s ev s' :
  Inv s → step s ev = Some s' →
  startedIn (log s) `prefix_of` startedIn (log s')
  ∧ enqueuedIn (log s) `prefix_of` enqueuedIn (log s').
Proof.
  intros HI Hstep.
  destruct ev as [action errorHandler|h|id|k|d].
  - cbn [step] in Hstep. unfold processAction in Hstep.
    destruct (_isDisposed s); [by injection Hstep as <-|].
    destruct action as [act|]; [|by injection Hstep as <-].
    injection Hstep as <-. cbn. rewrite startedIn_snoc, enqueuedIn_snoc, app_nil_r.
    split; [done|by eexists].
  - cbn [step] in Hstep. case_bool_decide as Hh; [|done].
    destruct (_actionsToProcess s) as [|a rest] eqn:Hq.
    + injection Hstep as <-. unfold tick. cbn [_actionsToProcess clearTimeout].
      rewrite Hq. unfold _initiateBackgroundProcessing.
      by destruct (_isDisposed (clearTimeout h s)).
    + destruct (tick_starts_head h s a rest Hh Hq) as (s1 & Hs & Hst & _ & _ & Hen).
      cbn [step] in Hs. rewrite bool_decide_eq_true_2 in Hs by done.
      rewrite Hs in Hstep. injection Hstep as <-. rewrite Hst, Hen.
      split; [by eexists|done].
  - destruct (settle_keeps _ _ _ Hstep) as (_ & _ & -> & ->). done.
  - cbn [step] in Hstep. injection Hstep as <-.
    destruct (_isDisposed s) eqn:Hd; [by rewrite dispose_again|].
    destruct (dispose_first k s HI Hd) as (HI1 & _ & _ & _ & _ & Hk).
    destruct k.
    + destruct Hk as (_ & -> & _). done.
    + destruct Hk as (Hq1 & Hst1 & _). pose proof (inv_fifo _ _ HI1) as H1.
      rewrite Hq1, app_nil_r, Hst1, (inv_fifo _ _ HI) in H1. rewrite <- H1, Hst1.
      split; [by eexists|done].
  - cbn [step] in Hstep. destruct (disposals s !! d) as [[| |]|]; try done.
    injection Hstep as <-. unfold poll. by destruct (_actionsExecuting s).
Qed.

Lemma run_order evs : ∀ s s',
  Inv s → run s evs = Some s' →
  startedIn (log s) `prefix_of` startedIn (log s')
  ∧ enqueuedIn (log s) `prefix_of` enqueuedIn (log s').
Proof.
  induction evs as [|ev evs IH]; cbn [run]; intros s s' HI Hrun.
  - by injection Hrun as <-.
  - destruct (step s ev) as [s1|] eqn:Hs; [|done].
    destruct (step_order _ _ _ HI Hs) as [H1 H2].
    destruct (IH s1 s') as [H3 H4]; [by eapply step_Inv|done|].
    split; by etrans.
Qed.

(** C4: records start in the order in which they were enqueued.  In every
    reachable state, whatever the settlement times were, the records started
    so far followed by the queue are the records enqueued so far, in order.
    Over any later run, whatever the host and the owner do and however long
    an action takes, the started records only grow, and by a prefix of the
    queue followed by what is enqueued later: a queued record starts after
    the ones before it and before any record enqueued after it.  And they do
    start: while the processor is not disposed, [processAction] puts a new
    record with a fresh identity at the back of the queue; the next record
    to start is the head of the queue; and some timer firings and
    settlements start every record enqueued so far, in enqueue order. *)
Theorem actions_start_in_enqueue_order s :
  reachable s →
  (enqueuedIn (log s) = startedIn (log s) ++ idents (_actionsToProcess s)
   ∧ NoDup (enqueuedIn (log s))
   ∧ startedIn (log s) `prefix_of` enqueuedIn (log s))
  ∧ (∀ evs s', run s evs = Some s' →
       startedIn (log s) `prefix_of` startedIn (log s')
       ∧ ∃ later,
           enqueuedIn (log s') = enqueuedIn (log s) ++ later
           ∧ startedIn (log s')
             `prefix_of` (startedIn (log s) ++ idents (_actionsToProcess s) ++ later))
  ∧ (_isDisposed s = false →
     (∀ act handler, ∃ a s',
        step s (Enqueue (Some act) handler) = Some s'
        ∧ _action a = act
        ∧ (ident a ∉ enqueuedIn (log s))
        ∧ _actionsToProcess s' = _actionsToProcess s ++ [a]
        ∧ enqueuedIn (log s') = enqueuedIn (log s) ++ [ident a]
        ∧ startedIn (log s') = startedIn (log s))
     ∧ (∀ a rest, _actionsToProcess s = a :: rest →
          ∃ evs s', hostOnly evs ∧ run s evs = Some s'
                    ∧ startedIn (log s') = startedIn (log s) ++ [ident a]
                    ∧ _actionsToProcess s' = rest)
     ∧ ∃ evs s', hostOnly evs ∧ run s evs = Some s'
                 ∧ startedIn (log s') = enqueuedIn (log s)
                 ∧ _actionsToProcess s' = []).
Proof.
  intros Hr. pose proof (reachable_Inv _ Hr) as HI. pose proof HI as [].
  split_and!.
  - done.
  - rewrite inv_created0. apply NoDup_seq.
  - rewrite <- inv_fifo0. by eexists.
  - intros evs s' Hrun. destruct (run_order _ _ _ HI Hrun) as [Hst [later Hen]].
    split; [done|]. exists later. split; [done|].
    pose proof (reachable_Inv _ (queue_reachable_run _ _ _ Hr Hrun)) as HI'.
    rewrite app_assoc, inv_fifo0, <- Hen, <- (inv_fifo _ _ HI'). by eexists.
  - intros Hd. split_and!.
    + intros act handler. cbn [step]. unfold processAction. rewrite Hd.
      exists {| ident := actionsCreated s; _action := act;
                _errorHandler :=
                  default (_defaultErrorHandler (config s)) handler |}.
      eexists. split; [reflexivity|]. cbn.
      rewrite startedIn_snoc, enqueuedIn_snoc, app_nil_r. split_and!; try done.
      rewrite inv_created0, elem_of_seq. lia.
    + intros a rest Hq.
      destruct (next_start _ s a rest (Nat.le_refl _) Hr Hd Hq)
        as (evs & s' & ? & ? & ? & ? & _). eauto 8.
    + destruct (all_start _ s (Nat.le_refl _) Hr Hd)
        as (evs & s' & ? & ? & Hst & ? & _).
      exists evs, s'. split_and!; try done. by rewrite Hst, inv_fifo0.
Qed.

(** ** Concrete instances of the properties above *)

Lemma timer_and_execution_alternate_witness :
  let s := afterRun (threeActions ++ [Tick 0]) in
  (∃ h d, timers s = [(h, d)] ∧ _timeout s = Some h
          ∧ _actionsExecuting s = [] ∧ reactions s = [])
  ∨ (∃ a r, timers s = [] ∧ _actionsExecuting s = [a] ∧ reactions s = [r]
            ∧ ident (subject r) = ident a
            ∧ postExecuteCallback r = TickCallback).
Proof.
  apply (timer_and_execution_alternate (afterRun (threeActions ++ [Tick 0]))).
  - apply queue_reachable_after. vm_compute. reflexivity.
  - vm_compute. reflexivity.
Defined.

Lemma no_timer_after_disposal_witness :
  let s' := afterRun (threeActions ++ [Tick 0; Dispose true; Settles 0]) in
  timers s' = [] ∧ ∀ h, step s' (Tick h) = None.
Proof.
  apply (no_timer_after_disposal
           (afterRun (threeActions ++ [Tick 0; Dispose true])) [Settles 0]).
  - apply queue_reachable_after. vm_compute. reflexivity.
  - vm_compute. reflexivity.
  - vm_compute. reflexivity.
Defined.

Lemma started_records_are_executing_or_completed_witness :
  let s := afterRun (threeActions ++ [Tick 0; Settles 0; Tick 1]) in
  startedIn (log s) ≡ₚ completedIn (log s) ++ idents (_actionsExecuting s)
  ∧ NoDup (startedIn (log s))
  ∧ NoDup (completedIn (log s))
  ∧ ∀ id, id ∈ completedIn (log s) →
          id ∈ startedIn (log s) ∧ id ∉ idents (_actionsExecuting s).
Proof.
  apply (started_records_are_executing_or_completed
           (afterRun (threeActions ++ [Tick 0; Settles 0; Tick 1]))).
  apply queue_reachable_after. vm_compute. reflexivity.
Defined.

Lemma no_error_leaves_the_processor_witness :
  let s := afterRun (threeActions ++ [Tick 0; Settles 0; Tick 1; Dispose false]) in
  uncaught s = [] ∧ ∀ d e, disposals s !! d ≠ Some (Failed e).
Proof.
  apply (no_error_leaves_the_processor
           (afterRun (threeActions ++ [Tick 0; Settles 0; Tick 1; Dispose false]))).
  apply queue_reachable_after. vm_compute. reflexivity.
Defined.

Lemma timers_wait_as_configured_witness :
  let s := afterRun (threeActions ++ [Tick 0; Settles 0]) in
  (0 ≤ 0)%Z
  ∧ (0%Z = _breakIntervalMilliseconds (config s)
     ∨ (0%Z = 0%Z ∧ _breakOnlyWhenNoWork (config s) = true
        ∧ _actionsToProcess s ≠ []))
  ∧ (_breakOnlyWhenNoWork (config s) = false →
     0%Z = _breakIntervalMilliseconds (config s)).
Proof.
  apply (timers_wait_as_configured
           (afterRun (threeActions ++ [Tick 0; Settles 0])) 1 0%Z).
  - apply queue_reachable_after. vm_compute. reflexivity.
  - vm_compute. left.
Defined.

Lemma dispose_does_not_wait_between_records_witness :
  let s := afterRun (threeActions ++ [Tick 0]) in
  let s1 := dispose false s in
  timers s1 = []
  ∧ (∀ a, a ∈ _actionsExecuting s → ident a ∈ idents (_actionsExecuting s1))
  ∧ (∀ a, a ∈ _actionsToProcess s → (∀ e, _action a ≠ Throws e) →
          ident a ∈ idents (_actionsExecuting s1))
  ∧ (∀ a, a ∈ _actionsToProcess s →
          ident a ∈ idents (_actionsExecuting s1)
          ∨ ident a ∈ completedIn (log s1)).
Proof.
  apply (dispose_does_not_wait_between_records
           (afterRun (threeActions ++ [Tick 0]))).
  - apply queue_reachable_after. vm_compute. reflexivity.
  - vm_compute. reflexivity.
Defined.

Lemma queue_can_be_worked_off_witness :
  let s := afterRun (threeActions ++ [Tick 0]) in
  ∃ evs s',
    hostOnly evs ∧ run s evs = Some s'
    ∧ _actionsToProcess s' = [] ∧ _actionsExecuting s' = []
    ∧ _isDisposed s' = false
    ∧ ∀ id, id ∈ enqueuedIn (log s) → id ∈ completedIn (log s').
Proof.
  apply (queue_can_be_worked_off (afterRun (threeActions ++ [Tick 0]))).
  - apply queue_reachable_after. vm_compute. reflexivity.
  - vm_compute. reflexivity.
Defined.

Lemma actions_start_in_enqueue_order_witness :
  let s := afterRun threeActions in
  let s1 := afterRun (threeActions
                      ++ [Tick 0; Enqueue (Some Resolves) None; Settles 0; Tick 1]) in
  let first := {| ident := 0; _action := Resolves; _errorHandler := quietly |} in
  let others :=
    [{| ident := 1; _action := Throws "a";
        _errorHandler := fun _ => Rejects "h" |};
     {| ident := 2; _action := Rejects "r";
        _errorHandler := fun _ => Throws "t" |}] in
  (startedIn (log s) = [] ∧ _actionsToProcess s = first :: others)
  ∧ (∃ evs s', hostOnly evs ∧ run s evs = Some s'
               ∧ startedIn (log s') = startedIn (log s) ++ [ident first]
               ∧ _actionsToProcess s' = others)
  ∧ (∃ evs s', hostOnly evs ∧ run s evs = Some s'
               ∧ startedIn (log s') = enqueuedIn (log s)
               ∧ _actionsToProcess s' = [])
  ∧ (∃ a s', step s (Enqueue (Some Resolves) None) = Some s'
             ∧ _action a = Resolves
             ∧ (ident a ∉ enqueuedIn (log s))
             ∧ _actionsToProcess s' = _actionsToProcess s ++ [a]
             ∧ enqueuedIn (log s') = enqueuedIn (log s) ++ [ident a]
             ∧ startedIn (log s') = startedIn (log s))
  ∧ startedIn (log s) `prefix_of` startedIn (log s1)
  ∧ ∃ later,
      enqueuedIn (log s1) = enqueuedIn (log s) ++ later
      ∧ startedIn (log s1)
        `prefix_of` (startedIn (log s) ++ idents (_actionsToProcess s) ++ later).
Proof.
  assert (reachable (afterRun threeActions)) as Hr
    by (apply queue_reachable_after; vm_compute; reflexivity).
  assert (_isDisposed (afterRun threeActions) = false) as Hd
    by (vm_compute; reflexivity).
  assert (_actionsToProcess (afterRun threeActions)
          = {| ident := 0; _action := Resolves; _errorHandler := quietly |}
            :: [{| ident := 1; _action := Throws "a";
                   _errorHandler := fun _ => Rejects "h" |};
                {| ident := 2; _action := Rejects "r";
                   _errorHandler := fun _ => Throws "t" |}]) as Hq
    by (vm_compute; reflexivity).
  destruct (actions_start_in_enqueue_order _ Hr) as (_ & Hsafe & Hlive).
  destruct (Hlive Hd) as (Henq & Hnext & Hall).
  split; [split; [vm_compute; reflexivity|exact Hq]|].
  split; [exact (Hnext _ _ Hq)|].
  split; [exact Hall|]. split; [exact (Henq Resolves None)|].
  apply (Hsafe [Tick 0; Enqueue (Some Resolves) None; Settles 0; Tick 1]).
  vm_compute. reflexivity.
Defined.

End QueueProps.

(* ===================================================================== *)
(** * Properties of Version *)
(* ===================================================================== *)

Module VersionProps.
Import Version.

Lemma compare_spec (v1 v2 : Z) :
  (v2 < v1 ∧ compare v1 v2 = 1)%Z
  ∨ (v1 = v2 ∧ compare v1 v2 = 0%Z)
  ∨ (v1 < v2 ∧ compare v1 v2 = -1)%Z.
Proof.
  unfold compare.
  destruct (Z.ltb_spec v2 v1); [by left|].
  destruct (Z.ltb_spec v1 v2); [by right; right|]. right. left. split; [lia|done].
Qed.

Lemma compareTo_spec v w :
  ((_major w < _major v
    ∨ (_major v = _major w
       ∧ (_minor w < _minor v
          ∨ (_minor v = _minor w ∧ _patch w < _patch v))))
   ∧ compareTo v w = 1)%Z
  ∨ (v = w ∧ compareTo v w = 0%Z)
  ∨ ((_major v < _major w
      ∨ (_major v = _major w
         ∧ (_minor v < _minor w
            ∨ (_minor v = _minor w ∧ _patch v < _patch w))))
     ∧ compareTo v w = -1)%Z.
Proof.
  destruct v as [a b c], w as [a' b' c']. unfold compareTo. cbn.
  destruct (compare_spec a a') as [[? ->]|[[-> ->]|[? ->]]]; cbn;
    [left; split; [lia|done]| |right; right; split; [lia|done]].
  destruct (compare_spec b b') as [[? ->]|[[-> ->]|[? ->]]]; cbn;
    [left; split; [lia|done]| |right; right; split; [lia|done]].
  destruct (compare_spec c c') as [[? ->]|[[-> ->]|[? ->]]];
    [left; split; [lia|done]| |right; right; split; [lia|done]].
  right. left. done.
Qed.

(** X16: [compareTo] compares two versions field by field, major first: it
    returns 1 exactly when [this] is the greater version, -1 when it is the
    smaller one and 0 exactly when [equals] holds, which is when the three
    fields agree; swapping the two versions negates the result. *)
Theorem compareTo_orders_versions v w :
  (compareTo v w = 1 ∨ compareTo v w = 0 ∨ compareTo v w = -1)%Z
  ∧ (compareTo v w = 1%Z ↔
       (_major w < _major v
        ∨ (_major v = _major w
           ∧ (_minor w < _minor v
              ∨ (_minor v = _minor w ∧ _patch w < _patch v))))%Z)
  ∧ (compareTo v w = 0%Z ↔ equals v w = true)
  ∧ (equals v w = true ↔ v = w)
  ∧ compareTo w v = (- compareTo v w)%Z.
Proof.
  assert (equals v w = true ↔ v = w) as Heq.
  { destruct v as [a b c], w as [a' b' c']. unfold equals. cbn.
    rewrite !andb_true_iff, !Z.eqb_eq. split; [intros [[-> ->] ->]; done|].
    by intros [= -> -> ->]. }
  split_and!; [| | |done|].
  - destruct (compareTo_spec v w) as [[_ ->]|[[_ ->]|[_ ->]]]; auto.
  - destruct (compareTo_spec v w) as [[? ->]|[[-> ->]|[? ->]]];
      split; try done; lia.
  - rewrite Heq.
    destruct (compareTo_spec v w) as [[? ->]|[[-> ->]|[? ->]]];
      split; try done; intros ->; lia.
  - destruct (compareTo_spec v w) as [[? Hvw]|[[? Hvw]|[? Hvw]]];
      destruct (compareTo_spec w v) as [[? ->]|[[? ->]|[? ->]]];
      rewrite Hvw; try done; subst; lia.
Qed.

(** X17: [compareTo] is transitive: a version greater than a second one that is
    greater than a third is greater than the third. *)
Theorem compareTo_is_transitive a b c :
  compareTo a b = 1%Z → compareTo b c = 1%Z → compareTo a c = 1%Z.
Proof.
  intros Hab Hbc.
  destruct (compareTo_spec a b) as [[Hgt _]|[[_ H]|[_ H]]]; [|congruence..].
  destruct (compareTo_spec b c) as [[Hgt' _]|[[_ H]|[_ H]]]; [|congruence..].
  destruct (compareTo_spec a c) as [[_ H]|[[-> _]|[Hlt _]]]; [done|lia..].
Qed.

Lemma compareTo_is_transitive_witness :
  compareTo {| _major := 2; _minor := 0; _patch := 0 |}
            {| _major := 1; _minor := 4; _patch := 0 |} = 1%Z.
Proof.
  apply (compareTo_is_transitive
           {| _major := 2; _minor := 0; _patch := 0 |}
           {| _major := 1; _minor := 9; _patch := 3 |}
           {| _major := 1; _minor := 4; _patch := 0 |}); reflexivity.
Defined.

End VersionProps.
